(** * pi-servo: software PWM on a sysfs GPIO line

    A shallow embedding of [pwm.c] and [main.c].  C [int] values are
    integers of [Z], with the 32-bit range checked where the C standard
    leaves the result undefined; [double] is IEEE-754 binary64 as specified
    by [SpecFloat] (round to nearest even); the instance lives in a heap and
    is reached through a pointer; the kernel and the C library are an oracle
    that answers each call; what the process does is kept in a trace. *)

From Stdlib Require Import ZArith Lia Bool List String Ascii DecimalString.
From Stdlib Require Import DecimalFacts DecimalPos DecimalZ.
From Stdlib Require Import Floats.SpecFloat.
From stdpp Require Import gmap strings.

Local Open Scope Z_scope.

(** ** C integers *)

Module CInt.

Definition INT_MIN : Z := -2147483648.
Definition INT_MAX : Z := 2147483647.

Definition in_int (z : Z) : bool := (INT_MIN <=? z) && (z <=? INT_MAX).

(** [a - b] on [int]: overflow is undefined. *)
Definition sub (a b : Z) : option Z :=
  if in_int (a - b) then Some (a - b) else None.

(** Conversion of an [int] argument to [useconds_t] (unsigned, 32 bits). *)
Definition useconds (z : Z) : Z := z mod 2 ^ 32.

(** [snprintf (s, sizeof (s), "%d", z)]: at most 11 characters, the buffers
    of the source hold 50. *)
Definition dec (z : Z) : string := NilZero.string_of_int (Z.to_int z).

End CInt.

(** ** C doubles: binary64 *)

Module Double.

Definition prec : Z := 53.
Definition emax : Z := 1024.

Definition double : Type := spec_float.

(** The values a [double] variable can hold. *)
Definition is_double (x : double) : Prop := valid_binary prec emax x = true.

Definition mul : double -> double -> double := SFmul prec emax.
Definition ltb : double -> double -> bool := SFltb.
Definition leb : double -> double -> bool := SFleb.

(** Conversion [int -> double]; exact, an [int] has at most 31 bits. *)
Definition of_int (z : Z) : double := binary_normalize prec emax z 0 false.

Definition zero : double := S754_zero false.
Definition one : double := Eval vm_compute in of_int 1.
Definition half : double := S754_finite false 4503599627370496 (-53).

(** The integral part of a finite value, fraction discarded.  [Z.shiftl]
    by a negative amount shifts right, which floors the magnitude. *)
Definition trunc (x : double) : option Z :=
  match x with
  | S754_zero _ => Some 0
  | S754_finite s m e => Some (cond_Zopp s (Z.shiftl (Zpos m) e))
  | S754_infinity _ | S754_nan => None
  end.

(** [k <= c * |x|], in exact arithmetic (no rounding). *)
Definition mag_times_geb (c : Z) (x : double) (k : Z) : bool :=
  match x with
  | S754_zero _ => k <=? 0
  | S754_finite _ m e => k * 2 ^ Z.max (- e) 0 <=? c * Zpos m * 2 ^ Z.max e 0
  | S754_infinity _ => true
  | S754_nan => false
  end.

(** The cast [(int) x]: undefined unless the integral part fits. *)
Definition to_int (x : double) : option Z :=
  match trunc x with
  | Some z => if CInt.in_int z then Some z else None
  | None => None
  end.

End Double.

(** ** The instance, [struct _PWM] *)

Record PWM := mkPWM {
  pin : Z;          (* GPIO pin number *)
  pthread : Z;      (* reference to the running thread *)
  stop : bool;      (* set when pwm_stop() is called *)
  f_value : Z;      (* saved file handle for the 'value' pseudo-file *)
  cycle_usec : Z;   (* PWM cycle length *)
  on_usec : Z;      (* "on" time in usec *)
  off_usec : Z      (* "off" time in usec *)
}.

Definition set_pin (v : Z) (s : PWM) : PWM :=
  mkPWM v (pthread s) (stop s) (f_value s) (cycle_usec s) (on_usec s) (off_usec s).
Definition set_pthread (v : Z) (s : PWM) : PWM :=
  mkPWM (pin s) v (stop s) (f_value s) (cycle_usec s) (on_usec s) (off_usec s).
Definition set_stop (v : bool) (s : PWM) : PWM :=
  mkPWM (pin s) (pthread s) v (f_value s) (cycle_usec s) (on_usec s) (off_usec s).
Definition set_f_value (v : Z) (s : PWM) : PWM :=
  mkPWM (pin s) (pthread s) (stop s) v (cycle_usec s) (on_usec s) (off_usec s).
Definition set_cycle_usec (v : Z) (s : PWM) : PWM :=
  mkPWM (pin s) (pthread s) (stop s) (f_value s) v (on_usec s) (off_usec s).
Definition set_on_usec (v : Z) (s : PWM) : PWM :=
  mkPWM (pin s) (pthread s) (stop s) (f_value s) (cycle_usec s) v (off_usec s).
Definition set_off_usec (v : Z) (s : PWM) : PWM :=
  mkPWM (pin s) (pthread s) (stop s) (f_value s) (cycle_usec s) (on_usec s) v.

(** [memset (self, 0, sizeof (PWM))] *)
Definition PWM_zero : PWM := mkPWM 0 0 false 0 0 0 0.
(** ** The process: heap, descriptors, kernel oracle, trace *)

Inductive ptr := NULL | Addr (a : positive).

Inductive sysret (A : Type) :=
| SysOk (a : A)
| SysErr (errno : Z).
Arguments SysOk {A} a.
Arguments SysErr {A} errno.

(** How the kernel and the C library answer.  Each path is asked for at most
    once by every function of the source, so the answers are fixed per path. *)
Record Kernel := mkKernel {
  k_malloc : bool;                       (* malloc returns memory *)
  k_fopen_w : string -> sysret unit;     (* fopen (path, "w") *)
  k_open_wr : string -> sysret N;        (* open (path, O_WRONLY): a descriptor *)
  k_thread : sysret Z;                   (* pthread_create: the thread id *)
  k_strerror : Z -> string;              (* strerror *)
  k_stack : Z                            (* what an unset pthread_t variable holds *)
}.

Inductive event :=
| EvFile (path text : string)            (* fprintf + fclose on a control file *)
| EvOpen (path : string) (fd : Z)
| EvClose (fd : Z)
| EvWrite (fd : Z) (c : ascii) (live : bool)   (* write (fd, &v, 1) *)
| EvSleep (usec : Z)                     (* usleep *)
| EvThread (tid : Z) (arg : ptr)         (* pthread_create (.., pwm_loop, arg) *)
| EvDetach (tid : Z)
| EvPrompt
| EvSetting (val : Double.double)
| EvStderr (msg : string).

Record World := mkWorld {
  kernel : Kernel;
  heap : gmap positive PWM;   (* live malloc blocks *)
  errno : Z;
  fds : gset Z;               (* open file descriptors *)
  trace : list event          (* what the process did, oldest first *)
}.

Definition with_heap (h : gmap positive PWM) (w : World) : World :=
  mkWorld (kernel w) h (errno w) (fds w) (trace w).
Definition with_errno (e : Z) (w : World) : World :=
  mkWorld (kernel w) (heap w) e (fds w) (trace w).
Definition with_fds (d : gset Z) (w : World) : World :=
  mkWorld (kernel w) (heap w) (errno w) d (trace w).
Definition log (evs : list event) (w : World) : World :=
  mkWorld (kernel w) (heap w) (errno w) (fds w) (trace w ++ evs).

(** ** Computations: a state monad over [World] that can stop early *)

Inductive fault :=
| AssertFailed      (* assert () aborts the process *)
| Undefined         (* undefined behaviour in the sense of the C standard *)
| Hangs.            (* the program never returns *)

Inductive outcome (A : Type) :=
| Ret (a : A) (w : World)
| Crash (f : fault).
Arguments Ret {A} a w.
Arguments Crash {A} f.

Definition M (A : Type) : Type := World -> outcome A.

#[export] Instance M_ret : MRet M := fun A a w => Ret a w.
#[export] Instance M_bind : MBind M := fun A B k m w =>
  match m w with
  | Ret a w' => k a w'
  | Crash f => Crash f
  end.

Definition crash {A} (f : fault) : M A := fun _ => Crash f.
Definition get : M World := fun w => Ret w w.
Definition modify (f : World -> World) : M unit := fun w => Ret tt (f w).
Definition emit (e : event) : M unit := modify (log [e]).
Definition lift {A} (o : option A) : M A :=
  match o with Some a => mret a | None => crash Undefined end.

(** [assert (self != NULL)] *)
Definition assert_nonnull (self : ptr) : M unit :=
  match self with NULL => crash AssertFailed | Addr _ => mret tt end.

(** Reading [*self]; a pointer to no live block is undefined. *)
Definition load (self : ptr) : M PWM :=
  match self with
  | NULL => crash Undefined
  | Addr a => w ← get; lift (heap w !! a)
  end.

(** [self->field = v], written as a field setter applied to [*self]. *)
Definition store (self : ptr) (f : PWM -> PWM) : M unit :=
  s ← load self;
  match self with
  | NULL => crash Undefined
  | Addr a => modify (fun w => with_heap (<[a := f s]> (heap w)) w)
  end.

(** *** System calls *)

Definition sys_malloc : M ptr := fun w =>
  if k_malloc (kernel w)
  then let a := fresh (dom (heap w)) in Ret (Addr a) (with_heap (<[a := PWM_zero]> (heap w)) w)
  else Ret NULL w.

Definition sys_free (p : ptr) : M unit :=
  match p with
  | NULL => mret tt
  | Addr a => w ← get;
      match heap w !! a with
      | Some _ => modify (with_heap (delete a (heap w)))
      | None => crash Undefined
      end
  end.

(** [fopen (filename, "w")]: whether a stream was returned. *)
Definition sys_fopen_w (filename : string) : M bool := fun w =>
  match k_fopen_w (kernel w) filename with
  | SysOk _ => Ret true w
  | SysErr e => Ret false (with_errno e w)
  end.

(** [open (path, O_WRONLY)] *)
Definition sys_open_wr (path : string) : M Z := fun w =>
  match k_open_wr (kernel w) path with
  | SysOk fd => Ret (Z.of_N fd)
                  (log [EvOpen path (Z.of_N fd)] (with_fds ({[Z.of_N fd]} ∪ fds w) w))
  | SysErr e => Ret (-1) (with_errno e w)
  end.

Definition sys_close (fd : Z) : M unit :=
  modify (fun w => log [EvClose fd] (with_fds (fds w ∖ {[fd]}) w)).

(** [write (fd, &v, 1)]; the result is not looked at by the source. *)
Definition sys_write (fd : Z) (c : ascii) : M unit :=
  modify (fun w => log [EvWrite fd c (bool_decide (fd ∈ fds w))] w).

Definition sys_usleep (usec : Z) : M unit := emit (EvSleep (CInt.useconds usec)).

(** [pthread_create (&pt, NULL, pwm_loop, arg)], giving what [pt] holds
    after the call: the id of the new thread, or, when no thread could be
    created, what the variable held before.  Whether the call succeeded is
    its result, which the source does not look at. *)
Definition sys_pthread_create (arg : ptr) : M Z := fun w =>
  match k_thread (kernel w) with
  | SysOk tid => Ret tid (log [EvThread tid arg] w)
  | SysErr _ => Ret (k_stack (kernel w)) w
  end.

(** ** pwm.c *)

(** Modelled from the spec: [defs.h] (BOOL, TRUE, FALSE) is not among the
    sources; BOOL is taken as the two-valued type [bool]. *)
Definition BOOL : Type := bool.
Definition TRUE : BOOL := true.
Definition FALSE : BOOL := false.

Definition gpio_export : string := "/sys/class/gpio/export".
Definition gpio_unexport : string := "/sys/class/gpio/unexport".
(** [snprintf (s, sizeof (s), "/sys/class/gpio/gpio%d/<attr>", pin)] *)
Definition gpio_attr (pin : Z) (attr : string) : string :=
  "/sys/class/gpio/gpio" +:+ CInt.dec pin +:+ "/" +:+ attr.

(** pwm.c:57 *)
Definition pwm_create (pin : Z) : M ptr :=
  self ← sys_malloc;
  match self with
  | NULL => crash Undefined              (* memset through a null pointer *)
  | Addr _ =>
      store self (fun _ => PWM_zero);;
      store self (set_pin pin);;
      store self (set_f_value (-1));;
      mret self
  end.

(** pwm.c:165.  The results of [fprintf] and [fclose] are not looked at. *)
Definition pwm_write_to_file (filename text : string) : M Z :=
  f ← sys_fopen_w filename;
  if f : bool
  then emit (EvFile filename text);; mret 0
  else mret (-1).

(** pwm.c:181 *)
Definition pwm_set_pin (self : ptr) (value : Z) : M Z :=
  assert_nonnull self;;
  let v := if value =? 0 then "0"%char else "1"%char in
  s ← load self;
  sys_write (f_value s) v;;
  mret 0.

(** pwm.c:196 *)
Definition pwm_setup_pin (self : ptr) : M Z :=
  assert_nonnull self;;
  s ← load self;
  ret ← pwm_write_to_file gpio_export (CInt.dec (pin s));
  if ret =? 0
  then
    pwm_write_to_file (gpio_attr (pin s) "direction") "out";;
    fd ← sys_open_wr (gpio_attr (pin s) "value");
    store self (set_f_value fd);;
    s ← load self;
    mret (if 0 <=? f_value s then 0 else ret)   (* if (self->f_value >= 0) ret = 0; *)
  else mret ret.

(** pwm.c:217 *)
Definition pwm_unsetup_pin (self : ptr) : M Z :=
  assert_nonnull self;;
  s ← load self;
  ret ← pwm_write_to_file gpio_unexport (CInt.dec (pin s));
  s ← load self;
  (if 0 <=? f_value s then sys_close (f_value s) else mret tt);;
  store self (set_f_value (-1));;
  mret ret.

(** pwm.c:114 *)
Definition pwm_set_duty (self : ptr) (duty : Double.double) : M unit :=
  assert_nonnull self;;
  s ← load self;
  on_usec ← lift (Double.to_int (Double.mul (Double.of_int (cycle_usec s)) duty));
  s ← load self;
  off_usec ← lift (CInt.sub (cycle_usec s) on_usec);
  store self (set_on_usec on_usec);;
  store self (set_off_usec off_usec).

(** pwm.c:126.  [error] tells whether the caller passed a place for the
    message; the second component is the text stored there, if any. *)
Definition pwm_start (self : ptr) (cycle_usec : Z) (error : bool)
  : M (BOOL * option string) :=
  assert_nonnull self;;
  r ← pwm_setup_pin self;
  if r =? 0
  then
    store self (set_stop FALSE);;
    store self (set_cycle_usec cycle_usec);;
    store self (set_on_usec 0);;
    store self (set_off_usec cycle_usec);;
    pt ← sys_pthread_create self;        (* the result is dropped *)
    emit (EvDetach pt);;
    store self (set_pthread pt);;
    mret (TRUE, None)
  else
    if error
    then w ← get;
         mret (FALSE, Some ("Can't set up pin: " +:+ k_strerror (kernel w) (errno w)))
    else mret (FALSE, None).

(** pwm.c:155 *)
Definition pwm_stop (self : ptr) : M unit :=
  assert_nonnull self;;
  store self (set_stop TRUE);;
  pwm_unsetup_pin self;;
  mret tt.

(** pwm.c:69 *)
Definition pwm_destroy (self : ptr) : M unit :=
  match self with
  | NULL => mret tt
  | Addr _ => pwm_stop self;; sys_free self
  end.

(** *** The timing loop, pwm.c:93

    [pwm_loop] runs in a thread of its own, so it is given as the control
    points of its body.  A step looks at the instance as it is at that moment
    and moves on, possibly asking for one call. *)

Inductive loop_pc :=
| AtWhile        (* while (!self->stop) *)
| AtOnTest       (* if (self->on_usec != 0) *)
| AtSetHigh      (* pwm_set_pin (self, 1) *)
| AtOnSleep      (* usleep (self->on_usec) *)
| AtStopTest     (* if (!self->stop) *)
| AtOffTest      (* if (self->off_usec != 0) *)
| AtSetLow       (* pwm_set_pin (self, 0) *)
| AtOffSleep     (* usleep (self->off_usec) *)
| Returned.      (* return NULL *)

Inductive call :=
| SetPin (value : Z)
| Usleep (arg : Z).

Definition pwm_loop_step (pc : loop_pc) (s : PWM) : loop_pc * option call :=
  match pc with
  | AtWhile => (if stop s then Returned else AtOnTest, None)
  | AtOnTest => (if on_usec s =? 0 then AtOnSleep else AtSetHigh, None)
  | AtSetHigh => (AtOnSleep, Some (SetPin 1))
  | AtOnSleep => (AtStopTest, Some (Usleep (on_usec s)))
  | AtStopTest => (if stop s then AtWhile else AtOffTest, None)
  | AtOffTest => (if off_usec s =? 0 then AtOffSleep else AtSetLow, None)
  | AtSetLow => (AtOffSleep, Some (SetPin 0))
  | AtOffSleep => (AtWhile, Some (Usleep (off_usec s)))
  | Returned => (Returned, None)
  end.

Definition at_head (pc : loop_pc) : bool :=
  match pc with AtWhile | Returned => true | _ => false end.

Definition do_call (self : ptr) (c : call) : M unit :=
  match c with
  | SetPin value => pwm_set_pin self value;; mret tt
  | Usleep arg => sys_usleep arg
  end.

(** One step of the thread that runs [pwm_loop (self)]. *)
Definition loop_thread_step (self : ptr) (pc : loop_pc) : M loop_pc :=
  s ← load self;
  let '(pc', c) := pwm_loop_step pc s in
  match c with Some c => do_call self c | None => mret tt end;;
  mret pc'.

(** [pwm_loop (self)] left alone for at most [fuel] steps; it stands at
    [Returned] once the function has returned. *)
Fixpoint pwm_loop (fuel : nat) (self : ptr) (pc : loop_pc) : M loop_pc :=
  match fuel with
  | O => mret pc
  | S fuel' =>
      pc' ← loop_thread_step self pc;
      match pc' with
      | Returned => mret Returned
      | _ => pwm_loop fuel' self pc'
      end
  end.

(** One pass of the thread that runs [pwm_loop], with other threads running
    meanwhile: [env pc] is what they have done to the process since the
    loop's previous step, at the moment the loop takes its step at [pc].  The
    pass is over when the loop stands at the [while] test again, or has
    returned. *)
Fixpoint loop_thread_pass (fuel : nat) (self : ptr) (env : loop_pc -> World -> World)
    (pc : loop_pc) : M loop_pc :=
  match fuel with
  | O => mret pc
  | S fuel' =>
      modify (env pc);;
      pc' ← loop_thread_step self pc;
      if at_head pc' then mret pc' else loop_thread_pass fuel' self env pc'
  end.

(** [pwm_stop], statement by statement, for the thread that calls it. *)
Inductive stop_pc :=
| AtRaise        (* self->stop = TRUE *)
| AtUnexport     (* pwm_write_to_file ("/sys/class/gpio/unexport", s) *)
| AtClose        (* if (self->f_value >= 0) close (self->f_value) *)
| AtClear        (* self->f_value = -1 *)
| Stopped.

Definition pwm_stop_step (self : ptr) (pc : stop_pc) : M stop_pc :=
  match pc with
  | AtRaise =>
      assert_nonnull self;; store self (set_stop TRUE);; mret AtUnexport
  | AtUnexport =>
      assert_nonnull self;;
      s ← load self;
      pwm_write_to_file gpio_unexport (CInt.dec (pin s));;
      mret AtClose
  | AtClose =>
      s ← load self;
      (if 0 <=? f_value s then sys_close (f_value s) else mret tt);;
      mret AtClear
  | AtClear => store self (set_f_value (-1));; mret Stopped
  | Stopped => mret Stopped
  end.

(** The two threads of a started instance, interleaved by a schedule. *)
Inductive thread := Loop | Caller.

Record Sys := mkSys {
  sys_world : World;
  loop_at : loop_pc;
  stop_at : stop_pc
}.

Definition sys_step (self : ptr) (t : thread) (σ : Sys) : option Sys :=
  match t with
  | Loop =>
      match loop_thread_step self (loop_at σ) (sys_world σ) with
      | Ret pc w => Some (mkSys w pc (stop_at σ))
      | Crash _ => None
      end
  | Caller =>
      match pwm_stop_step self (stop_at σ) (sys_world σ) with
      | Ret pc w => Some (mkSys w (loop_at σ) pc)
      | Crash _ => None
      end
  end.

Fixpoint sys_run (self : ptr) (sched : list thread) (σ : Sys) : option Sys :=
  match sched with
  | [] => Some σ
  | t :: sched' =>
      match sys_step self t σ with
      | Some σ' => sys_run self sched' σ'
      | None => None
      end
  end.

(** The state right after [pwm_start] returned TRUE in world [w]: the loop
    thread has not run yet, the caller has not called [pwm_stop] yet. *)
Definition sys_started (w : World) : Sys := mkSys w AtWhile AtRaise.

(** ** main.c *)

Definition PIN : Z := 17.
Definition newline : string := String "010"%char EmptyString.

(** main.c:63.  [input] lists what the successive [fscanf (stdin, "%lf", &val)]
    calls do: [Some v] stores [v], [None] stores nothing (no number could be
    read); past its end the stream is at end of file and nothing is stored. *)
Fixpoint main_loop (pwm : ptr) (val : Double.double)
    (input : list (option Double.double)) : M unit :=
  if Double.ltb Double.zero val            (* while (val > 0.0) *)
  then
    match input with
    | [] => crash Hangs
    | r :: input' =>
        emit EvPrompt;;
        let val := match r with Some v => v | None => val end in
        (if Double.ltb Double.zero val     (* if (val > 0.0) *)
         then pwm_set_duty pwm val;; emit (EvSetting val)
         else mret tt);;
        main_loop pwm val input'
    end
  else mret tt.

(** main.c:47 *)
Definition main (input : list (option Double.double)) : M Z :=
  pwm ← pwm_create PIN;
  '(ok, error) ← pwm_start pwm 20000 true;
  if ok : bool
  then
    pwm_set_duty pwm Double.zero;;
    main_loop pwm Double.one input;;
    pwm_stop pwm;;
    mret 0
  else
    emit (EvStderr ("Can't start PWM: " +:+ default "(null)"%string error +:+ newline));;
    mret 0.

(** ** Definitions used to state the properties *)

(** *** Worlds the functions lead to *)

(** The world after [self->field = v] at address [a]. *)
Definition poke (a : positive) (s : PWM) (w : World) : World :=
  with_heap (<[a := s]> (heap w)) w.

Definition set_intervals (on off : Z) (s : PWM) : PWM :=
  set_off_usec off (set_on_usec on s).

(** The world after the "direction" write of [pwm_setup_pin], whose result
    the source drops. *)
Definition after_direction (pin : Z) (w : World) : World :=
  match k_fopen_w (kernel w) (gpio_attr pin "direction") with
  | SysOk _ => log [EvFile (gpio_attr pin "direction") "out"] w
  | SysErr e => with_errno e w
  end.

(** What [open] of the "value" attribute returns, and the world after it. *)
Definition opened_fd (pin : Z) (w : World) : Z :=
  match k_open_wr (kernel w) (gpio_attr pin "value") with
  | SysOk fd => Z.of_N fd
  | SysErr _ => -1
  end.

Definition after_open (a : positive) (s : PWM) (w : World) : World :=
  poke a (set_f_value (opened_fd (pin s) w) s)
    match k_open_wr (kernel w) (gpio_attr (pin s) "value") with
    | SysOk fd =>
        log [EvOpen (gpio_attr (pin s) "value") (Z.of_N fd)]
          (with_fds ({[Z.of_N fd]} ∪ fds w) w)
    | SysErr e => with_errno e w
    end.

(** The world after the body of [pwm_setup_pin] past a successful export. *)
Definition after_setup (a : positive) (s : PWM) (w : World) : World :=
  after_open a s (after_direction (pin s) (log [EvFile gpio_export (CInt.dec (pin s))] w)).

(** The instance after the stores of a successful [pwm_start]. *)
Definition started_instance (tid cycle : Z) (s : PWM) : PWM :=
  set_pthread tid
    (set_off_usec cycle (set_on_usec 0 (set_cycle_usec cycle (set_stop FALSE s)))).

(** What [pt] holds after the [pthread_create] of [pwm_start], and what the
    call adds to the trace. *)
Definition thread_id (w : World) : Z :=
  match k_thread (kernel w) with
  | SysOk tid => tid
  | SysErr _ => k_stack (kernel w)
  end.

Definition thread_events (a : positive) (w : World) : list event :=
  match k_thread (kernel w) with
  | SysOk tid => [EvThread tid (Addr a)]
  | SysErr _ => []
  end.

(** The worlds [pwm_unsetup_pin] goes through. *)
Definition after_unexport (pin : Z) (w : World) : World :=
  match k_fopen_w (kernel w) gpio_unexport with
  | SysOk _ => log [EvFile gpio_unexport (CInt.dec pin)] w
  | SysErr e => with_errno e w
  end.

Definition after_close (fd : Z) (w : World) : World :=
  if 0 <=? fd then log [EvClose fd] (with_fds (fds w ∖ {[fd]}) w) else w.

Definition after_stop (a : positive) (s : PWM) (w : World) : World :=
  poke a (set_f_value (-1) (set_stop TRUE s))
    (after_close (f_value s) (after_unexport (pin s) (poke a (set_stop TRUE s) w))).

(** *** Rounding *)

(** The value [binary_round_aux] makes of a significand [m] that has been
    cut to 53 bits and rounded, at exponent [e]. *)
Definition rounded (s : bool) (m e : Z) : spec_float :=
  match m with
  | Z0 => S754_zero s
  | Zpos q =>
      if m =? 2 ^ 53
      then if e + 1 <=? 971 then S754_finite s (2 ^ 52)%positive (e + 1) else S754_infinity s
      else if e <=? 971 then S754_finite s q e else S754_infinity s
  | Zneg _ => S754_nan
  end.

(** *** The duty cycle *)

(** [self->cycle_usec * duty] *)
Definition duty_product (s : PWM) (duty : Double.double) : Double.double :=
  Double.mul (Double.of_int (cycle_usec s)) duty.

(** The pair [(on_usec, off_usec)] that [pwm_set_duty] leaves in the
    instance at [a], if the call returns. *)
Definition duty_result (w : World) (a : positive) (duty : Double.double) : option (Z * Z) :=
  match pwm_set_duty (Addr a) duty w with
  | Ret _ w' =>
      match heap w' !! a with
      | Some s' => Some (on_usec s', off_usec s')
      | None => None
      end
  | Crash _ => None
  end.

(** "onInterval == round_toward_zero (cycleLength * fraction), offInterval ==
    cycleLength - onInterval, and their sum is cycleLength". *)
Definition duty_claim (w : World) (a : positive) (duty : Double.double) : Prop :=
  exists s on off,
    heap w !! a = Some s
    /\ duty_result w a duty = Some (on, off)
    /\ Double.trunc (duty_product s duty) = Some on
    /\ off = cycle_usec s - on
    /\ on + off = cycle_usec s.

(** "a fraction below 0.0 gives a negative offInterval, a fraction above 1.0
    an onInterval above cycleLength". *)
Definition no_clamp_claim (w : World) (a : positive) (duty : Double.double) : Prop :=
  exists s on off,
    heap w !! a = Some s
    /\ duty_result w a duty = Some (on, off)
    /\ (Double.ltb duty Double.zero = true -> off < 0)
    /\ (Double.ltb Double.one duty = true -> cycle_usec s < on).

(** *** The timing loop among other threads *)

(** The instance at [a] as it is in [w]. *)
Definition instance_at (a : positive) (w : World) : PWM := default PWM_zero (heap w !! a).

(** The others never free the instance. *)
Definition survives (a : positive) (env : loop_pc -> World -> World) : Prop :=
  forall pc w, is_Some (heap w !! a) -> is_Some (heap (env pc w) !! a).

(** The world after [pwm_set_pin (self, ..)] has written [c], and after
    [usleep (usec)]. *)
Definition pin_set (a : positive) (c : ascii) (w : World) : World :=
  log [EvWrite (f_value (instance_at a w)) c
         (bool_decide (f_value (instance_at a w) ∈ fds w))] w.

Definition slept_for (usec : Z) (w : World) : World :=
  log [EvSleep (CInt.useconds usec)] w.

(** The pass of [loop_thread_pass], spelt out: what the loop does to the
    world it finds at each of its control points. *)
Definition timing_pass (a : positive) (env : loop_pc -> World -> World) (w : World)
  : outcome loop_pc :=
  let w1 := env AtWhile w in
  if stop (instance_at a w1) then Ret Returned w1
  else
    let w2 := env AtOnTest w1 in
    let w3 := if on_usec (instance_at a w2) =? 0 then w2
              else pin_set a "1" (env AtSetHigh w2) in
    let w4 := env AtOnSleep w3 in
    let w5 := env AtStopTest (slept_for (on_usec (instance_at a w4)) w4) in
    if stop (instance_at a w5) then Ret AtWhile w5
    else
      let w6 := env AtOffTest w5 in
      let w7 := if off_usec (instance_at a w6) =? 0 then w6
                else pin_set a "0" (env AtSetLow w6) in
      let w8 := env AtOffSleep w7 in
      Ret AtWhile (slept_for (off_usec (instance_at a w8)) w8).

(** *** Starting *)



(** *** Traces of the two threads *)

(** Events a call of the loop adds to the trace, the instance being [s]. *)
Definition call_events (s : PWM) (w : World) (c : call) : list event :=
  match c with
  | SetPin value =>
      [EvWrite (f_value s) (if value =? 0 then "0"%char else "1"%char)
         (bool_decide (f_value s ∈ fds w))]
  | Usleep arg => [EvSleep (CInt.useconds arg)]
  end.

Definition call_writes (c : option call) : nat :=
  match c with Some (SetPin _) => 1 | _ => 0 end.

Definition is_write (e : event) : bool :=
  match e with EvWrite _ _ _ => true | _ => false end.
Definition is_close (e : event) : bool :=
  match e with EvClose _ => true | _ => false end.

(** Pin writes in a trace. *)
Definition writes (t : list event) : nat := length (List.filter is_write t).

(** Pin writes that come after a [close]: the handle had been released. *)
Fixpoint late_writes (released : bool) (t : list event) : nat :=
  match t with
  | [] => 0
  | e :: t' =>
      ((if released && is_write e then 1 else 0)
       + late_writes (released || is_close e) t')%nat
  end.

(** With the stop flag up: pin writes the loop can still make from [pc], and
    steps it can still take before it has returned. *)
Definition write_budget (pc : loop_pc) : nat :=
  match pc with
  | AtOnTest | AtSetHigh | AtOffTest | AtSetLow => 1
  | _ => 0
  end.

Definition steps_left (pc : loop_pc) : nat :=
  match pc with
  | AtOnTest => 5
  | AtSetHigh | AtOffTest => 4
  | AtOnSleep | AtSetLow => 3
  | AtStopTest | AtOffSleep => 2
  | AtWhile => 1
  | Returned => 0
  end.

Definition is_loop (t : thread) : bool :=
  match t with Loop => true | Caller => false end.
Definition loop_steps (sched : list thread) : nat := length (List.filter is_loop sched).

(** The stop flag of the instance at [a] is up in [σ]. *)
Definition raised (a : positive) (σ : Sys) : Prop :=
  exists s, heap (sys_world σ) !! a = Some s /\ stop s = true.

(** Before the caller has raised the flag nothing has been closed; from then
    on the flag is up and the loop has at most one pin write left. *)
Definition stop_inv (a : positive) (σ : Sys) : Prop :=
  exists s, heap (sys_world σ) !! a = Some s
    /\ match stop_at σ with
       | AtRaise => existsb is_close (trace (sys_world σ)) = false
       | _ => stop s = true
              /\ (late_writes false (trace (sys_world σ)) + write_budget (loop_at σ) <= 1)%nat
       end.

(** "no pin write after the handle has been released", for every
    interleaving of the loop with [pwm_stop]. *)
Definition release_safe (a : positive) (w : World) : Prop :=
  forall sched σ,
    sys_run (Addr a) sched (sys_started w) = Some σ ->
    late_writes false (trace (sys_world σ)) = 0%nat.

(** *** The console *)

(** [main]'s use of the values typed in: prompt, set the duty, echo. *)
Fixpoint forward (pwm : ptr) (vs : list Double.double) : M unit :=
  match vs with
  | [] => mret tt
  | v :: vs' =>
      emit EvPrompt;; pwm_set_duty pwm v;; emit (EvSetting v);; forward pwm vs'
  end.

(** The calls [main] makes when the values [vs] are typed in, followed by a
    value that ends the loop: no [pwm_destroy] among them. *)
Definition session (vs : list Double.double) : M Z :=
  pwm ← pwm_create PIN;
  '(ok, error) ← pwm_start pwm 20000 true;
  if ok : bool
  then
    pwm_set_duty pwm Double.zero;;
    (forward pwm vs;; emit EvPrompt);;
    pwm_stop pwm;;
    mret 0
  else
    emit (EvStderr ("Can't start PWM: " +:+ default "(null)"%string error +:+ newline));;
    mret 0.

(** A computation that frees nothing. *)
Definition keeps_heap {A} (m : M A) : Prop :=
  forall w x w', m w = Ret x w' -> dom (heap w) ⊆ dom (heap w').

(** *** Rounding to nearest *)

(** The significand [p] with its [k] low bits dropped, rounded to nearest,
    ties to even. *)
Definition nearest_even (p k : Z) : Z :=
  let q := p / 2 ^ k in
  let r := p mod 2 ^ k in
  if 2 ^ k <? 2 * r then q + 1
  else if (2 * r =? 2 ^ k) && Z.odd q then q + 1
  else q.

(** The exponent [binary_round_aux] gives the result for significand [q]
    at exponent [e]: 53 bits are kept, down to the subnormal exponent
    -1074. *)
Definition round_exp (q : positive) (e : Z) : Z :=
  Z.max e (Z.max (Zpos (digits2_pos q) + e - 53) (-1074)).

(** *** The loop left alone *)

(** What one pass of the loop adds to the trace when nobody touches the
    instance [s] meanwhile; [live] tells whether the handle is open. *)
Definition pass_events (s : PWM) (live : bool) : list event :=
  (if on_usec s =? 0 then [] else [EvWrite (f_value s) "1" live])
  ++ EvSleep (CInt.useconds (on_usec s))
  :: (if off_usec s =? 0 then [] else [EvWrite (f_value s) "0" live])
  ++ [EvSleep (CInt.useconds (off_usec s))].

(** The control points such a pass goes through. *)
Definition pass_steps (s : PWM) : nat :=
  (6 + (if (on_usec s =? 0)%Z then 0 else 1) + (if (off_usec s =? 0)%Z then 0 else 1))%nat.

(** Microseconds asked of [usleep] in a trace. *)
Fixpoint slept (t : list event) : Z :=
  match t with
  | [] => 0
  | EvSleep usec :: t' => usec + slept t'
  | _ :: t' => slept t'
  end.

(** Pin writes of the character [c] in a trace. *)
Definition writes_of (c : ascii) (t : list event) : nat :=
  length (List.filter
            (fun e => match e with EvWrite _ c' _ => bool_decide (c' = c) | _ => false end) t).

(** The loop stands at no pin write that a zero interval rules out. *)
Definition skips_level (c : ascii) (s : PWM) (pc : loop_pc) : Prop :=
  (c = "1"%char /\ on_usec s = 0 /\ pc <> AtSetHigh)
  \/ (c = "0"%char /\ off_usec s = 0 /\ pc <> AtSetLow).

(** *** [pwm_stop] while the loop runs *)

(** What [pwm_stop] has made of the instance [s] and of the open descriptors
    [d] when its caller stands at [pc]. *)
Definition stop_progress (s : PWM) (d : gset Z) (pc : stop_pc) : PWM * gset Z :=
  match pc with
  | AtRaise => (s, d)
  | AtUnexport | AtClose => (set_stop TRUE s, d)
  | AtClear => (set_stop TRUE s, if 0 <=? f_value s then d ∖ {[f_value s]} else d)
  | Stopped =>
      (set_f_value (-1) (set_stop TRUE s), if 0 <=? f_value s then d ∖ {[f_value s]} else d)
  end.

(** Steps of the caller in a schedule, and those [pwm_stop] still needs. *)
Definition caller_steps (sched : list thread) : nat :=
  length (List.filter (fun t => negb (is_loop t)) sched).

Definition stop_steps_left (pc : stop_pc) : nat :=
  match pc with
  | AtRaise => 4
  | AtUnexport => 3
  | AtClose => 2
  | AtClear => 1
  | Stopped => 0
  end.

(** The loop does not get in the way of [pwm_stop], called on the instance
    [s] at [a] in the world [w]. *)
Definition stop_on_track (a : positive) (s : PWM) (w : World) (σ : Sys) : Prop :=
  heap (sys_world σ) = <[a := fst (stop_progress s (fds w) (stop_at σ))]> (heap w)
  /\ fds (sys_world σ) = snd (stop_progress s (fds w) (stop_at σ)).

(** *** [pwm_set_duty] while the loop runs *)

(** [pwm_set_duty], statement by statement, for the thread that calls it;
    the locals [on_usec] and [off_usec] travel with the control point. *)
Inductive duty_pc :=
| AtCast                      (* int on_usec = (int) (self->cycle_usec * duty) *)
| AtDiff (on : Z)             (* int off_usec = self->cycle_usec - on_usec *)
| AtStoreOn (on off : Z)      (* self->on_usec = on_usec *)
| AtStoreOff (off : Z)        (* self->off_usec = off_usec *)
| DutySet.

Definition pwm_set_duty_step (self : ptr) (duty : Double.double) (pc : duty_pc)
  : M duty_pc :=
  match pc with
  | AtCast =>
      assert_nonnull self;;
      s ← load self;
      on ← lift (Double.to_int (Double.mul (Double.of_int (cycle_usec s)) duty));
      mret (AtDiff on)
  | AtDiff on =>
      s ← load self;
      off ← lift (CInt.sub (cycle_usec s) on);
      mret (AtStoreOn on off)
  | AtStoreOn on off => store self (set_on_usec on);; mret (AtStoreOff off)
  | AtStoreOff off => store self (set_off_usec off);; mret DutySet
  | DutySet => mret DutySet
  end.

(** The loop thread and a caller of [pwm_set_duty (self, duty)], interleaved
    by a schedule. *)
Record Duet := mkDuet {
  duet_world : World;
  duet_loop : loop_pc;
  duet_duty : duty_pc
}.

Definition duet_step (self : ptr) (duty : Double.double) (t : thread) (σ : Duet)
  : option Duet :=
  match t with
  | Loop =>
      match loop_thread_step self (duet_loop σ) (duet_world σ) with
      | Ret pc w => Some (mkDuet w pc (duet_duty σ))
      | Crash _ => None
      end
  | Caller =>
      match pwm_set_duty_step self duty (duet_duty σ) (duet_world σ) with
      | Ret pc w => Some (mkDuet w (duet_loop σ) pc)
      | Crash _ => None
      end
  end.

Fixpoint duet_run (self : ptr) (duty : Double.double) (sched : list thread) (σ : Duet)
  : option Duet :=
  match sched with
  | [] => Some σ
  | t :: sched' =>
      match duet_step self duty t σ with
      | Some σ' => duet_run self duty sched' σ'
      | None => None
      end
  end.

(** The caller stores [on_usec], the loop makes a whole pass, the caller
    stores [off_usec]. *)
Definition torn_schedule (passing : nat) : list thread :=
  [Caller; Caller; Caller] ++ replicate passing Loop ++ [Caller].

(** [usleep] arguments in a trace. *)
Fixpoint sleeps (t : list event) : list Z :=
  match t with
  | [] => []
  | EvSleep usec :: t' => usec :: sleeps t'
  | _ :: t' => sleeps t'
  end.

(** The instance a caller of [pwm_set_duty] that stands at [pc] has made of
    [s], the call being bound to leave [on] and [off]. *)
Definition duty_progress (s : PWM) (on off : Z) (pc : duty_pc) (s' : PWM) : Prop :=
  match pc with
  | AtCast => s' = s
  | AtDiff on' => s' = s /\ on' = on
  | AtStoreOn on' off' => s' = s /\ on' = on /\ off' = off
  | AtStoreOff off' => s' = set_on_usec on s /\ off' = off
  | DutySet => s' = set_intervals on off s
  end.

(** *** What is typed in *)

(** The fractions [main] hands to [pwm_set_duty] for what the successive
    [fscanf] calls do: a call that stores nothing leaves [val] as it was. *)
Fixpoint carry (val : Double.double) (input : list (option Double.double))
  : list Double.double :=
  match input with
  | [] => []
  | r :: input' =>
      let val := match r with Some v => v | None => val end in
      val :: carry val input'
  end.

(** Two instances that differ in their intervals at most. *)
Definition same_but_intervals (s s' : PWM) : Prop :=
  pin s' = pin s /\ pthread s' = pthread s /\ stop s' = stop s
  /\ f_value s' = f_value s /\ cycle_usec s' = cycle_usec s.

(** The console loop writes prompts and echoes, nothing else. *)
Definition is_console (e : event) : bool :=
  match e with EvPrompt | EvSetting _ => true | _ => false end.

(** *** Texts written to the control files *)

(** [pwm_write_to_file] hands its text to [fprintf] as the format: a text
    is safe there when it holds no conversion, that is no '%'. *)
Fixpoint has_percent (t : string) : bool :=
  match t with
  | EmptyString => false
  | String c t' => Ascii.eqb c "%" || has_percent t'
  end.

(** Whether the character [c] occurs in [t]. *)
Fixpoint occurs (c : ascii) (t : string) : bool :=
  match t with
  | EmptyString => false
  | String c' t' => Ascii.eqb c' c || occurs c t'
  end.

(** No control-file write of a trace carries a conversion. *)
Definition plain_writes (evs : list event) : bool :=
  forallb (fun e => match e with EvFile _ text => negb (has_percent text) | _ => true end) evs.

(** ** Concrete kernels, worlds and fractions *)

Module Ex.

(** Everything works; [open] returns descriptor 3. *)
Definition kernel_ok : Kernel :=
  mkKernel true (fun _ => SysOk tt) (fun _ => SysOk 3%N) (SysOk 1)
    (fun _ => "Permission denied"%string) 0.

(** The control files open, the "value" attribute does not (ENOENT). *)
Definition kernel_no_value : Kernel :=
  mkKernel true (fun _ => SysOk tt) (fun _ => SysErr 2) (SysOk 1)
    (fun _ => "No such file or directory"%string) 0.

(** No control file can be opened (EACCES). *)
Definition kernel_denied : Kernel :=
  mkKernel true (fun _ => SysErr 13) (fun _ => SysErr 13) (SysOk 1)
    (fun _ => "Permission denied"%string) 0.

(** The export file opens, the "direction" attribute does not (EACCES). *)
Definition kernel_no_direction : Kernel :=
  mkKernel true
    (fun path => if String.eqb path gpio_export then SysOk tt else SysErr 13)
    (fun _ => SysOk 3%N) (SysOk 1)
    (fun _ => "Permission denied"%string) 0.


Definition boot (k : Kernel) : World := mkWorld k ∅ 0 ∅ [].

(** After [pwm_create (17)]. *)
Definition idle : PWM := mkPWM 17 0 false (-1) 0 0 0.
Definition created (k : Kernel) : World := mkWorld k {[1%positive := idle]} 0 ∅ [].

(** After [pwm_start (pwm, cycle, &error)], with the given intervals. *)
Definition setup_trace : list event :=
  [EvFile gpio_export "17"; EvFile (gpio_attr 17 "direction") "out";
   EvOpen (gpio_attr 17 "value") 3; EvThread 1 (Addr 1); EvDetach 1].
Definition instance (cycle on off : Z) : PWM := mkPWM 17 1 false 3 cycle on off.
Definition running (cycle on off : Z) : World :=
  mkWorld kernel_ok {[1%positive := instance cycle on off]} 0 {[3]} setup_trace.


(** After [main] has been given 0.5 and then -1. *)
Definition finished : World :=
  mkWorld kernel_ok {[1%positive := mkPWM 17 1 true (-1) 20000 10000 10000]} 0 ∅
    (setup_trace ++ [EvPrompt; EvSetting Double.half; EvPrompt;
                     EvFile gpio_unexport "17"; EvClose 3]).

Definition minus_one : Double.double := S754_finite true 4503599627370496 (-52).
Definition minus_half : Double.double := S754_finite true 4503599627370496 (-53).
Definition one_and_half : Double.double := S754_finite false 6755399441055744 (-52).
(** The least [double] above 1.0. *)
Definition above_one : Double.double := S754_finite false 4503599627370497 (-52).
(** 0.025 and 200000.0 *)
Definition servo_min : Double.double := S754_finite false 7205759403792794 (-58).
Definition d200000 : Double.double := S754_finite false 6871947673600000 (-35).
(** The [double] nearest to one third, [1/3 - 2^-54/3]. *)
Definition third : Double.double := S754_finite false 6004799503160661 (-54).

(** Another thread raises the stop flag while the loop sleeps its first
    sleep. *)
Definition raised_meanwhile (pc : loop_pc) (w : World) : World :=
  match pc with
  | AtStopTest => poke 1 (set_stop TRUE (instance_at 1 w)) w
  | _ => w
  end.

(** The loop passes its [while] test, [pwm_stop] runs to its end, the loop
    goes on to set the pin. *)
Definition late_schedule : list thread :=
  [Loop; Caller; Caller; Caller; Caller; Loop; Loop].

(** Where [late_schedule] leads from [running 20000 10000 10000]. *)
Definition late_state : Sys :=
  mkSys (mkWorld kernel_ok {[1%positive := mkPWM 17 1 true (-1) 20000 10000 10000]} 0 ∅
           (setup_trace ++ [EvFile gpio_unexport "17"; EvClose 3; EvWrite (-1) "1" false]))
        AtOnSleep Stopped.

End Ex.

(** * Properties *)

(** ** Binary64: digits and shifts *)

Section Digits.

Lemma digits2_pos_size (p : positive) : digits2_pos p = Pos.size p.
Proof. induction p; simpl; congruence. Qed.

Lemma digits2_log2 (p : positive) : Zpos (digits2_pos p) = Z.log2 (Zpos p) + 1.
Proof.
  rewrite digits2_pos_size.
  destruct p; simpl; try reflexivity; rewrite Pos2Z.inj_succ; lia.
Qed.

Lemma digits2_bounds (p : positive) :
  2 ^ (Zpos (digits2_pos p) - 1) <= Zpos p < 2 ^ Zpos (digits2_pos p).
Proof.
  rewrite digits2_log2.
  replace (Z.log2 (Z.pos p) + 1 - 1) with (Z.log2 (Z.pos p)) by lia.
  apply Z.log2_spec. lia.
Qed.

Lemma digits2_unique (p : positive) (n : Z) :
  2 ^ (n - 1) <= Zpos p < 2 ^ n -> Zpos (digits2_pos p) = n.
Proof.
  intros H. rewrite digits2_log2.
  assert (0 < n).
  { destruct (Z.lt_ge_cases 0 n) as [|Hn]; [assumption|].
    destruct H as [_ H].
    assert (2 ^ n <= 2 ^ 0).
    { destruct (Z.eq_dec n 0); [subst; lia|]. rewrite Z.pow_neg_r by lia. simpl. lia. }
    simpl in *. lia. }
  rewrite (Z.log2_unique (Zpos p) (n - 1)); [lia | lia |].
  replace (Z.succ (n - 1)) with n by lia. exact H.
Qed.

(** A positive number below [2 ^ n] has at most [n] digits. *)
Lemma digits2_le (p : positive) (n : Z) :
  0 <= n -> Zpos p < 2 ^ n -> Zpos (digits2_pos p) <= n.
Proof.
  intros Hn H. pose proof (digits2_bounds p) as [Hlo _].
  destruct (Z.le_gt_cases (Zpos (digits2_pos p)) n) as [|Hgt]; [assumption|].
  assert (2 ^ n <= 2 ^ (Zpos (digits2_pos p) - 1)) by (apply Z.pow_le_mono_r; lia).
  lia.
Qed.

End Digits.

Section Shifts.

Lemma iter_xO (p d : positive) : Zpos (Pos.iter xO p d) = Zpos p * 2 ^ Zpos d.
Proof.
  induction d as [|d IH] using Pos.peano_ind.
  - simpl. lia.
  - rewrite Pos.iter_succ, Pos2Z.inj_xO, IH, Pos2Z.inj_succ, Z.pow_succ_r by lia. lia.
Qed.

Lemma iter_pos_nat {A} (f : A -> A) (n : positive) (x : A) :
  SpecFloat.iter_pos f n x = Nat.iter (Pos.to_nat n) f x.
Proof.
  revert x. induction n as [n IH|n IH|]; intros x; cbn [SpecFloat.iter_pos].
  - rewrite !IH, Pos2Nat.inj_xI. 
    replace (S (2 * Pos.to_nat n))%nat with (Pos.to_nat n + (Pos.to_nat n + 1))%nat by lia.
    rewrite !Nat.iter_add. simpl. reflexivity.
  - rewrite !IH, Pos2Nat.inj_xO.
    replace (2 * Pos.to_nat n)%nat with (Pos.to_nat n + Pos.to_nat n)%nat by lia.
    rewrite Nat.iter_add. reflexivity.
  - reflexivity.
Qed.

Lemma shr_1_m (r : shr_record) : 0 <= shr_m r -> shr_m (shr_1 r) = shr_m r / 2.
Proof.
  destruct r as [m r s]. cbn [shr_m]. intros Hm.
  destruct m as [|[p|p|]|p]; cbn [shr_1 shr_m]; try lia.
  - reflexivity.
  - apply Z.div_unique with 1; lia.
  - apply Z.div_unique with 0; lia.
  - reflexivity.
Qed.

Lemma shr_1_r (r : shr_record) : 0 <= shr_m r -> shr_r (shr_1 r) = Z.odd (shr_m r).
Proof.
  destruct r as [m r s]. cbn [shr_m]. intros Hm.
  destruct m as [|[p|p|]|p]; cbn [shr_1 shr_r]; try lia; reflexivity.
Qed.

Lemma shr_1_s (r : shr_record) : shr_s (shr_1 r) = shr_r r || shr_s r.
Proof. destruct r as [m r s]. simpl. destruct m as [|[p|p|]|[p|p|]]; reflexivity. Qed.

Lemma shr_iter_m (k : nat) (r : shr_record) :
  0 <= shr_m r -> shr_m (Nat.iter k shr_1 r) = shr_m r / 2 ^ Z.of_nat k.
Proof.
  intros Hm. induction k as [|k IH].
  - simpl. rewrite Z.div_1_r. reflexivity.
  - cbn [Nat.iter nat_rect]. 
    change (nat_rect (fun _ => shr_record) r (fun _ => shr_1) k) with (Nat.iter k shr_1 r).
    rewrite shr_1_m; rewrite IH.
    + rewrite Nat2Z.inj_succ, Z.pow_succ_r by lia.
      rewrite Z.div_div by lia. f_equal. lia.
    + apply Z.div_pos; lia.
Qed.

Lemma shr_iter_exact (k : nat) (r : shr_record) :
  0 <= shr_m r -> shr_r r = false -> shr_s r = false ->
  shr_m r mod 2 ^ Z.of_nat k = 0 ->
  shr_r (Nat.iter k shr_1 r) = false /\ shr_s (Nat.iter k shr_1 r) = false.
Proof.
  intros Hm Hr Hs. induction k as [|k IH]; intros Hmod.
  - simpl. auto.
  - cbn [Nat.iter nat_rect]. 
    change (nat_rect (fun _ => shr_record) r (fun _ => shr_1) k) with (Nat.iter k shr_1 r).
    rewrite Nat2Z.inj_succ, Z.pow_succ_r in Hmod by lia.
    assert (Hk : 0 < 2 ^ Z.of_nat k) by (apply Z.pow_pos_nonneg; lia).
    apply Z.mod_divide in Hmod; [|lia]. destruct Hmod as [q Hq].
    assert (Hmod' : shr_m r mod 2 ^ Z.of_nat k = 0).
    { apply Z.mod_divide; [lia|]. exists (q * 2). lia. }
    destruct (IH Hmod') as [IHr IHs].
    rewrite shr_1_s, IHr, IHs. split; [|reflexivity].
    rewrite shr_1_r.
    + rewrite shr_iter_m by assumption. rewrite Hq.
      replace (q * (2 * 2 ^ Z.of_nat k)) with ((q * 2) * 2 ^ Z.of_nat k) by lia.
      rewrite Z.div_mul by lia. rewrite Z.odd_mul. apply andb_false_r.
    + rewrite shr_iter_m by assumption. apply Z.div_pos; lia.
Qed.

End Shifts.

(** ** Binary64: rounding *)

Section Rounding.

Lemma fexp_binary64 (e : Z) : fexp Double.prec Double.emax e = Z.max (e - 53) (-1074).
Proof. reflexivity. Qed.

Lemma shr_exact (m e n : Z) :
  0 <= m ->
  exists r, shr (Build_shr_record m false false) e n = (r, e + Z.max n 0)
    /\ shr_m r = m / 2 ^ Z.max n 0
    /\ (m mod 2 ^ Z.max n 0 = 0 -> loc_of_shr_record r = loc_Exact).
Proof.
  intros Hm. destruct n as [|n|n]; cbn [shr].
  - exists (Build_shr_record m false false). rewrite Z.add_0_r. cbn [shr_m].
    change (2 ^ Z.max 0 0) with 1. rewrite Z.div_1_r. auto.
  - exists (SpecFloat.iter_pos shr_1 n (Build_shr_record m false false)).
    rewrite Z.max_l by lia. split; [reflexivity|].
    rewrite iter_pos_nat. rewrite <- (positive_nat_Z n).
    split.
    + apply (shr_iter_m _ (Build_shr_record m false false)). exact Hm.
    + intros Hmod.
      destruct (shr_iter_exact (Pos.to_nat n) (Build_shr_record m false false))
        as [Hr Hs]; auto.
      destruct (Nat.iter _ _ _) as [m' r' s']. cbn in Hr, Hs. subst. reflexivity.
  - exists (Build_shr_record m false false). rewrite Z.max_r by lia.
    rewrite Z.add_0_r. cbn [shr_m]. change (2 ^ 0) with 1. rewrite Z.div_1_r. auto.
Qed.

Lemma round_nearest_even_bounds (m : Z) (l : location) :
  m <= round_nearest_even m l <= m + 1.
Proof. destruct l as [|[| |]]; cbn; try destruct (Z.even m); lia. Qed.

(** Rounding a positive integer significand [p] at exponent [e]: the
    significand is cut to 53 bits ([k] low bits dropped) and moved up by
    at most one unit. *)
Lemma binary_round_aux_spec (s : bool) (p : positive) (e : Z) :
  let e1 := Z.max e (Z.max (Zpos (digits2_pos p) + e - 53) (-1074)) in
  let k := e1 - e in
  exists m : Z,
    Zpos p / 2 ^ k <= m <= Zpos p / 2 ^ k + 1
    /\ (Zpos p mod 2 ^ k = 0 -> m = Zpos p / 2 ^ k)
    /\ m <= 2 ^ 53
    /\ binary_round_aux Double.prec Double.emax s (Zpos p) e loc_Exact = rounded s m e1.
Proof.
  intros e1 k.
  pose proof (digits2_bounds p) as [Hlo Hhi].
  set (d := Zpos (digits2_pos p)) in *.
  assert (Hd : 0 < d) by (subst d; lia).
  unfold binary_round_aux, shr_fexp. rewrite fexp_binary64.
  cbn [Zdigits2 shr_record_of_loc]. fold d.
  destruct (shr_exact (Zpos p) e (Z.max (d + e - 53) (-1074) - e)) as (r & -> & Hm & Hex);
    [lia|].
  replace (Z.max (Z.max (d + e - 53) (-1074) - e) 0) with k in * by (subst k e1; lia).
  replace (e + k) with e1 by (subst k; lia).
  assert (Hk : 0 <= k) by (subst k e1; lia).
  assert (Hpk : 0 < 2 ^ k) by (apply Z.pow_pos_nonneg; lia).
  assert (Hm1 : 0 <= shr_m r < 2 ^ 53).
  { rewrite Hm. split; [apply Z.div_pos; lia|].
    apply Z.div_lt_upper_bound; [lia|].
    rewrite <- Z.pow_add_r by lia.
    eapply Z.lt_le_trans; [exact Hhi|]. apply Z.pow_le_mono_r; subst k e1; lia. }
  set (m := round_nearest_even (shr_m r) (loc_of_shr_record r)).
  pose proof (round_nearest_even_bounds (shr_m r) (loc_of_shr_record r)) as Hrne.
  fold m in Hrne.
  exists m. rewrite <- Hm.
  split; [exact Hrne|]. split; [intros Hmod; subst m; rewrite (Hex Hmod); reflexivity|].
  split; [lia|].
  rewrite fexp_binary64.
  assert (He1 : -1074 <= e1) by (subst e1; lia).
  destruct (Z.eq_dec m (2 ^ 53)) as [E|NE].
  - rewrite E. change (Zdigits2 (2 ^ 53)) with 54.
    replace (Z.max (54 + e1 - 53) (-1074) - e1) with 1 by lia.
    reflexivity.
  - assert (Hn : Z.max (Zdigits2 m + e1 - 53) (-1074) - e1 <= 0).
    { destruct m as [|q|q]; cbn [Zdigits2]; [lia| |lia].
      assert (Zpos (digits2_pos q) <= 53) by (apply digits2_le; lia). lia. }
    assert (Hshr : shr (Build_shr_record m false false) e1
                     (Z.max (Zdigits2 m + e1 - 53) (-1074) - e1)
                   = (Build_shr_record m false false, e1)).
    { destruct (Z.max (Zdigits2 m + e1 - 53) (-1074) - e1); try reflexivity. lia. }
    rewrite Hshr. cbn [shr_m]. unfold rounded.
    destruct m as [|q|q]; try reflexivity.
    destruct (Z.eqb_spec (Zpos q) (2 ^ 53)); [contradiction|]. reflexivity.
Qed.

End Rounding.

Section Truncation.

Lemma cond_Zopp_0 (s : bool) : cond_Zopp s 0 = 0.
Proof. destruct s; reflexivity. Qed.

Lemma trunc_rounded (s : bool) (m e : Z) :
  0 <= m <= 2 ^ 53 ->
  (e + 1 <= 971 -> Double.trunc (rounded s m e) = Some (cond_Zopp s (Z.shiftl m e)))
  /\ (forall t, Double.trunc (rounded s m e) = Some t -> t = cond_Zopp s (Z.shiftl m e)).
Proof.
  intros Hm. unfold rounded.
  destruct m as [|q|q]; [| |lia].
  - rewrite Z.shiftl_0_l, cond_Zopp_0. cbn. split; [reflexivity|congruence].
  - destruct (Z.eqb_spec (Zpos q) (2 ^ 53)) as [E|NE].
    + rewrite E.
      assert (Hs : Z.shiftl (2 ^ 53) e = Z.shiftl (Zpos (2 ^ 52)) (e + 1)).
      { change (2 ^ 53) with (Z.shiftl (Zpos (2 ^ 52)) 1).
        rewrite Z.shiftl_shiftl by lia. f_equal. lia. }
      rewrite Hs. destruct (Z.leb_spec (e + 1) 971); cbn [Double.trunc].
      * split; [reflexivity|congruence].
      * split; [lia|congruence].
    + destruct (Z.leb_spec e 971); cbn [Double.trunc].
      * split; [reflexivity|congruence].
      * split; [lia|congruence].
Qed.

(** A product of magnitude at most [a] truncates to at most [a]. *)
Lemma trunc_round_le (s : bool) (q : positive) (e a : Z) :
  0 < a < 2 ^ 53 -> e <= 0 -> Zpos q <= a * 2 ^ (- e) ->
  exists t, Double.trunc (binary_round_aux Double.prec Double.emax s (Zpos q) e loc_Exact)
            = Some (cond_Zopp s t) /\ 0 <= t <= a.
Proof.
  intros Ha He Hq.
  destruct (binary_round_aux_spec s q e) as (m & Hm & Hex & Hm53 & ->).
  set (d := Zpos (digits2_pos q)) in *.
  set (e1 := Z.max e (Z.max (d + e - 53) (-1074))) in *.
  set (k := e1 - e) in *.
  assert (Hpe : 0 < 2 ^ (- e)) by (apply Z.pow_pos_nonneg; lia).
  assert (Hd : d <= 53 - e).
  { apply digits2_le; [lia|].
    replace (53 - e) with (53 + - e) by lia. rewrite Z.pow_add_r by lia. nia. }
  assert (He1 : e1 <= 0) by (subst e1; lia).
  assert (Hk : 0 <= k) by (subst k e1; lia).
  assert (Hpk : 0 < 2 ^ k) by (apply Z.pow_pos_nonneg; lia).
  assert (Hpe1 : 0 < 2 ^ (- e1)) by (apply Z.pow_pos_nonneg; lia).
  assert (Hsplit : 2 ^ (- e) = 2 ^ (- e1) * 2 ^ k).
  { rewrite <- Z.pow_add_r by lia. f_equal. subst k. lia. }
  pose proof (Z.div_mod (Zpos q) (2 ^ k) ltac:(lia)) as Hdm.
  pose proof (Z.mod_pos_bound (Zpos q) (2 ^ k) Hpk) as Hmod.
  assert (Hq0 : 0 <= Zpos q / 2 ^ k) by (apply Z.div_pos; lia).
  destruct (trunc_rounded s m e1) as [Ht _]; [lia|].
  rewrite Ht by lia. exists (Z.shiftl m e1). split; [reflexivity|].
  rewrite Z.shiftl_div_pow2 by lia. split; [apply Z.div_pos; lia|].
  apply Z.div_le_upper_bound; [lia|].
  rewrite Hsplit in Hq.
  destruct (Z.eq_dec (Zpos q mod 2 ^ k) 0) as [E|NE].
  - rewrite (Hex E). rewrite E in Hdm. nia.
  - nia.
Qed.

(** A product of magnitude at least [a] truncates to at least [a], when it
    is finite. *)
Lemma trunc_round_ge (s : bool) (q : positive) (e a t : Z) :
  0 < a < 2 ^ 53 ->
  a * 2 ^ Z.max (- e) 0 <= Zpos q * 2 ^ Z.max e 0 ->
  Double.trunc (binary_round_aux Double.prec Double.emax s (Zpos q) e loc_Exact) = Some t ->
  exists t', t = cond_Zopp s t' /\ a <= t'.
Proof.
  intros Ha Hq Htr.
  destruct (binary_round_aux_spec s q e) as (m & Hm & Hex & Hm53 & Hr).
  rewrite Hr in Htr. clear Hr.
  pose proof (digits2_bounds q) as [Hlo Hhi].
  set (d := Zpos (digits2_pos q)) in *.
  set (e1 := Z.max e (Z.max (d + e - 53) (-1074))) in *.
  set (k := e1 - e) in *.
  assert (Hk : 0 <= k) by (subst k e1; lia).
  assert (Hpk : 0 < 2 ^ k) by (apply Z.pow_pos_nonneg; lia).
  assert (Hq0 : 0 <= Zpos q / 2 ^ k) by (apply Z.div_pos; lia).
  destruct (trunc_rounded s m e1) as [_ Ht]; [lia|].
  apply Ht in Htr. exists (Z.shiftl m e1). split; [exact Htr|].
  destruct (Z.le_gt_cases e1 0) as [He1|He1].
  - (* the result still has fraction bits *)
    assert (He : e <= 0) by (subst e1; lia).
    rewrite Z.max_l, Z.max_r, Z.mul_1_r in Hq by lia.
    rewrite Z.shiftl_div_pow2 by lia.
    assert (Hpe1 : 0 < 2 ^ (- e1)) by (apply Z.pow_pos_nonneg; lia).
    apply Z.div_le_lower_bound; [lia|].
    assert (Hsplit : 2 ^ (- e) = 2 ^ (- e1) * 2 ^ k).
    { rewrite <- Z.pow_add_r by lia. f_equal. subst k. lia. }
    rewrite Hsplit in Hq.
    assert (2 ^ (- e1) * a <= Zpos q / 2 ^ k); [|lia].
    apply Z.div_le_lower_bound; [lia|]. lia.
  - rewrite Z.shiftl_mul_pow2 by lia.
    assert (Hpe1 : 2 <= 2 ^ e1).
    { change 2 with (2 ^ 1) at 1. apply Z.pow_le_mono_r; lia. }
    destruct (Z.eq_dec k 0) as [K0|K0].
    + assert (Hee : e1 = e) by (subst k; lia).
      rewrite K0, Z.div_1_r in Hm.
      rewrite Z.max_r, Z.max_l, Z.mul_1_r in Hq by lia.
      rewrite Hee in *. nia.
    + assert (E1 : e1 = d + e - 53) by (subst k e1; lia).
      assert (2 ^ 52 <= Zpos q / 2 ^ k).
      { apply Z.div_le_lower_bound; [lia|].
        rewrite <- Z.pow_add_r by lia.
        replace (k + 52) with (d - 1) by (subst k; lia). exact Hlo. }
      change (2 ^ 53) with (2 * 2 ^ 52) in Ha. nia.
Qed.

End Truncation.

(** ** Binary64: conversion, order, products *)

Section Conversion.

(** [int -> double] is exact: the significand is the integer shifted left. *)
Lemma binary_round_int (s : bool) (p : positive) :
  Zpos p < 2 ^ 53 ->
  exists (m : positive) (sh : Z),
    0 <= sh /\ Zpos m = Zpos p * 2 ^ sh
    /\ binary_round Double.prec Double.emax s p 0 = S754_finite s m (- sh).
Proof.
  intros Hp. pose proof (digits2_bounds p) as [Hlo Hhi].
  assert (Hd : Zpos (digits2_pos p) <= 53) by (apply digits2_le; lia).
  unfold binary_round. rewrite fexp_binary64.
  set (d := Zpos (digits2_pos p)) in *.
  assert (Hd0 : 0 < d) by (subst d; lia).
  rewrite Z.add_0_r, Z.max_l by lia.
  assert (Hal : exists m, shl_align p 0 (d - 53) = (m, d - 53)
                          /\ Zpos m = Zpos p * 2 ^ (53 - d)).
  { unfold shl_align. rewrite Z.sub_0_r.
    destruct (d - 53) as [|k|k] eqn:E; [| lia |].
    - exists p. replace (53 - d) with 0 by lia. split; [reflexivity|lia].
    - exists (Pos.iter xO p k). split; [reflexivity|].
      rewrite iter_xO. f_equal. f_equal. lia. }
  destruct Hal as (m & -> & Hm).
  assert (Hpow : 2 ^ 53 = 2 ^ d * 2 ^ (53 - d)).
  { rewrite <- Z.pow_add_r by lia. f_equal. lia. }
  assert (Hpow' : 2 ^ 52 = 2 ^ (d - 1) * 2 ^ (53 - d)).
  { rewrite <- Z.pow_add_r by lia. f_equal. lia. }
  assert (Hsh : 0 < 2 ^ (53 - d)) by (apply Z.pow_pos_nonneg; lia).
  assert (Hm53 : 2 ^ 52 <= Zpos m < 2 ^ 53) by (rewrite Hm, Hpow, Hpow'; nia).
  assert (Hdm : Zpos (digits2_pos m) = 53) by (apply digits2_unique; exact Hm53).
  destruct (binary_round_aux_spec s m (d - 53)) as (m' & Hm' & Hex & _ & ->).
  rewrite Hdm in *.
  replace (Z.max (d - 53) (Z.max (53 + (d - 53) - 53) (-1074))) with (d - 53) in * by lia.
  rewrite Z.sub_diag in *. change (2 ^ 0) with 1 in *.
  rewrite Z.div_1_r in *. rewrite (Hex (Z.mod_1_r _)).
  exists m, (53 - d). split; [lia|]. split; [exact Hm|].
  unfold rounded. destruct (Z.eqb_spec (Zpos m) (2 ^ 53)); [lia|].
  destruct (Z.leb_spec (d - 53) 971); [|lia].
  f_equal. lia.
Qed.

Lemma of_int_finite (c : Z) :
  c <> 0 -> Z.abs c < 2 ^ 53 ->
  exists (m : positive) (sh : Z),
    0 <= sh /\ Zpos m = Z.abs c * 2 ^ sh
    /\ Double.of_int c = S754_finite (c <? 0) m (- sh).
Proof.
  intros Hc Hb. destruct c as [|p|p]; [contradiction| |];
    apply (binary_round_int _ p); exact Hb.
Qed.

End Conversion.

Section Comparison.

(** What a valid significand/exponent pair looks like. *)
Lemma bounded_inv (m : positive) (e : Z) :
  bounded Double.prec Double.emax m e = true ->
  -1074 <= e /\ Zpos m < 2 ^ 53 /\ (-1074 < e -> 2 ^ 52 <= Zpos m).
Proof.
  unfold bounded, canonical_mantissa. rewrite fexp_binary64.
  intros H. apply andb_true_iff in H as [H _]. apply Z.eqb_eq in H.
  pose proof (digits2_bounds m) as [Hlo Hhi].
  set (d := Zpos (digits2_pos m)) in *.
  split; [lia|]. split.
  - eapply Z.lt_le_trans; [exact Hhi|]. apply Z.pow_le_mono_r; lia.
  - intros He. replace d with 53 in Hlo by lia. exact Hlo.
Qed.

(** Order of two positive finite values, read off their fields. *)
Lemma SFleb_finite_pos (m1 m2 : positive) (e1 e2 : Z) :
  SFleb (S754_finite false m1 e1) (S754_finite false m2 e2) = true ->
  e1 < e2 \/ (e1 = e2 /\ Zpos m1 <= Zpos m2).
Proof.
  unfold SFleb. cbn [SFcompare]. intros H.
  destruct (Z.compare_spec e1 e2) as [E|L|G]; [|left; exact L|discriminate H].
  right. split; [exact E|].
  rewrite Pos.compare_cont_spec in H. unfold Pos.switch_Eq in H.
  destruct (Pos.compare_spec m1 m2) as [Hc|Hc|Hc];
    [subst m2; apply Z.le_refl
    | apply Pos2Z.pos_lt_pos in Hc; apply Z.lt_le_incl, Hc
    | discriminate H].
Qed.

(** A positive value at most 1.0 *)
Lemma le_one_inv (m : positive) (e : Z) :
  bounded Double.prec Double.emax m e = true ->
  Double.leb (S754_finite false m e) Double.one = true ->
  e <= 0 /\ Zpos m <= 2 ^ (- e).
Proof.
  intros Hb Hle. apply bounded_inv in Hb as (He & Hm & _).
  apply SFleb_finite_pos in Hle as [L|[E Hc]].
  - split; [lia|]. eapply Z.le_trans; [apply Z.lt_le_incl, Hm|].
    apply Z.pow_le_mono_r; lia.
  - subst e. split; [lia|]. exact Hc.
Qed.

(** A value at least 1.0 *)
Lemma ge_one_inv (m : positive) (e : Z) :
  bounded Double.prec Double.emax m e = true ->
  Double.leb Double.one (S754_finite false m e) = true ->
  -52 <= e /\ 2 ^ 52 <= Zpos m.
Proof.
  intros Hb Hle. apply bounded_inv in Hb as (He & Hm & Hn).
  apply SFleb_finite_pos in Hle as [L|[E Hc]].
  - split; [lia|]. apply Hn. lia.
  - subst e. split; [lia|]. exact Hc.
Qed.

End Comparison.

Section Scaling.

Lemma pow2_pos (n : Z) : 0 <= n -> 0 < 2 ^ n.
Proof. intros H. apply Z.pow_pos_nonneg; lia. Qed.

Lemma pow2_split (n m : Z) : 0 <= m <= n -> 2 ^ n = 2 ^ m * 2 ^ (n - m).
Proof. intros H. rewrite <- Z.pow_add_r by lia. f_equal. lia. Qed.

(** Two scaled integers [m1 * 2^e1] and [m2 * 2^e2], compared over a common
    scale. *)
Lemma scaled_le (m1 m2 e1 e2 l : Z) :
  l <= e1 -> l <= e2 ->
  (m1 * 2 ^ Z.max (e1 - e2) 0 <= m2 * 2 ^ Z.max (e2 - e1) 0
   <-> m1 * 2 ^ (e1 - l) <= m2 * 2 ^ (e2 - l)).
Proof.
  intros H1 H2. destruct (Z.le_gt_cases e1 e2) as [H|H].
  - rewrite Z.max_r, Z.max_l, Z.mul_1_r by lia.
    rewrite (pow2_split (e2 - l) (e2 - e1)) by lia.
    replace (e2 - l - (e2 - e1)) with (e1 - l) by lia.
    pose proof (pow2_pos (e1 - l) ltac:(lia)). nia.
  - rewrite Z.max_l, Z.max_r, Z.mul_1_r by lia.
    rewrite (pow2_split (e1 - l) (e1 - e2)) by lia.
    replace (e1 - l - (e1 - e2)) with (e2 - l) by lia.
    pose proof (pow2_pos (e2 - l) ltac:(lia)). nia.
Qed.

Lemma scaled_lt (m1 m2 e1 e2 l : Z) :
  l <= e1 -> l <= e2 ->
  (m1 * 2 ^ Z.max (e1 - e2) 0 < m2 * 2 ^ Z.max (e2 - e1) 0
   <-> m1 * 2 ^ (e1 - l) < m2 * 2 ^ (e2 - l)).
Proof.
  intros H1 H2. destruct (Z.le_gt_cases e1 e2) as [H|H].
  - rewrite Z.max_r, Z.max_l, Z.mul_1_r by lia.
    rewrite (pow2_split (e2 - l) (e2 - e1)) by lia.
    replace (e2 - l - (e2 - e1)) with (e1 - l) by lia.
    pose proof (pow2_pos (e1 - l) ltac:(lia)). nia.
  - rewrite Z.max_l, Z.max_r, Z.mul_1_r by lia.
    rewrite (pow2_split (e1 - l) (e1 - e2)) by lia.
    replace (e1 - l - (e1 - e2)) with (e2 - l) by lia.
    pose proof (pow2_pos (e2 - l) ltac:(lia)). nia.
Qed.

Lemma scaled_le_lt_trans (m1 m2 a e1 e2 : Z) :
  m1 * 2 ^ Z.max (e1 - e2) 0 <= m2 * 2 ^ Z.max (e2 - e1) 0 ->
  m2 * 2 ^ Z.max (e2 - 0) 0 < a * 2 ^ Z.max (0 - e2) 0 ->
  m1 * 2 ^ Z.max (e1 - 0) 0 < a * 2 ^ Z.max (0 - e1) 0.
Proof.
  intros H12 H2.
  set (l := Z.min (Z.min e1 e2) 0).
  apply (scaled_le m1 m2 e1 e2 l) in H12; [|lia|lia].
  apply (scaled_lt m2 a e2 0 l) in H2; [|lia|lia].
  apply (scaled_lt m1 a e1 0 l); lia.
Qed.

End Scaling.

Section Products.

Lemma mul_finite (sx sy : bool) (mx my : positive) (ex ey : Z) :
  Double.mul (S754_finite sx mx ex) (S754_finite sy my ey) =
  binary_round_aux Double.prec Double.emax (xorb sx sy) (Zpos (mx * my)) (ex + ey) loc_Exact.
Proof. reflexivity. Qed.

Lemma ltb_leb (x y : Double.double) : Double.ltb x y = true -> Double.leb x y = true.
Proof.
  unfold Double.ltb, Double.leb, SFltb, SFleb.
  destruct (SFcompare x y) as [[| |]|]; congruence.
Qed.

(** The sign of a truncated rounding is the sign it was given. *)
Lemma trunc_round_sign (s : bool) (q : positive) (e t : Z) :
  Double.trunc (binary_round_aux Double.prec Double.emax s (Zpos q) e loc_Exact) = Some t ->
  exists t', t = cond_Zopp s t' /\ 0 <= t'.
Proof.
  intros Ht. destruct (binary_round_aux_spec s q e) as (m & Hm & _ & Hm53 & Hr).
  rewrite Hr in Ht.
  assert (0 <= Zpos q / 2 ^ (Z.max e (Z.max (Zpos (digits2_pos q) + e - 53) (-1074)) - e)).
  { apply Z.div_pos; [lia|]. apply Z.pow_pos_nonneg; lia. }
  destruct (trunc_rounded s m (Z.max e (Z.max (Zpos (digits2_pos q) + e - 53) (-1074))))
    as [_ H']; [lia|].
  apply H' in Ht. eexists. split; [exact Ht|]. apply Z.shiftl_nonneg. lia.
Qed.

(** [cycle * fraction] for a fraction in [0.0, 1.0]: the integral part lies
    between zero and the cycle length. *)
Lemma mul_trunc_unit (c : Z) (f : Double.double) :
  Z.abs c <= 2 ^ 31 ->
  Double.is_double f ->
  Double.leb Double.zero f = true -> Double.leb f Double.one = true ->
  exists t, Double.trunc (Double.mul (Double.of_int c) f) = Some t
            /\ Z.abs t <= Z.abs c /\ 0 <= c * t.
Proof.
  intros Hc Hv H0 H1.
  destruct f as [s| s | |s m e];
    [|destruct s; discriminate|discriminate|].
  - (* a zero *)
    exists 0. split; [|lia].
    destruct (Z.eq_dec c 0) as [->|Hne]; [reflexivity|].
    destruct (of_int_finite c Hne) as (mx & sh & _ & _ & ->); [lia|]. reflexivity.
  - destruct s; [discriminate H0|].
    destruct (le_one_inv m e Hv H1) as [He Hm].
    destruct (Z.eq_dec c 0) as [->|Hne]; [exists 0; split; [reflexivity|lia]|].
    destruct (of_int_finite c Hne) as (mx & sh & Hsh & Hmx & ->); [lia|].
    rewrite mul_finite.
    destruct (trunc_round_le (xorb (c <? 0) false) (mx * m) (- sh + e) (Z.abs c))
      as (t & -> & Ht); [lia|lia| |].
    + rewrite Pos2Z.inj_mul, Hmx.
      replace (- (- sh + e)) with (sh + - e) by lia. rewrite Z.pow_add_r by lia.
      assert (0 < 2 ^ sh) by (apply Z.pow_pos_nonneg; lia).
      assert (0 < Z.abs c) by lia. nia.
    + eexists. split; [reflexivity|].
      rewrite xorb_false_r. destruct (Z.ltb_spec c 0); cbn [cond_Zopp]; nia.
Qed.

(** [cycle * fraction] for a fraction of at least 1.0: the integral part,
    when there is one, is at least the cycle length in magnitude. *)
Lemma mul_trunc_above (c t : Z) (f : Double.double) :
  Z.abs c <= 2 ^ 31 ->
  Double.is_double f ->
  Double.leb Double.one f = true ->
  Double.trunc (Double.mul (Double.of_int c) f) = Some t ->
  Z.abs c <= Z.abs t /\ 0 <= c * t.
Proof.
  intros Hc Hv H1 Ht.
  destruct f as [s| s | |s m e]; [discriminate H1| |discriminate H1|].
  - destruct (Z.eq_dec c 0) as [->|Hne]; [discriminate Ht|].
    destruct (of_int_finite c Hne) as (mx & sh & _ & _ & E); [lia|].
    rewrite E in Ht. discriminate Ht.
  - destruct s; [discriminate H1|].
    destruct (ge_one_inv m e Hv H1) as [He Hm].
    destruct (Z.eq_dec c 0) as [->|Hne]; [lia|].
    destruct (of_int_finite c Hne) as (mx & sh & Hsh & Hmx & E); [lia|].
    rewrite E, mul_finite in Ht.
    assert (Hab : 0 < Z.abs c < 2 ^ 53) by lia.
    assert (Hq : Z.abs c * 2 ^ Z.max (- (- sh + e)) 0
                 <= Zpos (mx * m) * 2 ^ Z.max (- sh + e) 0);
      [|destruct (trunc_round_ge _ _ _ _ _ Hab Hq Ht) as (t' & -> & Ht');
        rewrite xorb_false_r; destruct (Z.ltb_spec c 0); cbn [cond_Zopp]; nia].
    rewrite Pos2Z.inj_mul, Hmx.
    assert (Hps : 0 < 2 ^ sh) by (apply Z.pow_pos_nonneg; lia).
    assert (Hac : 0 < Z.abs c) by lia.
    destruct (Z.le_gt_cases (- sh + e) 0) as [Hle|Hgt].
    + rewrite Z.max_l, (Z.max_r (- sh + e)), Z.mul_1_r by lia.
      destruct (Z.le_gt_cases e 0) as [He0|He0].
      * replace (- (- sh + e)) with (sh + - e) by lia. rewrite Z.pow_add_r by lia.
        assert (2 ^ (- e) <= 2 ^ 52) by (apply Z.pow_le_mono_r; lia).
        assert (0 < 2 ^ (- e)) by (apply Z.pow_pos_nonneg; lia). nia.
      * assert (2 ^ (- (- sh + e)) <= 2 ^ sh) by (apply Z.pow_le_mono_r; lia).
        assert (0 < 2 ^ (- (- sh + e))) by (apply Z.pow_pos_nonneg; lia). nia.
    + rewrite Z.max_r, (Z.max_l (- sh + e)), Z.mul_1_r by lia.
      assert (0 < 2 ^ (- sh + e)) by (apply Z.pow_pos_nonneg; lia). nia.
Qed.

(** [cycle * fraction] for a negative fraction: the integral part, when
    there is one, has the opposite sign of the cycle length. *)
Lemma mul_trunc_negative (c t : Z) (f : Double.double) :
  Z.abs c <= 2 ^ 31 ->
  Double.ltb f Double.zero = true ->
  Double.trunc (Double.mul (Double.of_int c) f) = Some t ->
  c * t <= 0.
Proof.
  intros Hc H0 Ht.
  destruct f as [s| s | |s m e]; [discriminate H0| |discriminate H0|].
  - destruct (Z.eq_dec c 0) as [->|Hne]; [discriminate Ht|].
    destruct (of_int_finite c Hne) as (mx & sh & _ & _ & E); [lia|].
    rewrite E in Ht. discriminate Ht.
  - destruct s; [|discriminate H0].
    destruct (Z.eq_dec c 0) as [->|Hne]; [lia|].
    destruct (of_int_finite c Hne) as (mx & sh & Hsh & Hmx & E); [lia|].
    rewrite E, mul_finite in Ht.
    apply trunc_round_sign in Ht as (t' & -> & Ht').
    rewrite xorb_true_r. destruct (Z.ltb_spec c 0); cbn [cond_Zopp negb]; nia.
Qed.

(** No clamping: the integral part of [cycle * fraction] is at least every
    whole number that the exact product reaches, in magnitude. *)
Lemma mul_trunc_follows (c k t : Z) (f : Double.double) :
  0 < c < 2 ^ 31 -> 0 < k ->
  Double.mag_times_geb c f k = true ->
  Double.trunc (Double.mul (Double.of_int c) f) = Some t ->
  Z.abs t < 2 ^ 53 - 1 ->
  k <= Z.abs t.
Proof.
  intros Hc Hk Hge Ht Hb.
  destruct (of_int_finite c ltac:(lia)) as (mx & sh & Hsh & Hmx & E); [lia|].
  rewrite E in Ht. clear E. rewrite Z.abs_eq in Hmx by lia.
  destruct f as [s|s| |s m e]; cbn [Double.mag_times_geb] in Hge;
    [apply Z.leb_le in Hge; lia|discriminate Ht|discriminate Hge|].
  apply Z.leb_le in Hge. rewrite mul_finite in Ht.
  assert (Hq : forall a, 0 < a <= k ->
             a * 2 ^ Z.max (- (- sh + e)) 0 <= Zpos (mx * m) * 2 ^ Z.max (- sh + e) 0).
  { intros a0 Ha.
    pose proof (proj1 (scaled_le k (c * Zpos m) 0 e (Z.min (- sh + e) 0)
                         ltac:(lia) ltac:(lia))) as Hs.
    rewrite Z.sub_0_l, Z.sub_0_r in Hs. specialize (Hs Hge).
    replace (- (- sh + e)) with (0 - (- sh + e)) by lia.
    replace (Z.max (- sh + e) 0) with (Z.max (- sh + e - 0) 0) by (f_equal; lia).
    apply (scaled_le a0 (Zpos (mx * m)) 0 (- sh + e) (Z.min (- sh + e) 0)
             ltac:(lia) ltac:(lia)).
    rewrite Pos2Z.inj_mul, Hmx.
    set (l := Z.min (- sh + e) 0) in *.
    rewrite (pow2_split (e - l) sh) in Hs by lia.
    replace (e - l - sh) with (- sh + e - l) in Hs by lia.
    pose proof (pow2_pos (0 - l) ltac:(lia)). nia. }
  destruct (Z.lt_ge_cases k (2 ^ 53)) as [Hlt|Hbig].
  - destruct (trunc_round_ge _ _ _ k _ ltac:(lia) (Hq k ltac:(lia)) Ht) as (t' & -> & Ht').
    destruct (xorb _ _); cbn [cond_Zopp]; lia.
  - exfalso.
    destruct (trunc_round_ge _ _ _ (2 ^ 53 - 1) _ ltac:(lia) (Hq (2 ^ 53 - 1) ltac:(lia)) Ht)
      as (t' & -> & Ht').
    destruct (xorb _ _); cbn [cond_Zopp] in Hb; lia.
Qed.

End Products.

(** ** Running the functions *)

Section Monad.

Lemma bind_ret {A B} (m : M A) (k : A -> M B) (w w' : World) (a : A) :
  m w = Ret a w' -> (m ≫= k) w = k a w'.
Proof. intros H. unfold mbind, M_bind. rewrite H. reflexivity. Qed.

Lemma load_run (a : positive) (s : PWM) (w : World) :
  heap w !! a = Some s -> load (Addr a) w = Ret s w.
Proof. intros H. unfold load, get, mbind, M_bind, lift. rewrite H. reflexivity. Qed.

Lemma store_run (a : positive) (s : PWM) (f : PWM -> PWM) (w : World) :
  heap w !! a = Some s ->
  store (Addr a) f w = Ret tt (with_heap (<[a := f s]> (heap w)) w).
Proof.
  intros H. unfold store. rewrite (bind_ret _ _ _ _ _ (load_run a s w H)). reflexivity.
Qed.

Lemma heap_with_heap (h : gmap positive PWM) (w : World) : heap (with_heap h w) = h.
Proof. reflexivity. Qed.

Lemma with_heap_twice (h h' : gmap positive PWM) (w : World) :
  with_heap h (with_heap h' w) = with_heap h w.
Proof. reflexivity. Qed.

Lemma bind_unfold {A B} (m : M A) (k : A -> M B) (w : World) :
  (m ≫= k) w = match m w with Ret a w' => k a w' | Crash f => Crash f end.
Proof. reflexivity. Qed.

Lemma bind_assoc {A B C} (m : M A) (f : A -> M B) (g : B -> M C) (w : World) :
  ((m ≫= f) ≫= g) w = (m ≫= fun x => f x ≫= g) w.
Proof. rewrite !bind_unfold. destruct (m w); reflexivity. Qed.

Lemma bind_ext {A B} (m : M A) (f g : A -> M B) (w : World) :
  (forall x w', f x w' = g x w') -> (m ≫= f) w = (m ≫= g) w.
Proof. intros H. rewrite !bind_unfold. destruct (m w); auto. Qed.

End Monad.

(** One more statement of a body: a store to the instance just written, or
    to the instance that hypothesis [H] finds in the heap. *)
Ltac run_store :=
  rewrite bind_unfold;
  (erewrite store_run by (cbn; apply lookup_insert_eq));
  cbv beta iota.
Ltac run_store_at H :=
  rewrite bind_unfold;
  (erewrite store_run by (cbn; exact H));
  cbv beta iota.

Section Runs.

Lemma pwm_write_to_file_run (filename text : string) (w : World) :
  pwm_write_to_file filename text w =
  match k_fopen_w (kernel w) filename with
  | SysOk _ => Ret 0 (log [EvFile filename text] w)
  | SysErr e => Ret (-1) (with_errno e w)
  end.
Proof.
  unfold pwm_write_to_file, sys_fopen_w, mbind, M_bind.
  destruct (k_fopen_w (kernel w) filename); reflexivity.
Qed.

Lemma pwm_setup_pin_run (a : positive) (s : PWM) (w : World) :
  heap w !! a = Some s ->
  pwm_setup_pin (Addr a) w =
  match k_fopen_w (kernel w) gpio_export with
  | SysErr e => Ret (-1) (with_errno e w)
  | SysOk _ =>
      Ret 0 (after_setup a s w)
  end.
Proof.
  intros H. unfold pwm_setup_pin.
  rewrite bind_unfold. cbn [assert_nonnull]. unfold mret at 1, M_ret at 1. 
  rewrite bind_unfold, (load_run a s w H).
  rewrite bind_unfold, pwm_write_to_file_run.
  destruct (k_fopen_w (kernel w) gpio_export) as [u|e]; [|reflexivity].
  cbn [Z.eqb].
  set (w1 := log [EvFile gpio_export (CInt.dec (pin s))] w).
  rewrite bind_unfold, pwm_write_to_file_run.
  unfold after_setup, after_direction, after_open, opened_fd. fold w1.
  destruct (k_fopen_w (kernel w1) (gpio_attr (pin s) "direction")) as [u'|e'];
    rewrite bind_unfold; unfold sys_open_wr at 1;
    cbn [kernel with_errno log];
    destruct (k_open_wr _ (gpio_attr (pin s) "value")) as [fd|e];
    cbv beta iota;
    rewrite bind_unfold;
    (erewrite store_run by (cbn; exact H)); cbv beta iota;
    rewrite bind_unfold;
    (erewrite load_run by (cbn; apply lookup_insert_eq)); cbv beta iota;
    cbn; try destruct (0 <=? Z.of_N fd); reflexivity.
Qed.

Lemma after_setup_heap (a : positive) (s : PWM) (w : World) :
  heap (after_setup a s w) =
  <[a := set_f_value (opened_fd (pin s) w) s]> (heap w).
Proof.
  unfold after_setup, after_open, opened_fd, poke, after_direction.
  destruct (k_fopen_w _ (gpio_attr _ "direction")); cbn;
    destruct (k_open_wr _ _); reflexivity.
Qed.

Lemma after_setup_kernel (a : positive) (s : PWM) (w : World) :
  kernel (after_setup a s w) = kernel w.
Proof.
  unfold after_setup, after_open, opened_fd, poke, after_direction.
  destruct (k_fopen_w _ (gpio_attr _ "direction")); cbn;
    destruct (k_open_wr _ _); reflexivity.
Qed.

Lemma pwm_start_run (a : positive) (s : PWM) (cycle : Z) (error : bool) (w : World) :
  heap w !! a = Some s ->
  pwm_start (Addr a) cycle error w =
  match k_fopen_w (kernel w) gpio_export with
  | SysErr e =>
      Ret (FALSE,
           if error
           then Some ("Can't set up pin: " +:+ k_strerror (kernel w) e)%string
           else None)
          (with_errno e w)
  | SysOk _ =>
      match k_thread (kernel w) with
      | SysOk tid =>
          Ret (TRUE, None)
            (poke a (started_instance tid cycle (set_f_value (opened_fd (pin s) w) s))
               (log [EvThread tid (Addr a); EvDetach tid] (after_setup a s w)))
      | SysErr _ =>
          Ret (TRUE, None)
            (poke a (started_instance (k_stack (kernel w)) cycle
                       (set_f_value (opened_fd (pin s) w) s))
               (log [EvDetach (k_stack (kernel w))] (after_setup a s w)))
      end
  end.
Proof.
  intros H. unfold pwm_start.
  rewrite bind_unfold. cbn [assert_nonnull]. unfold mret at 1, M_ret at 1.
  rewrite bind_unfold, (pwm_setup_pin_run a s w H).
  destruct (k_fopen_w (kernel w) gpio_export) as [u|e].
  2:{ cbn [Z.eqb]. destruct error; reflexivity. }
  cbn [Z.eqb].
  pose proof (after_setup_heap a s w) as Hh.
  pose proof (after_setup_kernel a s w) as Hk.
  set (w1 := after_setup a s w) in *.
  set (s1 := set_f_value (opened_fd (pin s) w) s) in *.
  assert (H1 : heap w1 !! a = Some s1) by (rewrite Hh; apply lookup_insert_eq).
  run_store_at H1. run_store. run_store. run_store.
  rewrite bind_unfold. unfold sys_pthread_create at 1. cbn [kernel with_heap].
  rewrite Hk. destruct (k_thread (kernel w)) as [tid|e];
    cbv beta iota; rewrite bind_unfold; unfold emit at 1, modify at 1; cbv beta iota;
    run_store;
    unfold mret, M_ret, poke, started_instance;
    cbn [heap with_heap log kernel errno fds trace];
    rewrite !insert_insert_eq; unfold with_heap, log;
    cbn [kernel heap errno fds trace]; rewrite <- ?app_assoc; reflexivity.
Qed.

Lemma pwm_set_duty_run (w : World) (a : positive) (s : PWM) (duty : Double.double) :
  heap w !! a = Some s ->
  pwm_set_duty (Addr a) duty w =
    match Double.to_int (Double.mul (Double.of_int (cycle_usec s)) duty) with
    | Some on =>
        match CInt.sub (cycle_usec s) on with
        | Some off => Ret tt (with_heap (<[a := set_intervals on off s]> (heap w)) w)
        | None => Crash Undefined
        end
    | None => Crash Undefined
    end.
Proof.
  intros H. unfold pwm_set_duty.
  rewrite (bind_ret _ _ w w tt) by reflexivity.
  rewrite (bind_ret _ _ _ _ _ (load_run a s w H)).
  destruct (Double.to_int _) as [on|]; [|reflexivity].
  rewrite (bind_ret _ _ w w on) by reflexivity.
  rewrite (bind_ret _ _ _ _ _ (load_run a s w H)).
  destruct (CInt.sub _ _) as [off|]; [|reflexivity].
  rewrite (bind_ret _ _ w w off) by reflexivity.
  rewrite (bind_ret _ _ _ _ _ (store_run a s _ w H)).
  rewrite (store_run a (set_on_usec on s)) by (rewrite heap_with_heap; apply lookup_insert_eq).
  rewrite heap_with_heap, with_heap_twice, insert_insert_eq. reflexivity.
Qed.

End Runs.

Section Threads.

Lemma pwm_set_pin_run (a : positive) (s : PWM) (value : Z) (w : World) :
  heap w !! a = Some s ->
  pwm_set_pin (Addr a) value w = Ret 0 (log (call_events s w (SetPin value)) w).
Proof.
  intros H. unfold pwm_set_pin.
  rewrite bind_unfold. cbn [assert_nonnull]. unfold mret at 1, M_ret at 1.
  rewrite bind_unfold, (load_run a s w H). reflexivity.
Qed.

Lemma loop_thread_step_run (a : positive) (s : PWM) (pc : loop_pc) (w : World) :
  heap w !! a = Some s ->
  loop_thread_step (Addr a) pc w =
  Ret (fst (pwm_loop_step pc s))
      match snd (pwm_loop_step pc s) with
      | Some c => log (call_events s w c) w
      | None => w
      end.
Proof.
  intros H. unfold loop_thread_step.
  rewrite bind_unfold, (load_run a s w H).
  destruct (pwm_loop_step pc s) as [pc' [[v|n]|]]; cbn [fst snd]; rewrite bind_unfold.
  - unfold do_call. rewrite bind_unfold, (pwm_set_pin_run a s v w H). reflexivity.
  - reflexivity.
  - reflexivity.
Qed.

Lemma pwm_stop_step_run (a : positive) (s : PWM) (pc : stop_pc) (w : World) :
  heap w !! a = Some s ->
  pwm_stop_step (Addr a) pc w =
  match pc with
  | AtRaise => Ret AtUnexport (poke a (set_stop TRUE s) w)
  | AtUnexport => Ret AtClose (after_unexport (pin s) w)
  | AtClose => Ret AtClear (after_close (f_value s) w)
  | AtClear => Ret Stopped (poke a (set_f_value (-1) s) w)
  | Stopped => Ret Stopped w
  end.
Proof.
  intros H. destruct pc; cbn [pwm_stop_step].
  - rewrite bind_unfold. cbn [assert_nonnull]. unfold mret at 1, M_ret at 1.
    rewrite bind_unfold, (store_run a s _ w H). reflexivity.
  - rewrite bind_unfold. cbn [assert_nonnull]. unfold mret at 1, M_ret at 1.
    rewrite bind_unfold, (load_run a s w H).
    rewrite bind_unfold, pwm_write_to_file_run. unfold after_unexport.
    destruct (k_fopen_w _ _); reflexivity.
  - rewrite bind_unfold, (load_run a s w H). rewrite bind_unfold.
    unfold after_close. destruct (0 <=? f_value s); reflexivity.
  - rewrite bind_unfold, (store_run a s _ w H). reflexivity.
  - reflexivity.
Qed.

Lemma heap_after_unexport (pin : Z) (w : World) : heap (after_unexport pin w) = heap w.
Proof. unfold after_unexport. destruct (k_fopen_w _ _); reflexivity. Qed.

Lemma heap_after_close (fd : Z) (w : World) : heap (after_close fd w) = heap w.
Proof. unfold after_close. destruct (0 <=? fd); reflexivity. Qed.

(** [pwm_unsetup_pin] and what it returns. *)
Lemma pwm_unsetup_pin_result (a : positive) (s : PWM) (w : World) :
  heap w !! a = Some s ->
  pwm_unsetup_pin (Addr a) w =
  Ret (match k_fopen_w (kernel w) gpio_unexport with SysOk _ => 0 | SysErr _ => -1 end)
      (poke a (set_f_value (-1) s) (after_close (f_value s) (after_unexport (pin s) w))).
Proof.
  intros H. unfold pwm_unsetup_pin.
  rewrite bind_unfold. cbn [assert_nonnull]. unfold mret at 1, M_ret at 1.
  rewrite bind_unfold, (load_run a s w H).
  rewrite bind_unfold, pwm_write_to_file_run.
  assert (H1 : heap (after_unexport (pin s) w) !! a = Some s)
    by (rewrite heap_after_unexport; exact H).
  assert (H2 : heap (after_close (f_value s) (after_unexport (pin s) w)) !! a = Some s)
    by (rewrite heap_after_close; exact H1).
  unfold after_unexport in *.
  destruct (k_fopen_w (kernel w) gpio_unexport) as [u|e];
    rewrite bind_unfold; (erewrite load_run by exact H1);
    rewrite bind_unfold; unfold after_close in *;
    destruct (0 <=? f_value s);
    cbv beta iota; unfold sys_close, modify, mret at 1, M_ret at 1;
    rewrite bind_unfold; (erewrite store_run by exact H2); reflexivity.
Qed.

Lemma pwm_unsetup_pin_run (a : positive) (s : PWM) (w : World) :
  heap w !! a = Some s ->
  exists r, pwm_unsetup_pin (Addr a) w =
            Ret r (poke a (set_f_value (-1) s)
                     (after_close (f_value s) (after_unexport (pin s) w))).
Proof. intros H. eexists. exact (pwm_unsetup_pin_result a s w H). Qed.

Lemma pwm_stop_run (a : positive) (s : PWM) (w : World) :
  heap w !! a = Some s -> pwm_stop (Addr a) w = Ret tt (after_stop a s w).
Proof.
  intros H. unfold pwm_stop.
  rewrite bind_unfold. cbn [assert_nonnull]. unfold mret at 1, M_ret at 1.
  rewrite bind_unfold, (store_run a s _ w H).
  destruct (pwm_unsetup_pin_run a (set_stop TRUE s) (poke a (set_stop TRUE s) w))
    as [r Hr]; [apply lookup_insert_eq|].
  rewrite bind_unfold. fold (poke a (set_stop TRUE s) w). rewrite Hr. reflexivity.
Qed.

(** [pwm_stop] is its four statements in sequence. *)
Lemma pwm_stop_steps (a : positive) (s : PWM) (w : World) :
  heap w !! a = Some s ->
  pwm_stop (Addr a) w =
  (pwm_stop_step (Addr a) AtRaise ≫= fun _ =>
   pwm_stop_step (Addr a) AtUnexport ≫= fun _ =>
   pwm_stop_step (Addr a) AtClose ≫= fun _ =>
   pwm_stop_step (Addr a) AtClear ≫= fun _ => mret tt) w.
Proof.
  intros H. rewrite (pwm_stop_run a s w H).
  rewrite bind_unfold, (pwm_stop_step_run a s AtRaise w H).
  set (s1 := set_stop TRUE s). set (w1 := poke a s1 w).
  assert (H1 : heap w1 !! a = Some s1) by apply lookup_insert_eq.
  rewrite bind_unfold, (pwm_stop_step_run a s1 AtUnexport w1 H1).
  assert (H2 : heap (after_unexport (pin s1) w1) !! a = Some s1)
    by (rewrite heap_after_unexport; exact H1).
  rewrite bind_unfold, (pwm_stop_step_run a s1 AtClose _ H2).
  assert (H3 : heap (after_close (f_value s1) (after_unexport (pin s1) w1)) !! a = Some s1)
    by (rewrite heap_after_close; exact H2).
  rewrite bind_unfold, (pwm_stop_step_run a s1 AtClear _ H3).
  reflexivity.
Qed.

End Threads.

(** ** The loop against [pwm_stop] *)

Section Traces.

Lemma writes_app (t u : list event) : writes (t ++ u) = (writes t + writes u)%nat.
Proof. unfold writes. rewrite List.filter_app, length_app. reflexivity. Qed.

Lemma late_writes_app (r : bool) (t u : list event) :
  late_writes r (t ++ u) =
  (late_writes r t + late_writes (r || existsb is_close t) u)%nat.
Proof.
  revert r. induction t as [|e t IH]; intros r; cbn [late_writes existsb app].
  - rewrite orb_false_r. reflexivity.
  - rewrite IH, orb_assoc. lia.
Qed.

Lemma late_writes_le (r : bool) (t : list event) : (late_writes r t <= writes t)%nat.
Proof.
  revert r. induction t as [|e t IH]; intros r; [reflexivity|].
  cbn [late_writes]. specialize (IH (r || is_close e)).
  unfold writes in *. cbn [List.filter].
  destruct (is_write e), r; cbn [andb length]; lia.
Qed.

Lemma late_writes_unreleased (t : list event) :
  existsb is_close t = false -> late_writes false t = 0%nat.
Proof.
  induction t as [|e t IH]; [reflexivity|].
  cbn [existsb late_writes andb orb]. intros H.
  apply orb_false_iff in H as [-> H]. exact (IH H).
Qed.

Lemma call_events_writes (s : PWM) (w : World) (c : call) :
  writes (call_events s w c) = call_writes (Some c).
Proof. destruct c; reflexivity. Qed.

Lemma call_events_no_close (s : PWM) (w : World) (c : call) :
  existsb is_close (call_events s w c) = false.
Proof. destruct c; reflexivity. Qed.

End Traces.

Section StopRaised.

(** With the stop flag up, every step of the loop uses up its budget. *)
Lemma loop_step_budget (pc : loop_pc) (s : PWM) :
  stop s = true ->
  (call_writes (snd (pwm_loop_step pc s)) + write_budget (fst (pwm_loop_step pc s))
   <= write_budget pc)%nat.
Proof.
  intros Hs. destruct pc; cbn [pwm_loop_step]; rewrite ?Hs;
    try destruct (on_usec s =? 0); try destruct (off_usec s =? 0); cbn; lia.
Qed.

Lemma loop_step_progress (pc : loop_pc) (s : PWM) :
  stop s = true ->
  steps_left (fst (pwm_loop_step pc s)) = 0%nat
  \/ (steps_left (fst (pwm_loop_step pc s)) < steps_left pc)%nat.
Proof.
  intros Hs. destruct pc; cbn [pwm_loop_step]; rewrite ?Hs;
    try destruct (on_usec s =? 0); try destruct (off_usec s =? 0); cbn; lia.
Qed.

Lemma steps_left_0 (pc : loop_pc) : steps_left pc = 0%nat -> pc = Returned.
Proof. destruct pc; cbn; congruence. Qed.

End StopRaised.

Section Interleavings.

Variable a : positive.

(** What one step of either thread does, the instance being [s]. *)
Lemma sys_step_loop (σ : Sys) (s : PWM) :
  heap (sys_world σ) !! a = Some s ->
  sys_step (Addr a) Loop σ =
  Some (mkSys
          match snd (pwm_loop_step (loop_at σ) s) with
          | Some c => log (call_events s (sys_world σ) c) (sys_world σ)
          | None => sys_world σ
          end
          (fst (pwm_loop_step (loop_at σ) s)) (stop_at σ)).
Proof. intros H. unfold sys_step. rewrite (loop_thread_step_run a s _ _ H). reflexivity. Qed.

Lemma sys_step_caller (σ : Sys) (s : PWM) :
  heap (sys_world σ) !! a = Some s ->
  sys_step (Addr a) Caller σ =
  Some match stop_at σ with
       | AtRaise => mkSys (poke a (set_stop TRUE s) (sys_world σ)) (loop_at σ) AtUnexport
       | AtUnexport => mkSys (after_unexport (pin s) (sys_world σ)) (loop_at σ) AtClose
       | AtClose => mkSys (after_close (f_value s) (sys_world σ)) (loop_at σ) AtClear
       | AtClear => mkSys (poke a (set_f_value (-1) s) (sys_world σ)) (loop_at σ) Stopped
       | Stopped => mkSys (sys_world σ) (loop_at σ) Stopped
       end.
Proof.
  intros H. unfold sys_step. rewrite (pwm_stop_step_run a s _ _ H).
  destruct (stop_at σ); reflexivity.
Qed.

Lemma trace_after_unexport (pin : Z) (w : World) :
  exists evs, trace (after_unexport pin w) = trace w ++ evs /\ writes evs = 0%nat.
Proof.
  unfold after_unexport. destruct (k_fopen_w _ _).
  - eexists. split; reflexivity.
  - exists []. cbn. rewrite app_nil_r. auto.
Qed.

Lemma trace_after_close (fd : Z) (w : World) :
  exists evs, trace (after_close fd w) = trace w ++ evs /\ writes evs = 0%nat.
Proof.
  unfold after_close. destruct (0 <=? fd).
  - eexists. split; reflexivity.
  - exists []. rewrite app_nil_r. auto.
Qed.

Lemma write_budget_le (pc : loop_pc) : (write_budget pc <= 1)%nat.
Proof. destruct pc; cbn; lia. Qed.

Lemma step_raised (t : thread) (σ σ' : Sys) :
  raised a σ -> sys_step (Addr a) t σ = Some σ' ->
  raised a σ'
  /\ (writes (trace (sys_world σ')) + write_budget (loop_at σ')
      <= writes (trace (sys_world σ)) + write_budget (loop_at σ))%nat
  /\ (steps_left (loop_at σ')
      <= steps_left (loop_at σ) - (if is_loop t then 1 else 0))%nat.
Proof.
  intros (s & Hs & Hstop) Hstep. destruct t.
  - rewrite (sys_step_loop σ s Hs) in Hstep. injection Hstep as <-.
    unfold raised. cbn [sys_world loop_at is_loop].
    pose proof (loop_step_budget (loop_at σ) s Hstop) as Hb.
    pose proof (loop_step_progress (loop_at σ) s Hstop) as Hp.
    destruct (pwm_loop_step (loop_at σ) s) as [pc' [c|]]; cbn [fst snd] in *.
    + split; [exists s; auto|]. cbn [log trace].
      rewrite writes_app, call_events_writes. lia.
    + split; [exists s; auto|]. lia.
  - rewrite (sys_step_caller σ s Hs) in Hstep. injection Hstep as <-.
    cbn [is_loop]. rewrite Nat.sub_0_r. unfold raised.
    destruct (stop_at σ); cbn [sys_world loop_at].
    + split; [exists (set_stop TRUE s); split; [apply lookup_insert_eq|reflexivity]|].
      cbn [poke with_heap trace]. lia.
    + split; [exists s; rewrite heap_after_unexport; auto|].
      destruct (trace_after_unexport (pin s) (sys_world σ)) as (evs & -> & Hev).
      rewrite writes_app. lia.
    + split; [exists s; rewrite heap_after_close; auto|].
      destruct (trace_after_close (f_value s) (sys_world σ)) as (evs & -> & Hev).
      rewrite writes_app. lia.
    + split; [exists (set_f_value (-1) s); split; [apply lookup_insert_eq|exact Hstop]|].
      cbn [poke with_heap trace]. lia.
    + split; [exists s; auto|]. lia.
Qed.

Lemma run_raised (sched : list thread) (σ σ' : Sys) :
  raised a σ -> sys_run (Addr a) sched σ = Some σ' ->
  raised a σ'
  /\ (writes (trace (sys_world σ')) + write_budget (loop_at σ')
      <= writes (trace (sys_world σ)) + write_budget (loop_at σ))%nat
  /\ (steps_left (loop_at σ') <= steps_left (loop_at σ) - loop_steps sched)%nat.
Proof.
  revert σ. induction sched as [|t sched IH]; intros σ Hr Hrun; cbn [sys_run] in Hrun.
  - injection Hrun as <-. split; [exact Hr|]. cbn. lia.
  - destruct (sys_step (Addr a) t σ) as [σ1|] eqn:E; [|discriminate Hrun].
    destruct (step_raised t σ σ1 Hr E) as (Hr1 & Hw1 & Hs1).
    destruct (IH σ1 Hr1 Hrun) as (Hr' & Hw' & Hs').
    split; [exact Hr'|]. split; [lia|].
    unfold loop_steps in *. cbn [List.filter]. destruct (is_loop t); cbn [length]; lia.
Qed.

Lemma late_writes_snoc (t evs : list event) :
  (late_writes false (t ++ evs) <= late_writes false t + writes evs)%nat.
Proof. rewrite late_writes_app. pose proof (late_writes_le (false || existsb is_close t) evs). lia. Qed.

Lemma step_stop_inv (t : thread) (σ σ' : Sys) :
  stop_inv a σ -> sys_step (Addr a) t σ = Some σ' -> stop_inv a σ'.
Proof.
  intros (s & Hs & Hinv) Hstep. destruct t.
  - rewrite (sys_step_loop σ s Hs) in Hstep. injection Hstep as <-.
    unfold stop_inv. cbn [sys_world loop_at stop_at].
    exists s. split; [destruct (snd _); [exact Hs|exact Hs]|].
    assert (Htr : exists evs,
               trace match snd (pwm_loop_step (loop_at σ) s) with
                     | Some c => log (call_events s (sys_world σ) c) (sys_world σ)
                     | None => sys_world σ
                     end = trace (sys_world σ) ++ evs
               /\ existsb is_close evs = false
               /\ writes evs = call_writes (snd (pwm_loop_step (loop_at σ) s))).
    { destruct (snd _) as [c|].
      - eexists. split; [reflexivity|]. split; [apply call_events_no_close|apply call_events_writes].
      - exists []. rewrite app_nil_r. auto. }
    destruct Htr as (evs & -> & Hnc & Hw).
    destruct (stop_at σ).
    + rewrite existsb_app, Hinv, Hnc. reflexivity.
    + destruct Hinv as [Hstop Hl]. split; [exact Hstop|].
      pose proof (loop_step_budget (loop_at σ) s Hstop).
      pose proof (late_writes_snoc (trace (sys_world σ)) evs). lia.
    + destruct Hinv as [Hstop Hl]. split; [exact Hstop|].
      pose proof (loop_step_budget (loop_at σ) s Hstop).
      pose proof (late_writes_snoc (trace (sys_world σ)) evs). lia.
    + destruct Hinv as [Hstop Hl]. split; [exact Hstop|].
      pose proof (loop_step_budget (loop_at σ) s Hstop).
      pose proof (late_writes_snoc (trace (sys_world σ)) evs). lia.
    + destruct Hinv as [Hstop Hl]. split; [exact Hstop|].
      pose proof (loop_step_budget (loop_at σ) s Hstop).
      pose proof (late_writes_snoc (trace (sys_world σ)) evs). lia.
  - rewrite (sys_step_caller σ s Hs) in Hstep. injection Hstep as <-.
    unfold stop_inv. destruct (stop_at σ); cbn [sys_world loop_at stop_at].
    + exists (set_stop TRUE s). split; [apply lookup_insert_eq|]. split; [reflexivity|].
      cbn [poke with_heap trace]. rewrite (late_writes_unreleased _ Hinv).
      pose proof (write_budget_le (loop_at σ)). lia.
    + destruct Hinv as [Hstop Hl].
      exists s. split; [rewrite heap_after_unexport; exact Hs|]. split; [exact Hstop|].
      destruct (trace_after_unexport (pin s) (sys_world σ)) as (evs & -> & Hev).
      pose proof (late_writes_snoc (trace (sys_world σ)) evs). lia.
    + destruct Hinv as [Hstop Hl].
      exists s. split; [rewrite heap_after_close; exact Hs|]. split; [exact Hstop|].
      destruct (trace_after_close (f_value s) (sys_world σ)) as (evs & -> & Hev).
      pose proof (late_writes_snoc (trace (sys_world σ)) evs). lia.
    + destruct Hinv as [Hstop Hl].
      exists (set_f_value (-1) s). split; [apply lookup_insert_eq|]. split; [exact Hstop|exact Hl].
    + exists s. split; [exact Hs|exact Hinv].
Qed.

Lemma run_stop_inv (sched : list thread) (σ σ' : Sys) :
  stop_inv a σ -> sys_run (Addr a) sched σ = Some σ' -> stop_inv a σ'.
Proof.
  revert σ. induction sched as [|t sched IH]; intros σ Hi Hrun; cbn [sys_run] in Hrun.
  - injection Hrun as <-. exact Hi.
  - destruct (sys_step (Addr a) t σ) as [σ1|] eqn:E; [|discriminate Hrun].
    exact (IH σ1 (step_stop_inv t σ σ1 Hi E) Hrun).
Qed.

Lemma stop_inv_late (σ : Sys) :
  stop_inv a σ -> (late_writes false (trace (sys_world σ)) <= 1)%nat.
Proof.
  intros (s & _ & H). destruct (stop_at σ); try lia.
  rewrite (late_writes_unreleased _ H). lia.
Qed.

End Interleavings.

(** ** The console *)

Section Console.

Lemma main_loop_eq (pwm : ptr) (val : Double.double) (input : list (option Double.double)) :
  main_loop pwm val input =
  if Double.ltb Double.zero val
  then
    match input with
    | [] => crash Hangs
    | r :: input' =>
        emit EvPrompt;;
        let val := match r with Some v => v | None => val end in
        (if Double.ltb Double.zero val
         then pwm_set_duty pwm val;; emit (EvSetting val)
         else mret tt);;
        main_loop pwm val input'
    end
  else mret tt.
Proof. destruct input; reflexivity. Qed.

(** Every value above 0.0 goes to [pwm_set_duty] as it is; the first value
    that is not above 0.0 ends the loop. *)
Lemma main_loop_forwards (pwm : ptr) (vs : list Double.double) (v val : Double.double)
    (rest : list (option Double.double)) (w : World) :
  Double.ltb Double.zero val = true ->
  Forall (fun x => Double.ltb Double.zero x = true) vs ->
  Double.ltb Double.zero v = false ->
  main_loop pwm val (map Some vs ++ Some v :: rest) w
  = (forward pwm vs;; emit EvPrompt) w.
Proof.
  intros Hval Hvs Hv. revert val Hval w.
  induction Hvs as [|x vs Hx Hvs IH]; intros val Hval w.
  - cbn [map app forward]. rewrite main_loop_eq, Hval. cbv zeta. rewrite Hv.
    rewrite !bind_unfold. cbn [emit modify]. unfold emit, modify.
    rewrite main_loop_eq, Hv. reflexivity.
  - cbn [map app forward]. rewrite main_loop_eq, Hval. cbv zeta. rewrite Hx.
    rewrite (bind_assoc (emit EvPrompt)). apply bind_ext. intros _ w1.
    rewrite !(bind_assoc (pwm_set_duty pwm x)). apply bind_ext. intros _ w2.
    rewrite (bind_assoc (emit (EvSetting x))). apply bind_ext. intros _ w3.
    apply IH. exact Hx.
Qed.

End Console.

Section NothingFreed.

Lemma keeps_ret {A} (x : A) : keeps_heap (mret x : M A).
Proof. intros w y w' H. injection H as _ <-. reflexivity. Qed.

Lemma keeps_crash {A} (f : fault) : keeps_heap (crash f : M A).
Proof. intros w y w' H. discriminate H. Qed.

Lemma keeps_bind {A B} (m : M A) (k : A -> M B) :
  keeps_heap m -> (forall x, keeps_heap (k x)) -> keeps_heap (m ≫= k).
Proof.
  intros Hm Hk w y w' H. rewrite bind_unfold in H.
  destruct (m w) as [x w1|] eqn:E; [|discriminate H].
  etransitivity; [exact (Hm _ _ _ E)|exact (Hk _ _ _ _ H)].
Qed.

Lemma keeps_modify (f : World -> World) :
  (forall w, dom (heap w) ⊆ dom (heap (f w))) -> keeps_heap (modify f).
Proof. intros Hf w y w' H. inversion H; subst. apply Hf. Qed.

Lemma keeps_get : keeps_heap get.
Proof. intros w y w' H. injection H as _ <-. reflexivity. Qed.

Lemma keeps_emit (e : event) : keeps_heap (emit e).
Proof. apply keeps_modify. reflexivity. Qed.

Lemma keeps_lift {A} (o : option A) : keeps_heap (lift o).
Proof. destruct o; [apply keeps_ret|apply keeps_crash]. Qed.

Lemma keeps_assert (self : ptr) : keeps_heap (assert_nonnull self).
Proof. destruct self; [apply keeps_crash|apply keeps_ret]. Qed.

Lemma keeps_load (self : ptr) : keeps_heap (load self).
Proof.
  destruct self as [|a]; [apply keeps_crash|].
  apply keeps_bind; [apply keeps_get|]. intros w. apply keeps_lift.
Qed.

Lemma keeps_store (self : ptr) (f : PWM -> PWM) : keeps_heap (store self f).
Proof.
  destruct self as [|a]; (apply keeps_bind; [apply keeps_load|]); intros s.
  - apply keeps_crash.
  - apply keeps_modify. intros w. cbn [heap with_heap]. rewrite dom_insert. set_solver.
Qed.

Lemma keeps_fopen (f : string) : keeps_heap (sys_fopen_w f).
Proof.
  intros w y w' H. unfold sys_fopen_w in H.
  destruct (k_fopen_w _ _); injection H as _ <-; reflexivity.
Qed.

Lemma keeps_open (f : string) : keeps_heap (sys_open_wr f).
Proof.
  intros w y w' H. unfold sys_open_wr in H.
  destruct (k_open_wr _ _); injection H as _ <-; reflexivity.
Qed.

Lemma keeps_thread (arg : ptr) : keeps_heap (sys_pthread_create arg).
Proof.
  intros w y w' H. unfold sys_pthread_create in H.
  destruct (k_thread _); injection H as _ <-; reflexivity.
Qed.

Lemma keeps_close (fd : Z) : keeps_heap (sys_close fd).
Proof. apply keeps_modify. reflexivity. Qed.

Create HintDb keeps.

#[local] Hint Resolve keeps_ret keeps_crash keeps_get keeps_emit keeps_lift keeps_assert
  keeps_load keeps_store keeps_fopen keeps_open keeps_thread keeps_close : keeps.

(** Goes through a body statement by statement. *)
Ltac keeps :=
  repeat first
    [ solve [auto with keeps]
    | apply keeps_bind; [|intros ?]
    | match goal with
      | |- keeps_heap (if ?b then _ else _) => destruct b
      | |- keeps_heap (match ?x with _ => _ end) => destruct x
      end ].

Lemma keeps_write_to_file (f t : string) : keeps_heap (pwm_write_to_file f t).
Proof. unfold pwm_write_to_file. keeps. Qed.

#[local] Hint Resolve keeps_write_to_file : keeps.

Lemma keeps_setup_pin (self : ptr) : keeps_heap (pwm_setup_pin self).
Proof. unfold pwm_setup_pin. keeps. Qed.

Lemma keeps_unsetup_pin (self : ptr) : keeps_heap (pwm_unsetup_pin self).
Proof. unfold pwm_unsetup_pin. keeps. Qed.

#[local] Hint Resolve keeps_setup_pin keeps_unsetup_pin : keeps.

Lemma keeps_set_duty (self : ptr) (duty : Double.double) :
  keeps_heap (pwm_set_duty self duty).
Proof. unfold pwm_set_duty. keeps. Qed.

Lemma keeps_start (self : ptr) (cycle : Z) (error : bool) :
  keeps_heap (pwm_start self cycle error).
Proof. unfold pwm_start. keeps. Qed.

Lemma keeps_stop (self : ptr) : keeps_heap (pwm_stop self).
Proof. unfold pwm_stop. keeps. Qed.

#[local] Hint Resolve keeps_set_duty keeps_start keeps_stop : keeps.

Lemma keeps_main_loop (pwm : ptr) (val : Double.double)
    (input : list (option Double.double)) :
  keeps_heap (main_loop pwm val input).
Proof.
  revert val. induction input as [|r input IH]; intros val; rewrite main_loop_eq;
    (destruct (Double.ltb Double.zero val); [|apply keeps_ret]).
  - apply keeps_crash.
  - apply keeps_bind; [apply keeps_emit|]. intros _. cbv zeta.
    apply keeps_bind; [|intros _; apply IH]. keeps.
Qed.

(** The block [pwm_create] returns was not there before. *)
Lemma pwm_create_fresh (pin : Z) (w w' : World) (p : ptr) :
  pwm_create pin w = Ret p w' ->
  exists a, p = Addr a /\ heap w !! a = None /\ is_Some (heap w' !! a).
Proof.
  unfold pwm_create. rewrite bind_unfold. unfold sys_malloc.
  destruct (k_malloc (kernel w)); [|discriminate].
  set (a := fresh (dom (heap w))). cbv beta iota.
  assert (Hfresh : heap w !! a = None) by (apply not_elem_of_dom, is_fresh).
  run_store. run_store. run_store.
  intros H. injection H as <- <-. exists a. split; [reflexivity|]. split; [exact Hfresh|].
  cbn [heap with_heap]. rewrite lookup_insert_eq. eauto.
Qed.

(** [main] returns with its instance still allocated. *)
Lemma main_keeps_instance (input : list (option Double.double)) (w w' : World) (r : Z) :
  main input w = Ret r w' ->
  exists a, heap w !! a = None /\ is_Some (heap w' !! a).
Proof.
  unfold main. rewrite bind_unfold.
  destruct (pwm_create PIN w) as [p w1|] eqn:E; [|discriminate].
  destruct (pwm_create_fresh _ _ _ _ E) as (a & -> & Hnew & Hin).
  intros H. exists a. split; [exact Hnew|].
  apply elem_of_dom. apply elem_of_dom in Hin.
  match type of H with ?m w1 = _ => assert (Hk : keeps_heap m) end.
  { apply keeps_bind; [apply keeps_start|]. intros [[|] error].
    - apply keeps_bind; [apply keeps_set_duty|]. intros _.
      apply keeps_bind; [apply keeps_main_loop|]. intros _. keeps.
    - keeps. }
  apply (Hk _ _ _ H). exact Hin.
Qed.

End NothingFreed.

(** ** The duty cycle *)

Section DutyCycle.

Lemma in_int_iff (z : Z) : CInt.in_int z = true <-> CInt.INT_MIN <= z <= CInt.INT_MAX.
Proof. unfold CInt.in_int. rewrite andb_true_iff, !Z.leb_le. reflexivity. Qed.

Lemma to_int_some (x : Double.double) (z : Z) :
  Double.to_int x = Some z <-> Double.trunc x = Some z /\ CInt.in_int z = true.
Proof.
  unfold Double.to_int. destruct (Double.trunc x) as [t|].
  - destruct (CInt.in_int t) eqn:E; split.
    + intros [= <-]. auto.
    + intros [[= <-] _]. reflexivity.
    + discriminate.
    + intros [[= <-] H]. congruence.
  - split; [discriminate|intros [? _]; discriminate].
Qed.

Lemma duty_result_run (w : World) (a : positive) (s : PWM) (duty : Double.double) :
  heap w !! a = Some s ->
  duty_result w a duty =
  match Double.to_int (duty_product s duty) with
  | Some on =>
      match CInt.sub (cycle_usec s) on with
      | Some off => Some (on, off)
      | None => None
      end
  | None => None
  end.
Proof.
  intros H. unfold duty_result, duty_product. rewrite (pwm_set_duty_run w a s duty H).
  destruct (Double.to_int _) as [on|]; [|reflexivity].
  destruct (CInt.sub _ _) as [off|]; [|reflexivity].
  cbn [heap with_heap]. rewrite lookup_insert_eq. reflexivity.
Qed.

(** A fraction in [0.0, 1.0] has a result, whatever the cycle length. *)
Lemma unit_fraction_defined (s : PWM) (duty : Double.double) :
  CInt.in_int (cycle_usec s) = true ->
  Double.is_double duty ->
  Double.leb Double.zero duty = true -> Double.leb duty Double.one = true ->
  exists on, Double.to_int (duty_product s duty) = Some on
             /\ CInt.in_int (cycle_usec s - on) = true
             /\ Z.abs on <= Z.abs (cycle_usec s) /\ 0 <= cycle_usec s * on.
Proof.
  intros Hc Hv H0 H1. apply in_int_iff in Hc. unfold CInt.INT_MIN, CInt.INT_MAX in Hc.
  destruct (mul_trunc_unit (cycle_usec s) duty) as (t & Ht & Habs & Hsign); auto; [lia|].
  exists t. split; [|split; [|split; assumption]].
  - apply to_int_some. split; [exact Ht|]. apply in_int_iff.
    unfold CInt.INT_MIN, CInt.INT_MAX. lia.
  - apply in_int_iff. unfold CInt.INT_MIN, CInt.INT_MAX. nia.
Qed.

End DutyCycle.

(** The scenarios of the specification. *)
Example duty_half : duty_result (Ex.running 20000 0 20000) 1 Double.half = Some (10000, 10000).
Proof. vm_compute. reflexivity. Qed.

Example duty_servo_min : duty_result (Ex.running 2000 0 2000) 1 Ex.servo_min = Some (50, 1950).
Proof. vm_compute. reflexivity. Qed.

Example duty_one_and_half :
  duty_result (Ex.running 20000 0 20000) 1 Ex.one_and_half = Some (30000, -10000).
Proof. vm_compute. reflexivity. Qed.

(** The product is the [double] product: three times the [double] nearest to
    one third is [1 - 2^-54], which rounds to 1.0 before the cast. *)
Example duty_third :
  Double.mul (Double.of_int 3) Ex.third = Double.one
  /\ duty_result (Ex.running 3 0 3) 1 Ex.third = Some (1, 2).
Proof. split; vm_compute; reflexivity. Qed.

Example duty_d200000 :
  Double.of_int 200000 = Ex.d200000
  /\ pwm_set_duty (Addr 1) Ex.d200000 (Ex.running 20000 0 20000) = Crash Undefined.
Proof. split; vm_compute; reflexivity. Qed.

(** C1 (as amended).  For every instance and every fraction for which the
    integral part of [cycle_usec * fraction] and the difference
    [cycle_usec - on_usec] are representable as [int] -- in particular for
    every fraction in [0.0, 1.0], whatever the cycle length -- [pwm_set_duty]
    returns and leaves [on_usec = round_toward_zero (cycle_usec * fraction)]
    (the product being the [double] product) and
    [off_usec = cycle_usec - on_usec], so that their sum is [cycle_usec]. *)
Theorem set_duty_intervals (w : World) (a : positive) (s : PWM) (duty : Double.double) :
  heap w !! a = Some s ->
  (exists on, Double.to_int (duty_product s duty) = Some on
              /\ CInt.in_int (cycle_usec s - on) = true)
  \/ (CInt.in_int (cycle_usec s) = true /\ Double.is_double duty
      /\ Double.leb Double.zero duty = true /\ Double.leb duty Double.one = true) ->
  duty_claim w a duty.
Proof.
  intros H Hcase.
  assert (Hon : exists on, Double.to_int (duty_product s duty) = Some on
                           /\ CInt.in_int (cycle_usec s - on) = true).
  { destruct Hcase as [Hon|(Hc & Hv & H0 & H1)]; [exact Hon|].
    destruct (unit_fraction_defined s duty Hc Hv H0 H1) as (on & Hon & Hoff & _).
    eauto. }
  destruct Hon as (on & Hon & Hoff).
  exists s, on, (cycle_usec s - on). split; [exact H|].
  split; [|split; [apply to_int_some in Hon as [Ht _]; exact Ht|split; lia]].
  rewrite (duty_result_run w a s duty H), Hon. unfold CInt.sub. rewrite Hoff. reflexivity.
Qed.

(** C1, an instance: cycle length 20000, fraction 0.5. *)
Lemma set_duty_intervals_witness :
  heap (Ex.running 20000 0 20000) !! 1%positive = Some (Ex.instance 20000 0 20000)
  /\ (CInt.in_int 20000 = true /\ Double.is_double Double.half
      /\ Double.leb Double.zero Double.half = true
      /\ Double.leb Double.half Double.one = true)
  /\ duty_claim (Ex.running 20000 0 20000) 1 Double.half.
Proof.
  split; [reflexivity|]. split; [repeat split; reflexivity|].
  apply (set_duty_intervals (Ex.running 20000 0 20000) 1 (Ex.instance 20000 0 20000)
           Double.half); [reflexivity|].
  right. repeat split; reflexivity.
Defined.

(** C1 as stated fails: with cycle length 20000 and fraction 200000.0 the
    product is 4e9, which no [int] holds; the cast is undefined and no pair
    is stored. *)
Lemma set_duty_any_fraction_counterexample :
  ~ duty_claim (Ex.running 20000 0 20000) 1 Ex.d200000.
Proof.
  intros (s & on & off & _ & Hres & _). vm_compute in Hres. discriminate Hres.
Qed.

(** C9.  For every cycle length that is a nonnegative [int],
    [pwm_set_duty (self, 0.0)] leaves [on_usec = 0] and
    [off_usec = cycle_usec], and [pwm_set_duty (self, 1.0)] leaves
    [on_usec = cycle_usec] and [off_usec = 0]. *)
Theorem set_duty_endpoints (w : World) (a : positive) (s : PWM) :
  heap w !! a = Some s ->
  0 <= cycle_usec s <= CInt.INT_MAX ->
  duty_result w a Double.zero = Some (0, cycle_usec s)
  /\ duty_result w a Double.one = Some (cycle_usec s, 0).
Proof.
  intros H Hc. unfold CInt.INT_MAX in Hc.
  assert (Hin : CInt.in_int (cycle_usec s) = true)
    by (apply in_int_iff; unfold CInt.INT_MIN, CInt.INT_MAX; lia).
  rewrite !(duty_result_run w a s _ H). split.
  - destruct (unit_fraction_defined s Double.zero Hin) as (on & Hon & Hoff & _);
      [reflexivity..|].
    assert (on = 0).
    { apply to_int_some in Hon as [Ht _]. unfold duty_product in Ht.
      destruct (Z.eq_dec (cycle_usec s) 0) as [E|Hne].
      - rewrite E in Ht. cbn in Ht. congruence.
      - destruct (of_int_finite (cycle_usec s) Hne) as (mx & sh & _ & _ & E); [lia|].
        rewrite E in Ht. cbn in Ht. congruence. }
    subst on. rewrite Hon. unfold CInt.sub. rewrite Hoff. rewrite Z.sub_0_r. reflexivity.
  - destruct (unit_fraction_defined s Double.one Hin) as (on & Hon & Hoff & Habs & Hsg);
      [reflexivity..|].
    assert (on = cycle_usec s).
    { apply to_int_some in Hon as [Ht _].
      destruct (mul_trunc_above (cycle_usec s) on Double.one) as [Hge _];
        [lia|reflexivity|reflexivity|exact Ht|]. nia. }
    subst on. rewrite Hon. unfold CInt.sub. rewrite Hoff. rewrite Z.sub_diag. reflexivity.
Qed.

(** C9, an instance: cycle length 20000, duty at one half before. *)
Lemma set_duty_endpoints_witness :
  heap (Ex.running 20000 10000 10000) !! 1%positive = Some (Ex.instance 20000 10000 10000)
  /\ 0 <= 20000 <= CInt.INT_MAX
  /\ duty_result (Ex.running 20000 10000 10000) 1 Double.zero = Some (0, 20000)
  /\ duty_result (Ex.running 20000 10000 10000) 1 Double.one = Some (20000, 0).
Proof.
  split; [reflexivity|]. split; [unfold CInt.INT_MAX; lia|].
  apply (set_duty_endpoints (Ex.running 20000 10000 10000) 1 (Ex.instance 20000 10000 10000));
    [reflexivity|]. cbn. unfold CInt.INT_MAX. lia.
Defined.

(** C3 (as amended).  For every positive cycle length and every fraction for
    which [pwm_set_duty] has a result, there is no clamping at either end.
    A fraction below 0.0 leaves [on_usec <= 0] and [off_usec >= cycle_usec],
    and [on_usec <= - k], [off_usec >= cycle_usec + k] for every whole [k]
    that the magnitude of the exact product reaches: [off_usec] is positive
    there, it is [on_usec] that is negative, as soon as the product reaches
    one microsecond.  A fraction above 1.0 leaves [on_usec >= cycle_usec] and
    [off_usec <= 0], and [on_usec >= k], [off_usec <= cycle_usec - k] for
    every whole [k] that the exact product reaches: [on_usec] exceeds the
    cycle length, and [off_usec] is negative, as soon as the excess is one
    microsecond. *)
Theorem set_duty_out_of_range (w : World) (a : positive) (s : PWM)
    (duty : Double.double) (on off : Z) :
  heap w !! a = Some s ->
  0 < cycle_usec s <= CInt.INT_MAX ->
  Double.is_double duty ->
  duty_result w a duty = Some (on, off) ->
  off = cycle_usec s - on
  /\ (Double.ltb duty Double.zero = true ->
      on <= 0 /\ cycle_usec s <= off
      /\ forall k, 0 < k -> Double.mag_times_geb (cycle_usec s) duty k = true ->
                   on <= - k /\ cycle_usec s + k <= off)
  /\ (Double.ltb Double.one duty = true ->
      cycle_usec s <= on /\ off <= 0
      /\ forall k, 0 < k -> Double.mag_times_geb (cycle_usec s) duty k = true ->
                   k <= on /\ off <= cycle_usec s - k).
Proof.
  intros H Hc Hv Hres. unfold CInt.INT_MAX in Hc.
  rewrite (duty_result_run w a s duty H) in Hres.
  destruct (Double.to_int _) as [on'|] eqn:Hon; [|discriminate Hres].
  unfold CInt.sub in Hres. destruct (CInt.in_int _); [|discriminate Hres].
  injection Hres as -> <-. apply to_int_some in Hon as [Ht Hin].
  apply in_int_iff in Hin. unfold CInt.INT_MIN, CInt.INT_MAX in Hin.
  unfold duty_product in Ht.
  split; [reflexivity|]. split; intros Hd.
  - pose proof (mul_trunc_negative (cycle_usec s) on duty ltac:(lia) Hd Ht) as Hneg.
    split; [nia|]. split; [nia|]. intros k Hk Hge.
    pose proof (mul_trunc_follows (cycle_usec s) k on duty ltac:(lia) Hk Hge Ht ltac:(lia)).
    assert (on <= 0) by nia. lia.
  - destruct (mul_trunc_above (cycle_usec s) on duty) as [Hge Hsg];
      [lia|exact Hv|apply ltb_leb, Hd|exact Ht|].
    assert (Hpos : 0 <= on) by nia.
    split; [lia|]. split; [lia|]. intros k Hk Hgek.
    pose proof (mul_trunc_follows (cycle_usec s) k on duty ltac:(lia) Hk Hgek Ht ltac:(lia)).
    lia.
Qed.

(** C3, two instances: cycle length 20000 with fractions -0.5 and 1.5; the
    exact products are -10000 and 30000. *)
Lemma set_duty_out_of_range_witness :
  (duty_result (Ex.running 20000 0 20000) 1 Ex.minus_half = Some (-10000, 30000)
   /\ Double.ltb Ex.minus_half Double.zero = true
   /\ Double.mag_times_geb 20000 Ex.minus_half 10000 = true
   /\ -10000 <= - 10000 /\ 20000 + 10000 <= 30000)
  /\ (duty_result (Ex.running 20000 0 20000) 1 Ex.one_and_half = Some (30000, -10000)
      /\ Double.ltb Double.one Ex.one_and_half = true
      /\ Double.mag_times_geb 20000 Ex.one_and_half 30000 = true
      /\ 30000 <= 30000 /\ -10000 <= 20000 - 30000).
Proof.
  assert (Hc : 0 < cycle_usec (Ex.instance 20000 0 20000) <= CInt.INT_MAX)
    by (cbn; unfold CInt.INT_MAX; lia).
  assert (Hm : duty_result (Ex.running 20000 0 20000) 1 Ex.minus_half = Some (-10000, 30000))
    by (vm_compute; reflexivity).
  assert (Hp : duty_result (Ex.running 20000 0 20000) 1 Ex.one_and_half = Some (30000, -10000))
    by (vm_compute; reflexivity).
  split; (split; [assumption|split; [reflexivity|split; [reflexivity|]]]).
  - exact (proj2 (proj2 (proj1 (proj2 (set_duty_out_of_range (Ex.running 20000 0 20000) 1
             (Ex.instance 20000 0 20000) Ex.minus_half (-10000) 30000
             eq_refl Hc eq_refl Hm)) eq_refl)) 10000 eq_refl eq_refl).
  - exact (proj2 (proj2 (proj2 (proj2 (set_duty_out_of_range (Ex.running 20000 0 20000) 1
             (Ex.instance 20000 0 20000) Ex.one_and_half 30000 (-10000)
             eq_refl Hc eq_refl Hp)) eq_refl)) 30000 eq_refl eq_refl).
Defined.

(** C3 as stated fails on both halves: with cycle length 20000, fraction
    -0.5 leaves [off_usec = 30000], which is not negative, and the least
    fraction above 1.0 leaves [on_usec = 20000], which does not exceed the
    cycle length. *)
Lemma no_clamp_counterexample :
  ~ no_clamp_claim (Ex.running 20000 0 20000) 1 Ex.minus_half
  /\ ~ no_clamp_claim (Ex.running 20000 0 20000) 1 Ex.above_one.
Proof.
  split; intros (s & on & off & Hs & Hres & Hneg & Hpos);
    vm_compute in Hres; injection Hres as <- <-;
    vm_compute in Hs; injection Hs as <-.
  - specialize (Hneg eq_refl). lia.
  - specialize (Hpos eq_refl). cbn in Hpos. lia.
Qed.

(** C10.  For every instance and every fraction, [pwm_set_duty] either has
    no defined result (the cast or the subtraction leaves the [int] range)
    or returns with [pin], [cycle_usec], [stop], [f_value] and [pthread] as
    they were; every other instance, the open descriptors, [errno] and the
    trace are untouched as well. *)
Theorem set_duty_frame (w : World) (a : positive) (s : PWM) (duty : Double.double) :
  heap w !! a = Some s ->
  match pwm_set_duty (Addr a) duty w with
  | Ret _ w' =>
      exists s', heap w' !! a = Some s'
        /\ pin s' = pin s /\ cycle_usec s' = cycle_usec s /\ stop s' = stop s
        /\ f_value s' = f_value s /\ pthread s' = pthread s
        /\ (forall b, b <> a -> heap w' !! b = heap w !! b)
        /\ kernel w' = kernel w /\ errno w' = errno w /\ fds w' = fds w
        /\ trace w' = trace w
  | Crash f => f = Undefined
  end.
Proof.
  intros H. rewrite (pwm_set_duty_run w a s duty H).
  destruct (Double.to_int _) as [on|]; [|reflexivity].
  destruct (CInt.sub _ _) as [off|]; [|reflexivity].
  exists (set_intervals on off s). cbn [heap with_heap kernel errno fds trace].
  split; [apply lookup_insert_eq|]. repeat (split; [reflexivity|]).
  split; [|repeat split]. intros b Hb. apply lookup_insert_ne. congruence.
Qed.

(** C10, an instance: cycle length 20000, fraction 0.5. *)
Lemma set_duty_frame_witness :
  heap (Ex.running 20000 0 20000) !! 1%positive = Some (Ex.instance 20000 0 20000)
  /\ match pwm_set_duty (Addr 1) Double.half (Ex.running 20000 0 20000) with
     | Ret _ w' =>
         exists s', heap w' !! 1%positive = Some s'
           /\ pin s' = 17 /\ cycle_usec s' = 20000 /\ stop s' = false
           /\ f_value s' = 3 /\ pthread s' = 1
           /\ (forall b, b <> 1%positive ->
                 heap w' !! b = heap (Ex.running 20000 0 20000) !! b)
           /\ kernel w' = Ex.kernel_ok /\ errno w' = 0 /\ fds w' = {[3]}
           /\ trace w' = Ex.setup_trace
     | Crash f => f = Undefined
     end.
Proof.
  split; [reflexivity|].
  exact (set_duty_frame (Ex.running 20000 0 20000) 1 (Ex.instance 20000 0 20000)
           Double.half eq_refl).
Defined.

(** ** Claiming the pin *)

Section Start.

Lemma trace_after_setup (a : positive) (s : PWM) (w : World) :
  exists evs, trace (after_setup a s w) = trace w ++ evs.
Proof.
  unfold after_setup, after_open, after_direction, poke.
  destruct (k_fopen_w _ (gpio_attr _ "direction")); cbn;
    destruct (k_open_wr _ _); cbn; rewrite <- ?app_assoc; eauto.
Qed.

Lemma fds_after_setup (a : positive) (s : PWM) (w : World) :
  fds (after_setup a s w) =
  match k_open_wr (kernel w) (gpio_attr (pin s) "value") with
  | SysOk fd => {[Z.of_N fd]} ∪ fds w
  | SysErr _ => fds w
  end.
Proof.
  unfold after_setup, after_open, opened_fd, poke, after_direction.
  destruct (k_fopen_w _ (gpio_attr _ "direction")); cbn;
    destruct (k_open_wr _ _); reflexivity.
Qed.

Lemma trace_after_setup_eq (a : positive) (s : PWM) (w : World) :
  trace (after_setup a s w) =
  trace w
  ++ [EvFile gpio_export (CInt.dec (pin s))]
  ++ match k_fopen_w (kernel w) (gpio_attr (pin s) "direction") with
     | SysOk _ => [EvFile (gpio_attr (pin s) "direction") "out"]
     | SysErr _ => []
     end
  ++ match k_open_wr (kernel w) (gpio_attr (pin s) "value") with
     | SysOk fd => [EvOpen (gpio_attr (pin s) "value") (Z.of_N fd)]
     | SysErr _ => []
     end.
Proof.
  unfold after_setup, after_open, opened_fd, poke, after_direction.
  cbn [kernel log].
  destruct (k_fopen_w _ (gpio_attr _ "direction")); cbn;
    destruct (k_open_wr _ _); cbn; rewrite <- ?app_assoc; cbn; rewrite ?app_nil_r; reflexivity.
Qed.

Lemma errno_after_setup (a : positive) (s : PWM) (w : World) :
  errno (after_setup a s w) =
  match k_open_wr (kernel w) (gpio_attr (pin s) "value") with
  | SysErr e => e
  | SysOk _ =>
      match k_fopen_w (kernel w) (gpio_attr (pin s) "direction") with
      | SysErr e => e
      | SysOk _ => errno w
      end
  end.
Proof.
  unfold after_setup, after_open, opened_fd, poke, after_direction.
  cbn [kernel log].
  destruct (k_fopen_w _ (gpio_attr _ "direction")); cbn;
    destruct (k_open_wr _ _); reflexivity.
Qed.

End Start.

Example create_then_start :
  pwm_create PIN (Ex.boot Ex.kernel_ok) = Ret (Addr 1) (Ex.created Ex.kernel_ok)
  /\ pwm_start (Addr 1) 20000 true (Ex.created Ex.kernel_ok)
     = Ret (TRUE, None) (Ex.running 20000 0 20000).
Proof. split; vm_compute; reflexivity. Qed.

(** C2 (what the code does instead).  When the export file opens and the
    "value" attribute does not, [pwm_setup_pin] still returns 0: [ret] holds
    the 0 of the export write and [if (self->f_value >= 0) ret = 0;] never
    makes it a failure.  [pwm_start] then stores -1 as the handle, starts
    the thread and returns TRUE with [*error] left alone. *)
Theorem setup_pin_drops_open_failure (w : World) (a : positive) (s : PWM)
    (e cycle tid : Z) (error : bool) :
  heap w !! a = Some s ->
  k_fopen_w (kernel w) gpio_export = SysOk tt ->
  k_open_wr (kernel w) (gpio_attr (pin s) "value") = SysErr e ->
  k_thread (kernel w) = SysOk tid ->
  (exists w1, pwm_setup_pin (Addr a) w = Ret 0 w1
              /\ heap w1 !! a = Some (set_f_value (-1) s))
  /\ (exists w2, pwm_start (Addr a) cycle error w = Ret (TRUE, None) w2
                 /\ heap w2 !! a = Some (started_instance tid cycle (set_f_value (-1) s))
                 /\ In (EvThread tid (Addr a)) (trace w2)).
Proof.
  intros H Hexp Hopen Hth.
  assert (Hfd : opened_fd (pin s) w = -1).
  { unfold opened_fd. rewrite Hopen. reflexivity. }
  split.
  - rewrite (pwm_setup_pin_run a s w H), Hexp. eexists. split; [reflexivity|].
    rewrite after_setup_heap, Hfd. apply lookup_insert_eq.
  - rewrite (pwm_start_run a s cycle error w H), Hexp, Hth, Hfd.
    eexists. split; [reflexivity|]. split; [apply lookup_insert_eq|].
    cbn [poke with_heap log trace]. apply in_or_app. right. left. reflexivity.
Qed.

(** C2, the failing input: pin 17, [open] of the "value" attribute fails
    with ENOENT. *)
Lemma setup_pin_drops_open_failure_witness :
  (k_fopen_w Ex.kernel_no_value gpio_export = SysOk tt
   /\ k_open_wr Ex.kernel_no_value (gpio_attr 17 "value") = SysErr 2)
  /\ (exists w1, pwm_setup_pin (Addr 1) (Ex.created Ex.kernel_no_value) = Ret 0 w1
                 /\ heap w1 !! 1%positive = Some (set_f_value (-1) Ex.idle))
  /\ (exists w2, pwm_start (Addr 1) 20000 true (Ex.created Ex.kernel_no_value)
                 = Ret (TRUE, None) w2
                 /\ heap w2 !! 1%positive
                    = Some (started_instance 1 20000 (set_f_value (-1) Ex.idle))
                 /\ In (EvThread 1 (Addr 1)) (trace w2)).
Proof.
  split; [split; reflexivity|].
  apply (setup_pin_drops_open_failure (Ex.created Ex.kernel_no_value) 1 Ex.idle 2 20000 1 true);
    reflexivity.
Defined.

(** C4 (what the code does).  [pwm_start] takes the pin as claimed as soon
    as the export file has opened.  When it does not open, [pwm_start]
    returns FALSE, the message handed back (when the caller gave a place for
    it) is "Can't set up pin: " followed by the text of the OS error of the
    failed [fopen], nothing is added to the trace (no thread is started) and
    the heap, hence every field of the instance, is as it was.  When it
    opens and the "value" attribute does not, the pin has not been claimed
    either, there is no handle; yet [pwm_start] returns TRUE with no
    message, has rewritten [stop], [cycle_usec], [on_usec], [off_usec] and
    [f_value], and has started the loop on the handle -1 wherever
    [pthread_create] gives a thread. *)
Theorem start_unclaimed_pin (w : World) (a : positive) (s : PWM)
    (cycle : Z) (error : bool) :
  heap w !! a = Some s ->
  (forall e,
     k_fopen_w (kernel w) gpio_export = SysErr e ->
     exists w',
       pwm_start (Addr a) cycle error w
       = Ret (FALSE,
              if error
              then Some ("Can't set up pin: " +:+ k_strerror (kernel w) e)%string
              else None) w'
       /\ heap w' = heap w /\ trace w' = trace w /\ fds w' = fds w /\ errno w' = e)
  /\ (forall e,
        k_fopen_w (kernel w) gpio_export = SysOk tt ->
        k_open_wr (kernel w) (gpio_attr (pin s) "value") = SysErr e ->
        exists w',
          pwm_start (Addr a) cycle error w = Ret (TRUE, None) w'
          /\ heap w' !! a
             = Some (started_instance (thread_id w) cycle (set_f_value (-1) s))
          /\ fds w' = fds w
          /\ (forall tid, k_thread (kernel w) = SysOk tid ->
                          In (EvThread tid (Addr a)) (trace w'))).
Proof.
  intros H. split; intros e Hexp.
  - rewrite (pwm_start_run a s cycle error w H), Hexp.
    exists (with_errno e w). repeat split.
  - intros Hopen.
    assert (Hfd : opened_fd (pin s) w = -1).
    { unfold opened_fd. rewrite Hopen. reflexivity. }
    rewrite (pwm_start_run a s cycle error w H), Hexp, Hfd. unfold thread_id.
    destruct (k_thread (kernel w)) as [tid|e'];
      (eexists; split; [reflexivity|]; split; [apply lookup_insert_eq|]; split;
       [cbn [poke with_heap log fds]; rewrite fds_after_setup, Hopen; reflexivity|]).
    + intros tid' [= <-]. cbn [poke with_heap log trace].
      apply in_or_app. right. left. reflexivity.
    + intros tid' [=].
Qed.

(** C4, the failing input: pin 17, the export file opens and [open] of the
    "value" attribute fails with ENOENT. *)
Lemma start_unclaimed_pin_witness :
  k_fopen_w Ex.kernel_no_value gpio_export = SysOk tt
  /\ k_open_wr Ex.kernel_no_value (gpio_attr 17 "value") = SysErr 2
  /\ exists w',
       pwm_start (Addr 1) 20000 true (Ex.created Ex.kernel_no_value) = Ret (TRUE, None) w'
       /\ heap w' !! 1%positive = Some (mkPWM 17 1 false (-1) 20000 0 20000)
       /\ fds w' = ∅
       /\ (forall tid, k_thread Ex.kernel_no_value = SysOk tid ->
                       In (EvThread tid (Addr 1)) (trace w')).
Proof.
  split; [reflexivity|]. split; [reflexivity|].
  exact (proj2 (start_unclaimed_pin (Ex.created Ex.kernel_no_value) 1 Ex.idle 20000 true
                  eq_refl) 2 eq_refl eq_refl).
Defined.




(** ** The timing loop *)

Section LoopCalls.

Lemma do_call_set_pin (a : positive) (s : PWM) (value : Z) (w : World) :
  heap w !! a = Some s ->
  do_call (Addr a) (SetPin value) w = Ret tt (log (call_events s w (SetPin value)) w).
Proof.
  intros H. unfold do_call. rewrite bind_unfold, (pwm_set_pin_run a s value w H).
  reflexivity.
Qed.

Lemma useconds_id (arg : Z) : 0 <= arg <= CInt.INT_MAX -> CInt.useconds arg = arg.
Proof. unfold CInt.useconds, CInt.INT_MAX. intros H. apply Z.mod_small. lia. Qed.

(** With the stop flag up [pwm_loop] returns at once and touches nothing. *)
Lemma pwm_loop_stopped (fuel : nat) (a : positive) (s : PWM) (w : World) :
  heap w !! a = Some s -> stop s = true ->
  pwm_loop (S fuel) (Addr a) AtWhile w = Ret Returned w.
Proof.
  intros H Hs. cbn [pwm_loop].
  rewrite bind_unfold, (loop_thread_step_run a s AtWhile w H).
  cbn [pwm_loop_step fst snd]. rewrite Hs. reflexivity.
Qed.

End LoopCalls.

Section Passes.

Variable a : positive.

Lemma instance_at_some (w : World) :
  is_Some (heap w !! a) -> heap w !! a = Some (instance_at a w).
Proof. intros [s H]. unfold instance_at. rewrite H. reflexivity. Qed.

Lemma loop_thread_step_at (pc : loop_pc) (w : World) :
  is_Some (heap w !! a) ->
  loop_thread_step (Addr a) pc w =
  Ret (fst (pwm_loop_step pc (instance_at a w)))
      match snd (pwm_loop_step pc (instance_at a w)) with
      | Some c => log (call_events (instance_at a w) w c) w
      | None => w
      end.
Proof. intros H. apply loop_thread_step_run, instance_at_some, H. Qed.

Lemma loop_thread_pass_S (fuel : nat) (env : loop_pc -> World -> World) (pc : loop_pc)
    (w : World) :
  is_Some (heap (env pc w) !! a) ->
  loop_thread_pass (S fuel) (Addr a) env pc w =
  let s := instance_at a (env pc w) in
  let w' := match snd (pwm_loop_step pc s) with
            | Some c => log (call_events s (env pc w) c) (env pc w)
            | None => env pc w
            end in
  if at_head (fst (pwm_loop_step pc s)) then Ret (fst (pwm_loop_step pc s)) w'
  else loop_thread_pass fuel (Addr a) env (fst (pwm_loop_step pc s)) w'.
Proof.
  intros H. cbn [loop_thread_pass]. rewrite bind_unfold. unfold modify at 1.
  rewrite bind_unfold, (loop_thread_step_at pc _ H). cbv zeta.
  destruct (at_head _); reflexivity.
Qed.

Lemma pwm_loop_at (fuel : nat) (pc : loop_pc) (w : World) :
  is_Some (heap w !! a) ->
  pwm_loop (S fuel) (Addr a) pc w =
  let s := instance_at a w in
  let w' := match snd (pwm_loop_step pc s) with
            | Some c => log (call_events s w c) w
            | None => w
            end in
  match fst (pwm_loop_step pc s) with
  | Returned => Ret Returned w'
  | pc' => pwm_loop fuel (Addr a) pc' w'
  end.
Proof.
  intros H. cbn [pwm_loop]. rewrite bind_unfold, (loop_thread_step_at pc w H).
  cbv zeta. destruct (fst _); reflexivity.
Qed.

Lemma pwm_loop_returned (fuel : nat) (w : World) :
  is_Some (heap w !! a) -> pwm_loop fuel (Addr a) Returned w = Ret Returned w.
Proof. intros H. destruct fuel; [reflexivity|]. rewrite pwm_loop_at by exact H. reflexivity. Qed.

(** The pass, whatever the other threads do between the steps. *)
Lemma loop_thread_pass_run (env : loop_pc -> World -> World) (w : World) :
  survives a env -> is_Some (heap w !! a) ->
  loop_thread_pass 8 (Addr a) env AtWhile w = timing_pass a env w.
Proof.
  intros Hs H. unfold timing_pass, pin_set, slept_for.
  assert (Hl : forall evs w, is_Some (heap w !! a) -> is_Some (heap (log evs w) !! a))
    by (intros evs w0 H0; exact H0).
  rewrite loop_thread_pass_S by auto. cbn [pwm_loop_step fst snd at_head].
  destruct (stop (instance_at a (env AtWhile w))); [reflexivity|]. cbn [at_head].
  rewrite loop_thread_pass_S by auto. cbn [pwm_loop_step fst snd at_head].
  destruct (on_usec (instance_at a (env AtOnTest (env AtWhile w))) =? 0); cbn [at_head].
  - rewrite loop_thread_pass_S by auto. cbn [pwm_loop_step fst snd at_head call_events].
    rewrite loop_thread_pass_S by auto 6. cbn [pwm_loop_step fst snd at_head].
    destruct (stop (instance_at a (env AtStopTest _))); [reflexivity|]. cbn [at_head].
    rewrite loop_thread_pass_S by auto 7. cbn [pwm_loop_step fst snd at_head].
    destruct (off_usec (instance_at a (env AtOffTest _)) =? 0); cbn [at_head].
    + rewrite loop_thread_pass_S by auto 8. reflexivity.
    + rewrite loop_thread_pass_S by auto 8. cbn [pwm_loop_step fst snd at_head call_events].
      rewrite loop_thread_pass_S by auto 10. reflexivity.
  - rewrite loop_thread_pass_S by auto. cbn [pwm_loop_step fst snd at_head call_events].
    rewrite loop_thread_pass_S by auto 6. cbn [pwm_loop_step fst snd at_head call_events].
    rewrite loop_thread_pass_S by auto 8. cbn [pwm_loop_step fst snd at_head].
    destruct (stop (instance_at a (env AtStopTest _))); [reflexivity|]. cbn [at_head].
    rewrite loop_thread_pass_S by auto 9. cbn [pwm_loop_step fst snd at_head].
    destruct (off_usec (instance_at a (env AtOffTest _)) =? 0); cbn [at_head].
    + rewrite loop_thread_pass_S by auto 10. reflexivity.
    + rewrite loop_thread_pass_S by auto 10.
      cbn [pwm_loop_step fst snd at_head call_events].
      rewrite loop_thread_pass_S by auto 12. reflexivity.
Qed.

(** Left alone, [pwm_loop] makes this pass and goes on from where the pass
    ends. *)
Lemma pwm_loop_makes_pass (fuel : nat) (w : World) :
  is_Some (heap w !! a) ->
  exists n, (1 <= n <= 8)%nat
    /\ pwm_loop (n + fuel) (Addr a) AtWhile w
       = match timing_pass a (fun _ w => w) w with
         | Ret pc w' => pwm_loop fuel (Addr a) pc w'
         | Crash f => Crash f
         end.
Proof.
  intros H. unfold timing_pass, pin_set, slept_for. cbv zeta.
  change (instance_at a (log ?evs ?w0)) with (instance_at a w0).
  set (s := instance_at a w).
  destruct (stop s) eqn:E1.
  { exists 1%nat. split; [lia|]. cbn [Nat.add]. rewrite pwm_loop_at by exact H.
    fold s. cbn [pwm_loop_step fst snd]. rewrite E1.
    symmetry. apply pwm_loop_returned, H. }
  destruct (on_usec s =? 0) eqn:E2; destruct (off_usec s =? 0) eqn:E3;
    [exists 6%nat|exists 7%nat|exists 7%nat|exists 8%nat];
    (split; [lia|]); cbn [Nat.add];
    repeat (rewrite pwm_loop_at by exact H;
            change (instance_at a (log ?evs ?w0)) with (instance_at a w0); fold s;
            cbn [pwm_loop_step fst snd call_events]; rewrite ?E1, ?E2, ?E3; cbv zeta);
    reflexivity.
Qed.

End Passes.

(** C6.  Every pass of the loop thread that finds the stop flag down at the
    [while] test does this, in this order, whatever the other threads do to
    the instance between its steps: it writes '1' to the handle if and only
    if the [on_usec] it reads is nonzero; sleeps for the [on_usec] it reads
    next; tests the stop flag again and, if it is up by now, makes no LOW
    write and no second sleep (the pass is over; the [while] test that
    follows returns from the function when it finds the flag up); otherwise
    it writes '0' if and only if the [off_usec] it reads is nonzero, sleeps
    for [off_usec], and stands at the [while] test again.  A pass that finds
    the flag up at the [while] test returns at once.  [pwm_loop] left alone
    makes this pass, in at most 8 steps, and goes on from where the pass
    ends.  [usleep] gets the interval itself when it is not negative. *)
Theorem timing_loop_iteration (a : positive) (env : loop_pc -> World -> World)
    (w : World) :
  survives a env ->
  is_Some (heap w !! a) ->
  loop_thread_pass 8 (Addr a) env AtWhile w =
  (let w1 := env AtWhile w in
   if stop (instance_at a w1) then Ret Returned w1
   else
     let w2 := env AtOnTest w1 in
     let w3 := if on_usec (instance_at a w2) =? 0 then w2
               else pin_set a "1" (env AtSetHigh w2) in
     let w4 := env AtOnSleep w3 in
     let w5 := env AtStopTest (slept_for (on_usec (instance_at a w4)) w4) in
     if stop (instance_at a w5) then Ret AtWhile w5
     else
       let w6 := env AtOffTest w5 in
       let w7 := if off_usec (instance_at a w6) =? 0 then w6
                 else pin_set a "0" (env AtSetLow w6) in
       let w8 := env AtOffSleep w7 in
       Ret AtWhile (slept_for (off_usec (instance_at a w8)) w8))
  /\ (forall fuel, exists n, (1 <= n <= 8)%nat
        /\ pwm_loop (n + fuel) (Addr a) AtWhile w
           = match loop_thread_pass 8 (Addr a) (fun _ w => w) AtWhile w with
             | Ret pc w' => pwm_loop fuel (Addr a) pc w'
             | Crash f => Crash f
             end)
  /\ (forall usec w, 0 <= usec <= CInt.INT_MAX ->
        slept_for usec w = log [EvSleep usec] w).
Proof.
  intros Hs H. split; [|split].
  - exact (loop_thread_pass_run a env w Hs H).
  - intros fuel.
    rewrite (loop_thread_pass_run a (fun _ w => w) w (fun _ _ H0 => H0) H).
    exact (pwm_loop_makes_pass a fuel w H).
  - intros usec w0 Hu. unfold slept_for. rewrite useconds_id by exact Hu. reflexivity.
Qed.

(** C6, two instances, duty at one half of 20000: nobody else running; and
    the stop flag raised by another thread during the first sleep. *)
Lemma timing_loop_iteration_witness :
  loop_thread_pass 8 (Addr 1) (fun _ w => w) AtWhile (Ex.running 20000 10000 10000)
  = Ret AtWhile
      (log [EvWrite 3 "1" true; EvSleep 10000; EvWrite 3 "0" true; EvSleep 10000]
         (Ex.running 20000 10000 10000))
  /\ loop_thread_pass 8 (Addr 1) Ex.raised_meanwhile AtWhile (Ex.running 20000 10000 10000)
     = Ret AtWhile
         (poke 1 (set_stop TRUE (Ex.instance 20000 10000 10000))
            (log [EvWrite 3 "1" true; EvSleep 10000] (Ex.running 20000 10000 10000))).
Proof.
  split.
  - rewrite (proj1 (timing_loop_iteration 1 (fun _ w => w) (Ex.running 20000 10000 10000)
                      (fun _ _ H => H) (mk_is_Some _ _ eq_refl))).
    vm_compute. reflexivity.
  - assert (Hs : survives 1 Ex.raised_meanwhile).
    { intros pc w H. destruct pc; try exact H.
      cbn [Ex.raised_meanwhile poke with_heap heap]. rewrite lookup_insert_eq. eauto. }
    rewrite (proj1 (timing_loop_iteration 1 Ex.raised_meanwhile
                      (Ex.running 20000 10000 10000) Hs (mk_is_Some _ _ eq_refl))).
    vm_compute. reflexivity.
Defined.

(** ** Stopping while the loop runs *)

(** C7 (as amended).  In every interleaving of the loop of a started
    instance with a caller running [pwm_stop], under sequentially consistent
    steps: at most one pin write of the loop comes after the handle has been
    closed; once the stop flag is up the loop makes at most one more pin
    write, and it has returned after five more of its own steps.  (The loop
    tests the flag only at the [while] test and after the first sleep, so a
    write that was already decided on still happens.) *)
Theorem stop_leaves_one_write (a : positive) (w : World) (s : PWM)
    (sched : list thread) (σ : Sys) :
  heap w !! a = Some s ->
  existsb is_close (trace w) = false ->
  sys_run (Addr a) sched (sys_started w) = Some σ ->
  (late_writes false (trace (sys_world σ)) <= 1)%nat
  /\ forall sched' σ',
       raised a σ ->
       sys_run (Addr a) sched' σ = Some σ' ->
       (writes (trace (sys_world σ')) <= writes (trace (sys_world σ)) + 1)%nat
       /\ ((5 <= loop_steps sched')%nat -> loop_at σ' = Returned).
Proof.
  intros H Hfresh Hrun. split.
  - apply (stop_inv_late a). apply (run_stop_inv a sched (sys_started w)); [|exact Hrun].
    exists s. split; [exact H|exact Hfresh].
  - intros sched' σ' Hr Hrun'.
    destruct (run_raised a sched' σ σ' Hr Hrun') as (_ & Hw & Hs).
    pose proof (write_budget_le (loop_at σ)). split; [lia|].
    intros H5. apply steps_left_0.
    assert (steps_left (loop_at σ) <= 5)%nat by (destruct (loop_at σ); cbn; lia). lia.
Qed.

(** C7, an instance: the schedule of the counterexample below, which makes
    exactly one late write. *)
Lemma stop_leaves_one_write_witness :
  sys_run (Addr 1) Ex.late_schedule (sys_started (Ex.running 20000 10000 10000))
  = Some Ex.late_state
  /\ (late_writes false (trace (sys_world Ex.late_state)) <= 1)%nat.
Proof.
  assert (Hrun : sys_run (Addr 1) Ex.late_schedule (sys_started (Ex.running 20000 10000 10000))
                 = Some Ex.late_state) by (vm_compute; reflexivity).
  split; [exact Hrun|].
  exact (proj1 (stop_leaves_one_write 1 (Ex.running 20000 10000 10000)
                  (Ex.instance 20000 10000 10000) Ex.late_schedule Ex.late_state
                  eq_refl eq_refl Hrun)).
Defined.

(** C7 as stated fails: the loop passes its [while] test, [pwm_stop] runs to
    its end (flag, unexport, [close], [f_value = -1]), then the loop, at
    [if (self->on_usec != 0)], goes on to [pwm_set_pin (self, 1)] and writes
    to the released handle. *)
Lemma release_safe_counterexample : ~ release_safe 1 (Ex.running 20000 10000 10000).
Proof.
  intros Hsafe.
  assert (Hrun : sys_run (Addr 1) Ex.late_schedule (sys_started (Ex.running 20000 10000 10000))
                 = Some Ex.late_state) by (vm_compute; reflexivity).
  specialize (Hsafe Ex.late_schedule Ex.late_state Hrun).
  vm_compute in Hsafe. discriminate Hsafe.
Qed.

(** ** The console loop *)

Lemma leb_zero_not_above (v : Double.double) :
  Double.leb v Double.zero = true -> Double.ltb Double.zero v = false.
Proof. destruct v as [s|[|]| |[|] m e]; intros H; try reflexivity; discriminate H. Qed.

(** C8 (what the code does).  When the values typed in are [vs], all above
    0.0, followed by a value at most 0.0, [main] is the calling sequence
    [session vs]: each value of [vs] goes to [pwm_set_duty] as it is, the
    closing value ends the loop and [pwm_stop] is called.  [pwm_destroy] is
    not: when [main] returns, the instance it created is still allocated. *)
Theorem main_stops_without_destroy (vs : list Double.double) (v : Double.double)
    (rest : list (option Double.double)) (w w' : World) (r : Z) :
  Forall (fun x => Double.ltb Double.zero x = true) vs ->
  Double.leb v Double.zero = true ->
  main (map Some vs ++ Some v :: rest) w = Ret r w' ->
  session vs w = Ret r w'
  /\ exists a, heap w !! a = None /\ is_Some (heap w' !! a).
Proof.
  intros Hvs Hv Hmain. split; [|exact (main_keeps_instance _ _ _ _ Hmain)].
  rewrite <- Hmain. unfold session, main.
  apply bind_ext. intros pwm w1. apply bind_ext. intros [[|] error] w2; [|reflexivity].
  apply bind_ext. intros _ w3.
  rewrite !bind_unfold.
  rewrite (main_loop_forwards pwm vs v Double.one rest w3);
    [reflexivity|reflexivity|exact Hvs|apply leb_zero_not_above, Hv].
Qed.

(** C8, the failing input: 0.5, then -1. *)
Lemma main_stops_without_destroy_witness :
  main [Some Double.half; Some Ex.minus_one] (Ex.boot Ex.kernel_ok) = Ret 0 Ex.finished
  /\ session [Double.half] (Ex.boot Ex.kernel_ok) = Ret 0 Ex.finished
  /\ exists a, heap (Ex.boot Ex.kernel_ok) !! a = None /\ is_Some (heap Ex.finished !! a).
Proof.
  assert (Hmain : main [Some Double.half; Some Ex.minus_one] (Ex.boot Ex.kernel_ok)
                  = Ret 0 Ex.finished) by (vm_compute; reflexivity).
  split; [exact Hmain|].
  apply (main_stops_without_destroy [Double.half] Ex.minus_one [] (Ex.boot Ex.kernel_ok)).
  - repeat constructor.
  - reflexivity.
  - exact Hmain.
Defined.

(** Had [pwm_destroy] been called, the block would be gone. *)
Example destroy_frees :
  exists w, pwm_destroy (Addr 1) Ex.finished = Ret tt w /\ heap w !! 1%positive = None.
Proof. eexists. split; [vm_compute; reflexivity|reflexivity]. Qed.

(** * Further properties *)

(** ** Creating, stopping and destroying an instance *)

Section Lifecycle.

Lemma heap_after_stop (a : positive) (s : PWM) (w : World) :
  heap (after_stop a s w) = <[a := set_f_value (-1) (set_stop TRUE s)]> (heap w).
Proof.
  unfold after_stop, poke. cbn [heap with_heap].
  rewrite heap_after_close, heap_after_unexport. cbn [heap with_heap].
  apply insert_insert_eq.
Qed.


Lemma fds_after_stop (a : positive) (s : PWM) (w : World) :
  fds (after_stop a s w) = if 0 <=? f_value s then fds w ∖ {[f_value s]} else fds w.
Proof.
  unfold after_stop, poke, after_close, after_unexport. cbn [fds with_heap f_value set_stop].
  destruct (0 <=? f_value s); cbn [fds with_heap log with_fds kernel];
    destruct (k_fopen_w _ _); reflexivity.
Qed.

Lemma trace_after_stop (a : positive) (s : PWM) (w : World) :
  trace (after_stop a s w) =
  trace w
  ++ match k_fopen_w (kernel w) gpio_unexport with
     | SysOk _ => [EvFile gpio_unexport (CInt.dec (pin s))]
     | SysErr _ => []
     end
  ++ (if 0 <=? f_value s then [EvClose (f_value s)] else []).
Proof.
  unfold after_stop, poke, after_close, after_unexport.
  cbn [trace with_heap f_value pin set_stop kernel].
  destruct (0 <=? f_value s); cbn [trace with_heap log with_fds kernel];
    destruct (k_fopen_w _ _); cbn [trace log with_errno app];
    rewrite <- ?app_assoc, ?app_nil_r; reflexivity.
Qed.


Lemma load_dangling (a : positive) (w : World) :
  heap w !! a = None -> load (Addr a) w = Crash Undefined.
Proof. intros H. unfold load, get, mbind, M_bind, lift. rewrite H. reflexivity. Qed.

Lemma store_dangling (a : positive) (f : PWM -> PWM) (w : World) :
  heap w !! a = None -> store (Addr a) f w = Crash Undefined.
Proof. intros H. unfold store. rewrite bind_unfold, (load_dangling a w H). reflexivity. Qed.

Lemma sys_free_run (a : positive) (s : PWM) (w : World) :
  heap w !! a = Some s -> sys_free (Addr a) w = Ret tt (with_heap (delete a (heap w)) w).
Proof.
  intros H. unfold sys_free. rewrite bind_unfold. unfold get at 1. cbv beta iota.
  rewrite H. reflexivity.
Qed.

Lemma pwm_destroy_run (a : positive) (s : PWM) (w : World) :
  heap w !! a = Some s ->
  pwm_destroy (Addr a) w
  = Ret tt (with_heap (delete a (heap w)) (after_stop a s w)).
Proof.
  intros H. unfold pwm_destroy.
  rewrite bind_unfold, (pwm_stop_run a s w H).
  erewrite sys_free_run by (rewrite heap_after_stop; apply lookup_insert_eq).
  rewrite heap_after_stop, delete_insert_eq. reflexivity.
Qed.

Lemma pwm_create_run (pin : Z) (w : World) :
  pwm_create pin w =
  if k_malloc (kernel w)
  then Ret (Addr (fresh (dom (heap w))))
         (poke (fresh (dom (heap w))) (mkPWM pin 0 false (-1) 0 0 0) w)
  else Crash Undefined.
Proof.
  unfold pwm_create. rewrite bind_unfold. unfold sys_malloc.
  destruct (k_malloc (kernel w)); [|reflexivity].
  cbv beta iota zeta. run_store. run_store. run_store.
  unfold mret, M_ret, poke. cbn [heap with_heap]. rewrite !insert_insert_eq.
  reflexivity.
Qed.

End Lifecycle.

(** X1.  When [malloc] returns memory, [pwm_create (pin)] returns a block
    that was not live before, holding [pin], [f_value = -1] and zero (FALSE)
    in every other field; no other block, no descriptor and no file is
    touched.  When [malloc] returns NULL the result is not checked: the
    [memset] through the null pointer is undefined. *)
Theorem create_gives_idle_instance (pin : Z) (w : World) :
  (k_malloc (kernel w) = true ->
   exists a,
     heap w !! a = None
     /\ pwm_create pin w = Ret (Addr a) (poke a (mkPWM pin 0 false (-1) 0 0 0) w))
  /\ (k_malloc (kernel w) = false -> pwm_create pin w = Crash Undefined).
Proof.
  rewrite pwm_create_run. split; intros ->; [|reflexivity].
  exists (fresh (dom (heap w))). split; [apply not_elem_of_dom, is_fresh|reflexivity].
Qed.

(** X1, an instance: the first block of a process, pin 17. *)
Lemma create_gives_idle_instance_witness :
  exists a,
    heap (Ex.boot Ex.kernel_ok) !! a = None
    /\ pwm_create 17 (Ex.boot Ex.kernel_ok)
       = Ret (Addr a) (poke a (mkPWM 17 0 false (-1) 0 0 0) (Ex.boot Ex.kernel_ok)).
Proof. exact (proj1 (create_gives_idle_instance 17 (Ex.boot Ex.kernel_ok)) eq_refl). Defined.

(** X2.  [pwm_destroy] of a live instance returns with the block freed
    and every other block as it was; on the way it has done what [pwm_stop]
    does: the pin number written to the unexport file (when that file
    opens) and the handle closed (when [f_value] is not negative). *)
Theorem destroy_frees_instance (a : positive) (s : PWM) (w : World) :
  heap w !! a = Some s ->
  exists w',
    pwm_destroy (Addr a) w = Ret tt w'
    /\ heap w' = delete a (heap w)
    /\ fds w' = (if 0 <=? f_value s then fds w ∖ {[f_value s]} else fds w)
    /\ trace w' =
       trace w
       ++ match k_fopen_w (kernel w) gpio_unexport with
          | SysOk _ => [EvFile gpio_unexport (CInt.dec (pin s))]
          | SysErr _ => []
          end
       ++ (if 0 <=? f_value s then [EvClose (f_value s)] else []).
Proof.
  intros H. eexists. split; [exact (pwm_destroy_run a s w H)|].
  cbn [heap fds trace with_heap].
  split; [reflexivity|]. split; [apply fds_after_stop|apply trace_after_stop].
Qed.

(** X2, an instance: a running instance on pin 17, handle 3. *)
Lemma destroy_frees_instance_witness :
  exists w',
    pwm_destroy (Addr 1) (Ex.running 20000 0 20000) = Ret tt w'
    /\ heap w' = delete 1%positive (heap (Ex.running 20000 0 20000))
    /\ fds w' = {[3]} ∖ {[3]}
    /\ trace w' = Ex.setup_trace ++ [EvFile gpio_unexport "17"] ++ [EvClose 3].
Proof.
  exact (destroy_frees_instance 1 (Ex.instance 20000 0 20000) (Ex.running 20000 0 20000)
           eq_refl).
Defined.

(** X3.  After [pwm_destroy] the pointer dangles.  The timing thread is
    detached and is not waited for, so a loop that has not returned yet reads
    freed memory at its next step, wherever it stands; and every further
    call on the pointer, a second [pwm_destroy] included, is undefined. *)
Theorem destroyed_instance_dangles (a : positive) (s : PWM) (w : World) :
  heap w !! a = Some s ->
  exists w',
    pwm_destroy (Addr a) w = Ret tt w'
    /\ (forall pc, pc <> Returned -> loop_thread_step (Addr a) pc w' = Crash Undefined)
    /\ (forall duty, pwm_set_duty (Addr a) duty w' = Crash Undefined)
    /\ (forall cycle error, pwm_start (Addr a) cycle error w' = Crash Undefined)
    /\ pwm_stop (Addr a) w' = Crash Undefined
    /\ pwm_destroy (Addr a) w' = Crash Undefined.
Proof.
  intros H. eexists. split; [exact (pwm_destroy_run a s w H)|].
  set (w' := with_heap _ _).
  assert (Hd : heap w' !! a = None) by apply lookup_delete_eq.
  assert (Hstop : pwm_stop (Addr a) w' = Crash Undefined).
  { unfold pwm_stop. rewrite bind_unfold. cbn [assert_nonnull]. unfold mret at 1, M_ret at 1.
    rewrite bind_unfold, (store_dangling a _ w' Hd). reflexivity. }
  split; [|split; [|split; [|split]]].
  - intros pc _. unfold loop_thread_step.
    rewrite bind_unfold, (load_dangling a w' Hd). reflexivity.
  - intros duty. unfold pwm_set_duty.
    rewrite bind_unfold. cbn [assert_nonnull]. unfold mret at 1, M_ret at 1.
    rewrite bind_unfold, (load_dangling a w' Hd). reflexivity.
  - intros cycle error.
    assert (Hsetup : pwm_setup_pin (Addr a) w' = Crash Undefined).
    { unfold pwm_setup_pin.
      rewrite bind_unfold. cbn [assert_nonnull]. unfold mret at 1, M_ret at 1.
      rewrite bind_unfold, (load_dangling a w' Hd). reflexivity. }
    unfold pwm_start.
    rewrite bind_unfold. cbn [assert_nonnull]. unfold mret at 1, M_ret at 1.
    rewrite bind_unfold, Hsetup. reflexivity.
  - exact Hstop.
  - unfold pwm_destroy. rewrite bind_unfold, Hstop. reflexivity.
Qed.

(** X3, an instance: the same running instance. *)
Lemma destroyed_instance_dangles_witness :
  exists w',
    pwm_destroy (Addr 1) (Ex.running 20000 0 20000) = Ret tt w'
    /\ (forall pc, pc <> Returned -> loop_thread_step (Addr 1) pc w' = Crash Undefined)
    /\ (forall duty, pwm_set_duty (Addr 1) duty w' = Crash Undefined)
    /\ (forall cycle error, pwm_start (Addr 1) cycle error w' = Crash Undefined)
    /\ pwm_stop (Addr 1) w' = Crash Undefined
    /\ pwm_destroy (Addr 1) w' = Crash Undefined.
Proof.
  exact (destroyed_instance_dangles 1 (Ex.instance 20000 0 20000) (Ex.running 20000 0 20000)
           eq_refl).
Defined.

(** X4.  [pwm_unsetup_pin] returns 0 when the unexport file opens and -1
    when it does not, and releases the handle in both cases: [f_value]
    becomes -1, the descriptor is closed if it was not negative (never
    otherwise), and [errno] is that of the failed [fopen], if any. *)
Theorem unsetup_pin_always_releases (a : positive) (s : PWM) (w : World) :
  heap w !! a = Some s ->
  exists w',
    pwm_unsetup_pin (Addr a) w
    = Ret (match k_fopen_w (kernel w) gpio_unexport with SysOk _ => 0 | SysErr _ => -1 end) w'
    /\ heap w' = <[a := set_f_value (-1) s]> (heap w)
    /\ fds w' = (if 0 <=? f_value s then fds w ∖ {[f_value s]} else fds w)
    /\ errno w'
       = match k_fopen_w (kernel w) gpio_unexport with SysOk _ => errno w | SysErr e => e end
    /\ trace w' =
       trace w
       ++ match k_fopen_w (kernel w) gpio_unexport with
          | SysOk _ => [EvFile gpio_unexport (CInt.dec (pin s))]
          | SysErr _ => []
          end
       ++ (if 0 <=? f_value s then [EvClose (f_value s)] else []).
Proof.
  intros H. eexists. split; [exact (pwm_unsetup_pin_result a s w H)|].
  unfold poke, after_close, after_unexport. cbn [heap fds errno trace with_heap].
  destruct (0 <=? f_value s); destruct (k_fopen_w (kernel w) gpio_unexport) as [u|e];
    cbn [heap fds errno trace with_heap with_fds with_errno log kernel];
    rewrite <- ?app_assoc, ?app_nil_r; repeat split.
Qed.

(** X4, an instance: the unexport file cannot be opened (EACCES), handle 3 is
    closed all the same. *)
Lemma unsetup_pin_always_releases_witness :
  exists w',
    pwm_unsetup_pin (Addr 1)
      (mkWorld Ex.kernel_denied {[1%positive := Ex.instance 20000 0 20000]} 0 {[3]} [])
    = Ret (-1) w'
    /\ heap w' = <[1%positive := set_f_value (-1) (Ex.instance 20000 0 20000)]>
                   {[1%positive := Ex.instance 20000 0 20000]}
    /\ fds w' = {[3]} ∖ {[3]}
    /\ errno w' = 13
    /\ trace w' = [] ++ [] ++ [EvClose 3].
Proof.
  exact (unsetup_pin_always_releases 1 (Ex.instance 20000 0 20000)
           (mkWorld Ex.kernel_denied {[1%positive := Ex.instance 20000 0 20000]} 0 {[3]} [])
           eq_refl).
Defined.

(** X5.  On a null instance [pwm_set_duty], [pwm_start], [pwm_stop],
    [pwm_set_pin], [pwm_setup_pin] and [pwm_unsetup_pin] stop on their
    [assert]; [pwm_destroy] returns and does nothing. *)
Theorem null_instance_asserts (w : World) (duty : Double.double) (cycle value : Z)
    (error : bool) :
  pwm_set_duty NULL duty w = Crash AssertFailed
  /\ pwm_start NULL cycle error w = Crash AssertFailed
  /\ pwm_stop NULL w = Crash AssertFailed
  /\ pwm_set_pin NULL value w = Crash AssertFailed
  /\ pwm_setup_pin NULL w = Crash AssertFailed
  /\ pwm_unsetup_pin NULL w = Crash AssertFailed
  /\ pwm_destroy NULL w = Ret tt w.
Proof. repeat split. Qed.

(** X6.  After [pwm_stop], [pwm_set_pin] writes to descriptor -1, which
    is no open file (descriptors are never negative), and still returns 0:
    the result of [write] is not looked at. *)
Theorem set_pin_after_stop (a : positive) (s : PWM) (w : World) (value : Z) :
  heap w !! a = Some s ->
  (forall fd, fd ∈ fds w -> 0 <= fd) ->
  exists w1,
    pwm_stop (Addr a) w = Ret tt w1
    /\ pwm_set_pin (Addr a) value w1
       = Ret 0 (log [EvWrite (-1) (if value =? 0 then "0"%char else "1"%char) false] w1).
Proof.
  intros H Hfds. exists (after_stop a s w). split; [exact (pwm_stop_run a s w H)|].
  erewrite pwm_set_pin_run by (rewrite heap_after_stop; apply lookup_insert_eq).
  cbn [call_events f_value set_f_value].
  rewrite bool_decide_eq_false_2; [reflexivity|].
  rewrite fds_after_stop. intros Hin.
  assert (Hin' : -1 ∈ fds w).
  { destruct (0 <=? f_value s); [|exact Hin].
    apply elem_of_difference in Hin as [Hin _]. exact Hin. }
  specialize (Hfds _ Hin'). lia.
Qed.

(** X6, an instance: a running instance, [pwm_set_pin (self, 1)] after
    [pwm_stop]. *)
Lemma set_pin_after_stop_witness :
  exists w1,
    pwm_stop (Addr 1) (Ex.running 20000 10000 10000) = Ret tt w1
    /\ pwm_set_pin (Addr 1) 1 w1 = Ret 0 (log [EvWrite (-1) "1"%char false] w1).
Proof.
  apply (set_pin_after_stop 1 (Ex.instance 20000 10000 10000) (Ex.running 20000 10000 10000) 1);
    [reflexivity|].
  intros fd Hfd. unfold Ex.running in Hfd. cbn [fds] in Hfd.
  apply elem_of_singleton in Hfd. subst fd. lia.
Defined.

Section Setup.

(** A [pwm_start] that gets its descriptor, whether or not it gets a
    thread. *)
Lemma pwm_start_handle (a : positive) (s : PWM) (w : World) (cycle : Z) (fd : N)
    (error : bool) :
  heap w !! a = Some s ->
  k_fopen_w (kernel w) gpio_export = SysOk tt ->
  k_open_wr (kernel w) (gpio_attr (pin s) "value") = SysOk fd ->
  exists w1 d,
    pwm_start (Addr a) cycle error w = Ret (TRUE, None) w1
    /\ kernel w1 = kernel w
    /\ heap w1 = <[a := started_instance (thread_id w) cycle (set_f_value (Z.of_N fd) s)]>
                   (heap w)
    /\ fds w1 = {[Z.of_N fd]} ∪ fds w
    /\ trace w1 = trace w ++ [EvFile gpio_export (CInt.dec (pin s))] ++ d
                  ++ [EvOpen (gpio_attr (pin s) "value") (Z.of_N fd)]
                  ++ thread_events a w ++ [EvDetach (thread_id w)]
    /\ writes d = 0%nat /\ existsb is_close d = false.
Proof.
  intros H Hexp Hopen.
  pose proof (pwm_start_run a s cycle error w H) as Hstart.
  rewrite Hexp in Hstart.
  assert (Hofd : opened_fd (pin s) w = Z.of_N fd) by (unfold opened_fd; rewrite Hopen; reflexivity).
  rewrite Hofd in Hstart. unfold thread_id, thread_events.
  destruct (k_thread (kernel w)) as [tid|e];
    (eexists;
     exists match k_fopen_w (kernel w) (gpio_attr (pin s) "direction") with
            | SysOk _ => [EvFile (gpio_attr (pin s) "direction") "out"]
            | SysErr _ => []
            end;
     split; [exact Hstart|];
     cbn [poke with_heap log kernel heap fds trace];
     rewrite after_setup_kernel, after_setup_heap, Hofd, fds_after_setup,
       trace_after_setup_eq, Hopen;
     rewrite insert_insert_eq, <- !app_assoc;
     repeat (split; [reflexivity|]);
     destruct (k_fopen_w _ (gpio_attr _ "direction")); split; reflexivity).
Qed.

Lemma thread_events_quiet (a : positive) (w : World) :
  writes (thread_events a w) = 0%nat /\ existsb is_close (thread_events a w) = false.
Proof. unfold thread_events. destruct (k_thread (kernel w)); split; reflexivity. Qed.

(** A [pwm_start] that gets its descriptor and its thread. *)
Lemma pwm_start_opened (a : positive) (s : PWM) (w : World) (cycle tid : Z) (fd : N)
    (error : bool) :
  heap w !! a = Some s ->
  k_fopen_w (kernel w) gpio_export = SysOk tt ->
  k_open_wr (kernel w) (gpio_attr (pin s) "value") = SysOk fd ->
  k_thread (kernel w) = SysOk tid ->
  exists w1 d,
    pwm_start (Addr a) cycle error w = Ret (TRUE, None) w1
    /\ kernel w1 = kernel w
    /\ heap w1 = <[a := started_instance tid cycle (set_f_value (Z.of_N fd) s)]> (heap w)
    /\ fds w1 = {[Z.of_N fd]} ∪ fds w
    /\ trace w1 = trace w ++ [EvFile gpio_export (CInt.dec (pin s))] ++ d
                  ++ [EvOpen (gpio_attr (pin s) "value") (Z.of_N fd)]
                  ++ [EvThread tid (Addr a); EvDetach tid]
    /\ writes d = 0%nat /\ existsb is_close d = false.
Proof.
  intros H Hexp Hopen Hth.
  pose proof (pwm_start_run a s cycle error w H) as Hstart.
  rewrite Hexp, Hth in Hstart.
  assert (Hofd : opened_fd (pin s) w = Z.of_N fd) by (unfold opened_fd; rewrite Hopen; reflexivity).
  rewrite Hofd in Hstart.
  eexists.
  exists match k_fopen_w (kernel w) (gpio_attr (pin s) "direction") with
         | SysOk _ => [EvFile (gpio_attr (pin s) "direction") "out"]
         | SysErr _ => []
         end.
  split; [exact Hstart|].
  cbn [poke with_heap log kernel heap fds trace].
  rewrite after_setup_kernel, after_setup_heap, Hofd, fds_after_setup, trace_after_setup_eq, Hopen.
  rewrite insert_insert_eq, <- !app_assoc.
  repeat (split; [reflexivity|]).
  destruct (k_fopen_w _ (gpio_attr _ "direction")); split; reflexivity.
Qed.

End Setup.



(** X8.  A successful [pwm_start] followed by [pwm_stop] gives back the
    descriptor it took: when [open] returns a descriptor that was not open
    before, the set of open descriptors after [pwm_stop] is the one before
    [pwm_start], that descriptor has been closed by [pwm_stop] and by nothing
    earlier, and neither call has written to the pin.  The instance is left
    with the stop flag up, [f_value = -1], the requested cycle length and
    the intervals of a zero duty. *)
Theorem start_stop_round_trip (a : positive) (s : PWM) (w : World)
    (cycle tid : Z) (fd : N) (error : bool) :
  heap w !! a = Some s ->
  k_fopen_w (kernel w) gpio_export = SysOk tt ->
  k_open_wr (kernel w) (gpio_attr (pin s) "value") = SysOk fd ->
  k_thread (kernel w) = SysOk tid ->
  Z.of_N fd ∉ fds w ->
  exists w1 w2,
    pwm_start (Addr a) cycle error w = Ret (TRUE, None) w1
    /\ fds w1 = {[Z.of_N fd]} ∪ fds w
    /\ pwm_stop (Addr a) w1 = Ret tt w2
    /\ fds w2 = fds w
    /\ heap w2 = <[a := mkPWM (pin s) tid true (-1) cycle 0 cycle]> (heap w)
    /\ writes (trace w2) = writes (trace w)
    /\ existsb is_close (trace w1) = existsb is_close (trace w)
    /\ In (EvClose (Z.of_N fd)) (trace w2).
Proof.
  intros H Hexp Hopen Hth Hfd.
  destruct (pwm_start_opened a s w cycle tid fd error H Hexp Hopen Hth)
    as (w1 & d & Hstart & Hk1 & Hh1 & Hfds1 & Htr1 & Hwd & Hcd).
  set (s1 := started_instance tid cycle (set_f_value (Z.of_N fd) s)) in *.
  assert (H1 : heap w1 !! a = Some s1) by (rewrite Hh1; apply lookup_insert_eq).
  assert (Hpos : (0 <=? f_value s1) = true) by (apply Z.leb_le; cbn; lia).
  exists w1, (after_stop a s1 w1).
  split; [exact Hstart|]. split; [exact Hfds1|].
  split; [exact (pwm_stop_run a s1 w1 H1)|].
  split; [|split; [|split; [|split]]].
  - rewrite fds_after_stop, Hpos, Hfds1. cbn [s1 f_value started_instance set_pthread
      set_off_usec set_on_usec set_cycle_usec set_stop set_f_value].
    apply set_eq. intros y.
    rewrite elem_of_difference, elem_of_union, !elem_of_singleton.
    split; [intros [[->|Hy] Hn]; [contradiction|exact Hy]|].
    intros Hy. split; [right; exact Hy|intros ->; contradiction].
  - rewrite heap_after_stop, Hh1, insert_insert_eq. reflexivity.
  - rewrite trace_after_stop, Hpos, Htr1. rewrite !writes_app, Hwd.
    destruct (k_fopen_w (kernel w1) gpio_unexport);
      unfold writes in *; cbn [List.filter is_write length]; lia.
  - rewrite Htr1, !existsb_app, Hcd. cbn. rewrite !orb_false_r. reflexivity.
  - rewrite trace_after_stop, Hpos. apply in_or_app. right. apply in_or_app. right.
    left. reflexivity.
Qed.

(** X8, an instance: pin 17, [open] returns descriptor 3. *)
Lemma start_stop_round_trip_witness :
  exists w1 w2,
    pwm_start (Addr 1) 20000 true (Ex.created Ex.kernel_ok) = Ret (TRUE, None) w1
    /\ fds w1 = {[3]} ∪ ∅
    /\ pwm_stop (Addr 1) w1 = Ret tt w2
    /\ fds w2 = ∅
    /\ heap w2 = <[1%positive := mkPWM 17 1 true (-1) 20000 0 20000]>
                   (heap (Ex.created Ex.kernel_ok))
    /\ writes (trace w2) = 0%nat
    /\ existsb is_close (trace w1) = false
    /\ In (EvClose 3) (trace w2).
Proof.
  apply (start_stop_round_trip 1 Ex.idle (Ex.created Ex.kernel_ok) 20000 1 3 true);
    [reflexivity|reflexivity|reflexivity|reflexivity|].
  unfold Ex.created. cbn [fds]. apply not_elem_of_empty.
Defined.

(** X9.  The result of the "direction" write is dropped: when the export
    file opens and the "direction" attribute does not, [pwm_start] still
    opens the "value" attribute, starts the thread and returns TRUE with no
    message; nothing was written to "direction", and [errno] is left at the
    error of the failed [fopen]. *)
Theorem start_ignores_direction_failure (a : positive) (s : PWM) (w : World)
    (cycle tid e : Z) (fd : N) (error : bool) :
  heap w !! a = Some s ->
  k_fopen_w (kernel w) gpio_export = SysOk tt ->
  k_fopen_w (kernel w) (gpio_attr (pin s) "direction") = SysErr e ->
  k_open_wr (kernel w) (gpio_attr (pin s) "value") = SysOk fd ->
  k_thread (kernel w) = SysOk tid ->
  exists w',
    pwm_start (Addr a) cycle error w = Ret (TRUE, None) w'
    /\ errno w' = e
    /\ trace w' =
       trace w ++ [EvFile gpio_export (CInt.dec (pin s));
                   EvOpen (gpio_attr (pin s) "value") (Z.of_N fd);
                   EvThread tid (Addr a); EvDetach tid].
Proof.
  intros H Hexp Hdir Hopen Hth.
  rewrite (pwm_start_run a s cycle error w H), Hexp, Hth.
  eexists. split; [reflexivity|].
  cbn [poke with_heap log errno trace].
  rewrite errno_after_setup, trace_after_setup_eq, Hopen, Hdir.
  split; [reflexivity|]. rewrite <- !app_assoc. reflexivity.
Qed.

(** X9, an instance: pin 17, the direction attribute cannot be opened
    (EACCES). *)
Lemma start_ignores_direction_failure_witness :
  exists w',
    pwm_start (Addr 1) 20000 true (Ex.created Ex.kernel_no_direction) = Ret (TRUE, None) w'
    /\ errno w' = 13
    /\ trace w' =
       [] ++ [EvFile gpio_export (CInt.dec 17); EvOpen (gpio_attr 17 "value") (Z.of_N 3);
              EvThread 1 (Addr 1); EvDetach 1].
Proof.
  exact (start_ignores_direction_failure 1 Ex.idle (Ex.created Ex.kernel_no_direction)
           20000 1 13 3 true eq_refl eq_refl eq_refl eq_refl eq_refl).
Defined.

(** ** Setting the duty cycle *)

(** X10.  [pwm_set_duty] computes from [cycle_usec] and the fraction
    alone: after a call that returned, a second call has the outcome it
    would have had without the first, so of two fractions the last one
    wins. *)
Theorem set_duty_last_wins (a : positive) (w w1 : World) (d1 d2 : Double.double) :
  pwm_set_duty (Addr a) d1 w = Ret tt w1 ->
  pwm_set_duty (Addr a) d2 w1 = pwm_set_duty (Addr a) d2 w.
Proof.
  intros H1.
  destruct (heap w !! a) as [s|] eqn:Hs.
  - rewrite (pwm_set_duty_run w a s d1 Hs) in H1.
    rewrite (pwm_set_duty_run w a s d2 Hs).
    destruct (Double.to_int (Double.mul (Double.of_int (cycle_usec s)) d1)) as [on1|];
      [|discriminate H1].
    destruct (CInt.sub (cycle_usec s) on1) as [off1|]; [|discriminate H1].
    injection H1 as <-.
    erewrite pwm_set_duty_run by (cbn [heap with_heap]; apply lookup_insert_eq).
    cbn [cycle_usec set_intervals set_off_usec set_on_usec].
    destruct (Double.to_int _) as [on2|]; [|reflexivity].
    destruct (CInt.sub _ _) as [off2|]; [|reflexivity].
    cbn [heap with_heap]. rewrite insert_insert_eq. reflexivity.
  - exfalso. unfold pwm_set_duty in H1.
    rewrite bind_unfold in H1. cbn [assert_nonnull] in H1.
    unfold mret at 1, M_ret at 1 in H1.
    rewrite bind_unfold, (load_dangling a w Hs) in H1. discriminate H1.
Qed.

(** X10, an instance: 0.5, then 0.025. *)
Lemma set_duty_last_wins_witness :
  pwm_set_duty (Addr 1) Double.half (Ex.running 20000 0 20000)
  = Ret tt (Ex.running 20000 10000 10000)
  /\ pwm_set_duty (Addr 1) Ex.servo_min (Ex.running 20000 10000 10000)
     = pwm_set_duty (Addr 1) Ex.servo_min (Ex.running 20000 0 20000).
Proof.
  assert (H : pwm_set_duty (Addr 1) Double.half (Ex.running 20000 0 20000)
              = Ret tt (Ex.running 20000 10000 10000)) by (vm_compute; reflexivity).
  split; [exact H|].
  exact (set_duty_last_wins 1 _ _ Double.half Ex.servo_min H).
Defined.

(** X11.  For a cycle length that is a nonnegative [int] and a fraction in
    [0.0, 1.0], [pwm_set_duty] returns, and both intervals lie between 0 and
    the cycle length (and add up to it). *)
Theorem unit_fraction_intervals (w : World) (a : positive) (s : PWM) (duty : Double.double) :
  heap w !! a = Some s ->
  0 <= cycle_usec s <= CInt.INT_MAX ->
  Double.is_double duty ->
  Double.leb Double.zero duty = true -> Double.leb duty Double.one = true ->
  exists on off,
    duty_result w a duty = Some (on, off)
    /\ 0 <= on <= cycle_usec s /\ 0 <= off <= cycle_usec s
    /\ on + off = cycle_usec s.
Proof.
  intros H Hc Hv H0 H1. unfold CInt.INT_MAX in Hc.
  assert (Hin : CInt.in_int (cycle_usec s) = true)
    by (apply in_int_iff; unfold CInt.INT_MIN, CInt.INT_MAX; lia).
  destruct (unit_fraction_defined s duty Hin Hv H0 H1) as (on & Hon & Hoff & Habs & Hsg).
  exists on, (cycle_usec s - on).
  rewrite (duty_result_run w a s duty H), Hon. unfold CInt.sub. rewrite Hoff.
  split; [reflexivity|]. nia.
Qed.

(** X11, an instance: cycle length 2000, fraction 0.025. *)
Lemma unit_fraction_intervals_witness :
  exists on off,
    duty_result (Ex.running 2000 0 2000) 1 Ex.servo_min = Some (on, off)
    /\ 0 <= on <= 2000 /\ 0 <= off <= 2000 /\ on + off = 2000.
Proof.
  apply (unit_fraction_intervals (Ex.running 2000 0 2000) 1 (Ex.instance 2000 0 2000)
           Ex.servo_min); try reflexivity.
  cbn. unfold CInt.INT_MAX. lia.
Defined.

(** X12.  The conversion of [cycle_usec] to [double] in [pwm_set_duty] is
    exact: converted back with [(int)], every [int] is itself. *)
Theorem int_to_double_is_exact (c : Z) :
  CInt.in_int c = true -> Double.to_int (Double.of_int c) = Some c.
Proof.
  intros Hc. apply to_int_some. split; [|exact Hc].
  apply in_int_iff in Hc. unfold CInt.INT_MIN, CInt.INT_MAX in Hc.
  destruct (Z.eq_dec c 0) as [->|Hne]; [reflexivity|].
  destruct (of_int_finite c Hne) as (m & sh & Hsh & Hm & ->); [lia|].
  cbn [Double.trunc]. f_equal.
  rewrite Z.shiftl_div_pow2 by lia.
  rewrite Z.opp_involutive, Hm, Z.div_mul by (apply Z.pow_nonzero; lia).
  destruct (Z.ltb_spec c 0); cbn [cond_Zopp]; lia.
Qed.

(** X12, an instance: the largest [int]. *)
Lemma int_to_double_is_exact_witness :
  CInt.in_int CInt.INT_MAX = true
  /\ Double.to_int (Double.of_int CInt.INT_MAX) = Some CInt.INT_MAX.
Proof. split; [reflexivity|]. apply int_to_double_is_exact. reflexivity. Defined.

(** X13.  An infinite or NaN fraction has no defined result, whatever the
    cycle length: the product is infinite or NaN and the cast to [int] is
    undefined.  At the console an infinite value is above 0.0, so [main]
    hands it to [pwm_set_duty]. *)
Theorem non_finite_fraction_undefined (a : positive) (s : PWM) (w : World)
    (duty : Double.double) :
  heap w !! a = Some s ->
  duty = S754_nan \/ (exists b, duty = S754_infinity b) ->
  pwm_set_duty (Addr a) duty w = Crash Undefined
  /\ (duty = S754_infinity false ->
      forall val rest,
        Double.ltb Double.zero val = true ->
        main_loop (Addr a) val (Some duty :: rest) w = Crash Undefined).
Proof.
  intros H Hd.
  assert (Hrun : pwm_set_duty (Addr a) duty w = Crash Undefined).
  { rewrite (pwm_set_duty_run w a s duty H).
    assert (Hm : Double.to_int (Double.mul (Double.of_int (cycle_usec s)) duty) = None).
    { unfold Double.mul, SFmul.
      destruct Hd as [->|[b ->]]; destruct (Double.of_int (cycle_usec s)); reflexivity. }
    rewrite Hm. reflexivity. }
  split; [exact Hrun|].
  intros -> val rest Hval. rewrite main_loop_eq, Hval. cbv zeta.
  change (Double.ltb Double.zero (S754_infinity false)) with true. cbv iota.
  rewrite bind_unfold. unfold emit at 1, modify at 1. cbv beta iota.
  rewrite !bind_unfold.
  assert (Hrun' : pwm_set_duty (Addr a) (S754_infinity false) (log [EvPrompt] w)
                  = Crash Undefined).
  { rewrite (pwm_set_duty_run (log [EvPrompt] w) a s _ H).
    destruct (Double.of_int (cycle_usec s)); reflexivity. }
  rewrite Hrun'. reflexivity.
Qed.

(** X13, an instance: cycle length 20000 and +infinity. *)
Lemma non_finite_fraction_undefined_witness :
  pwm_set_duty (Addr 1) (S754_infinity false) (Ex.running 20000 0 20000) = Crash Undefined
  /\ main_loop (Addr 1) Double.one [Some (S754_infinity false)] (Ex.running 20000 0 20000)
     = Crash Undefined.
Proof.
  destruct (non_finite_fraction_undefined 1 (Ex.instance 20000 0 20000)
              (Ex.running 20000 0 20000) (S754_infinity false) eq_refl
              (or_intror (ex_intro _ false eq_refl))) as [H1 H2].
  split; [exact H1|]. exact (H2 eq_refl Double.one [] eq_refl).
Defined.

(** ** The loop on its own *)

Section Alone.

Variable a : positive.
Variable s : PWM.
Hypothesis running : stop s = false.

(** A step of the loop leaves the heap and the descriptors alone. *)
Lemma loop_step_frame (pc : loop_pc) (w : World) :
  heap w !! a = Some s ->
  exists w', loop_thread_step (Addr a) pc w = Ret (fst (pwm_loop_step pc s)) w'
             /\ heap w' = heap w /\ fds w' = fds w /\ kernel w' = kernel w.
Proof.
  intros H. rewrite (loop_thread_step_run a s pc w H).
  eexists. split; [reflexivity|]. destruct (snd _); repeat split.
Qed.

Lemma loop_step_stays (pc : loop_pc) :
  pc <> Returned -> fst (pwm_loop_step pc s) <> Returned.
Proof.
  intros Hpc. destruct pc; cbn [pwm_loop_step fst]; rewrite ?running;
    try destruct (on_usec s =? 0); try destruct (off_usec s =? 0);
    try discriminate; contradiction.
Qed.

Lemma pwm_loop_alone (fuel : nat) (pc : loop_pc) (w : World) :
  heap w !! a = Some s -> pc <> Returned ->
  exists pc' w', pwm_loop fuel (Addr a) pc w = Ret pc' w'
                 /\ pc' <> Returned /\ heap w' = heap w /\ fds w' = fds w.
Proof.
  revert pc w. induction fuel as [|fuel IH]; intros pc w H Hpc.
  - exists pc, w. repeat split. exact Hpc.
  - cbn [pwm_loop]. rewrite bind_unfold.
    destruct (loop_step_frame pc w H) as (w1 & -> & Hh & Hf & _).
    pose proof (loop_step_stays pc Hpc) as Hpc'.
    destruct (IH (fst (pwm_loop_step pc s)) w1) as (pc2 & w2 & Hrun & Hpc2 & Hh2 & Hf2);
      [rewrite Hh; exact H|exact Hpc'|].
    exists pc2, w2.
    split; [|split; [exact Hpc2|split; congruence]].
    destruct (fst (pwm_loop_step pc s)); try exact Hrun. contradiction.
Qed.

Lemma pwm_loop_S (fuel : nat) (pc : loop_pc) (w : World) :
  heap w !! a = Some s -> pc <> Returned ->
  pwm_loop (S fuel) (Addr a) pc w
  = pwm_loop fuel (Addr a) (fst (pwm_loop_step pc s))
      match snd (pwm_loop_step pc s) with
      | Some c => log (call_events s w c) w
      | None => w
      end.
Proof.
  intros H Hpc. cbn [pwm_loop].
  rewrite bind_unfold, (loop_thread_step_run a s pc w H).
  pose proof (loop_step_stays pc Hpc) as Hpc'.
  destruct (fst (pwm_loop_step pc s)); try reflexivity. contradiction.
Qed.

(** One pass, whatever comes after it. *)
Lemma pwm_loop_pass (fuel : nat) (w : World) :
  heap w !! a = Some s ->
  pwm_loop (pass_steps s + fuel) (Addr a) AtWhile w
  = pwm_loop fuel (Addr a) AtWhile
      (log (pass_events s (bool_decide (f_value s ∈ fds w))) w).
Proof.
  intros H. unfold pass_steps, pass_events.
  destruct (on_usec s =? 0) eqn:Eon; destruct (off_usec s =? 0) eqn:Eoff;
    cbn [Nat.add app];
    repeat (rewrite pwm_loop_S by (first [exact H|discriminate]);
            cbn [pwm_loop_step fst snd call_events];
            rewrite ?running, ?Eon, ?Eoff);
    unfold log; cbn [kernel heap errno fds trace Z.eqb];
    rewrite <- ?app_assoc; reflexivity.
Qed.

Lemma pwm_loop_passes (n : nat) (w : World) :
  heap w !! a = Some s ->
  pwm_loop (n * pass_steps s) (Addr a) AtWhile w
  = Ret AtWhile
      (log (concat (replicate n (pass_events s (bool_decide (f_value s ∈ fds w))))) w).
Proof.
  revert w. induction n as [|n IH]; intros w H.
  - cbn. unfold log. rewrite app_nil_r. destruct w; reflexivity.
  - cbn [Nat.mul]. rewrite (pwm_loop_pass _ w H).
    rewrite IH by exact H. cbn [fds log replicate concat].
    unfold log. cbn [kernel heap errno fds trace]. rewrite <- app_assoc. reflexivity.
Qed.

End Alone.

Section Sleeping.

Lemma slept_app (t u : list event) : slept (t ++ u) = slept t + slept u.
Proof.
  induction t as [|e t IH]; [reflexivity|].
  destruct e; cbn [app slept]; rewrite IH; lia.
Qed.

Lemma slept_pass (s : PWM) (live : bool) :
  slept (pass_events s live) = CInt.useconds (on_usec s) + CInt.useconds (off_usec s).
Proof.
  unfold pass_events.
  destruct (on_usec s =? 0); destruct (off_usec s =? 0); cbn [app slept]; lia.
Qed.

Lemma slept_replicate (n : nat) (evs : list event) :
  slept (concat (replicate n evs)) = Z.of_nat n * slept evs.
Proof.
  induction n as [|n IH]; [reflexivity|].
  cbn [replicate concat]. rewrite slept_app, IH. lia.
Qed.

End Sleeping.

(** X14.  While the stop flag is down and nobody else touches the
    instance, [pwm_loop] does not return, however many steps it is given;
    it does not fail either, and leaves the heap and the open descriptors
    as they are. *)
Theorem loop_runs_until_stopped (a : positive) (s : PWM) (w : World) (fuel : nat) :
  heap w !! a = Some s -> stop s = false ->
  exists pc w',
    pwm_loop fuel (Addr a) AtWhile w = Ret pc w'
    /\ pc <> Returned /\ heap w' = heap w /\ fds w' = fds w.
Proof.
  intros H Hs. apply (pwm_loop_alone a s Hs fuel AtWhile w H). discriminate.
Qed.

(** X14, an instance: a thousand steps at one half of 20000. *)
Lemma loop_runs_until_stopped_witness :
  exists pc w',
    pwm_loop 1000 (Addr 1) AtWhile (Ex.running 20000 10000 10000) = Ret pc w'
    /\ pc <> Returned
    /\ heap w' = heap (Ex.running 20000 10000 10000)
    /\ fds w' = fds (Ex.running 20000 10000 10000).
Proof.
  exact (loop_runs_until_stopped 1 (Ex.instance 20000 10000 10000)
           (Ex.running 20000 10000 10000) 1000 eq_refl eq_refl).
Defined.

(** X15.  Undisturbed, with the stop flag down, [n] passes of the loop
    add [n] copies of the same events to the trace: '1' written to the
    handle unless [on_usec] is zero, a sleep of [on_usec], '0' written
    unless [off_usec] is zero, a sleep of [off_usec]; after them the loop
    stands at its [while] test again. *)
Theorem loop_repeats_pass (a : positive) (s : PWM) (w : World) (n : nat) :
  heap w !! a = Some s -> stop s = false ->
  pwm_loop (n * pass_steps s) (Addr a) AtWhile w
  = Ret AtWhile
      (log (concat (replicate n (pass_events s (bool_decide (f_value s ∈ fds w))))) w).
Proof. intros H Hs. exact (pwm_loop_passes a s Hs n w H). Qed.

(** X15, an instance: two passes at one quarter of 20000. *)
Lemma loop_repeats_pass_witness :
  pwm_loop (2 * 8) (Addr 1) AtWhile (Ex.running 20000 5000 15000)
  = Ret AtWhile
      (log [EvWrite 3 "1" true; EvSleep 5000; EvWrite 3 "0" true; EvSleep 15000;
            EvWrite 3 "1" true; EvSleep 5000; EvWrite 3 "0" true; EvSleep 15000]
         (Ex.running 20000 5000 15000)).
Proof.
  exact (loop_repeats_pass 1 (Ex.instance 20000 5000 15000) (Ex.running 20000 5000 15000) 2
           eq_refl eq_refl).
Defined.

(** X16.  After [pwm_set_duty] with a fraction in [0.0, 1.0] (the cycle
    length being a nonnegative [int]) every pass of the undisturbed loop
    asks [usleep] for exactly one cycle length in total: [n] passes sleep
    [n * cycle_usec] microseconds, whatever the fraction. *)
Theorem pass_sleeps_one_cycle (a : positive) (s : PWM) (w : World)
    (duty : Double.double) (n : nat) :
  heap w !! a = Some s -> stop s = false ->
  0 <= cycle_usec s <= CInt.INT_MAX ->
  Double.is_double duty ->
  Double.leb Double.zero duty = true -> Double.leb duty Double.one = true ->
  exists w1 s1 evs,
    pwm_set_duty (Addr a) duty w = Ret tt w1
    /\ heap w1 !! a = Some s1
    /\ pwm_loop (n * pass_steps s1) (Addr a) AtWhile w1 = Ret AtWhile (log evs w1)
    /\ slept evs = Z.of_nat n * cycle_usec s.
Proof.
  intros H Hs Hc Hv H0 H1.
  assert (Hin : CInt.in_int (cycle_usec s) = true)
    by (apply in_int_iff; unfold CInt.INT_MIN, CInt.INT_MAX in *; lia).
  destruct (unit_fraction_defined s duty Hin Hv H0 H1) as (on & Hon & Hoff & Habs & Hsg).
  pose proof (pwm_set_duty_run w a s duty H) as Hrun.
  unfold duty_product in Hon. rewrite Hon in Hrun. unfold CInt.sub in Hrun.
  rewrite Hoff in Hrun.
  set (s1 := set_intervals on (cycle_usec s - on) s) in *.
  set (w1 := with_heap _ w) in *.
  assert (Hs1 : heap w1 !! a = Some s1) by apply lookup_insert_eq.
  exists w1, s1, (concat (replicate n (pass_events s1 (bool_decide (f_value s1 ∈ fds w1))))).
  split; [exact Hrun|]. split; [exact Hs1|].
  split; [exact (pwm_loop_passes a s1 Hs n w1 Hs1)|].
  rewrite slept_replicate, slept_pass.
  cbn [s1 on_usec off_usec set_intervals set_on_usec set_off_usec].
  unfold CInt.INT_MAX in Hc.
  rewrite !useconds_id by (unfold CInt.INT_MAX; nia). lia.
Qed.

(** X16, an instance: three passes at 0.025 of 2000. *)
Lemma pass_sleeps_one_cycle_witness :
  exists w1 s1 evs,
    pwm_set_duty (Addr 1) Ex.servo_min (Ex.running 2000 0 2000) = Ret tt w1
    /\ heap w1 !! 1%positive = Some s1
    /\ pwm_loop (3 * pass_steps s1) (Addr 1) AtWhile w1 = Ret AtWhile (log evs w1)
    /\ slept evs = Z.of_nat 3 * 2000.
Proof.
  apply (pass_sleeps_one_cycle 1 (Ex.instance 2000 0 2000) (Ex.running 2000 0 2000)
           Ex.servo_min 3); try reflexivity.
  cbn. unfold CInt.INT_MAX. lia.
Defined.

(** X17.  An interval that [pwm_set_duty] has left negative (a fraction
    outside [0.0, 1.0]) reaches [usleep] converted to [useconds_t]: the loop
    asks for [2^32 + interval] microseconds, at least [2^31], instead of a
    short or no sleep. *)
Theorem negative_interval_sleeps_long (a : positive) (w w1 : World) (s1 : PWM)
    (duty : Double.double) :
  pwm_set_duty (Addr a) duty w = Ret tt w1 ->
  heap w1 !! a = Some s1 ->
  (on_usec s1 < 0 ->
   loop_thread_step (Addr a) AtOnSleep w1
   = Ret AtStopTest (log [EvSleep (2 ^ 32 + on_usec s1)] w1)
   /\ 2 ^ 31 <= 2 ^ 32 + on_usec s1)
  /\ (off_usec s1 < 0 ->
      loop_thread_step (Addr a) AtOffSleep w1
      = Ret AtWhile (log [EvSleep (2 ^ 32 + off_usec s1)] w1)
      /\ 2 ^ 31 <= 2 ^ 32 + off_usec s1).
Proof.
  intros Hrun Hs1.
  assert (Hint : CInt.in_int (on_usec s1) = true /\ CInt.in_int (off_usec s1) = true).
  { destruct (heap w !! a) as [s|] eqn:Hs.
    - rewrite (pwm_set_duty_run w a s duty Hs) in Hrun.
      destruct (Double.to_int _) as [on|] eqn:Hon; [|discriminate Hrun].
      unfold CInt.sub in Hrun.
      destruct (CInt.in_int (cycle_usec s - on)) eqn:Hoff; [|discriminate Hrun].
      injection Hrun as <-. cbn [heap with_heap] in Hs1.
      rewrite lookup_insert_eq in Hs1. injection Hs1 as <-.
      apply to_int_some in Hon as [_ Hon]. split; assumption.
    - exfalso. unfold pwm_set_duty in Hrun.
      rewrite bind_unfold in Hrun. cbn [assert_nonnull] in Hrun.
      unfold mret at 1, M_ret at 1 in Hrun.
      rewrite bind_unfold, (load_dangling a w Hs) in Hrun. discriminate Hrun. }
  destruct Hint as [Hon Hoff]. apply in_int_iff in Hon, Hoff.
  unfold CInt.INT_MIN, CInt.INT_MAX in *.
  split; intros Hneg; rewrite (loop_thread_step_run a s1 _ w1 Hs1);
    cbn [pwm_loop_step fst snd call_events]; unfold CInt.useconds.
  - replace (on_usec s1 mod 2 ^ 32) with (2 ^ 32 + on_usec s1); [split; [reflexivity|lia]|].
    apply Z.mod_unique with (q := -1); lia.
  - replace (off_usec s1 mod 2 ^ 32) with (2 ^ 32 + off_usec s1); [split; [reflexivity|lia]|].
    apply Z.mod_unique with (q := -1); lia.
Qed.

(** X17, an instance: fraction -0.5 of 20000, a sleep of 4294957296
    microseconds. *)
Lemma negative_interval_sleeps_long_witness :
  pwm_set_duty (Addr 1) Ex.minus_half (Ex.running 20000 0 20000)
  = Ret tt (Ex.running 20000 (-10000) 30000)
  /\ loop_thread_step (Addr 1) AtOnSleep (Ex.running 20000 (-10000) 30000)
     = Ret AtStopTest (log [EvSleep (2 ^ 32 + -10000)] (Ex.running 20000 (-10000) 30000))
  /\ 2 ^ 31 <= 2 ^ 32 + -10000.
Proof.
  assert (H : pwm_set_duty (Addr 1) Ex.minus_half (Ex.running 20000 0 20000)
              = Ret tt (Ex.running 20000 (-10000) 30000)) by (vm_compute; reflexivity).
  split; [exact H|].
  apply (proj1 (negative_interval_sleeps_long 1 _ _ (Ex.instance 20000 (-10000) 30000)
                  Ex.minus_half H eq_refl)).
  cbn. lia.
Defined.

(** X18.  A started instance is off: after a [pwm_start] that got its
    descriptor, every pass of the undisturbed loop is a sleep of 0, '0'
    written to that descriptor and a sleep of the cycle length.  The cycle
    length is not checked: when it is 0 the loop writes nothing and only
    asks for sleeps of 0. *)
Theorem started_loop_holds_low (a : positive) (s : PWM) (w : World)
    (cycle tid : Z) (fd : N) (error : bool) (n : nat) :
  heap w !! a = Some s ->
  k_fopen_w (kernel w) gpio_export = SysOk tt ->
  k_open_wr (kernel w) (gpio_attr (pin s) "value") = SysOk fd ->
  k_thread (kernel w) = SysOk tid ->
  exists w1,
    pwm_start (Addr a) cycle error w = Ret (TRUE, None) w1
    /\ pwm_loop (n * (if cycle =? 0 then 6 else 7)) (Addr a) AtWhile w1
       = Ret AtWhile
           (log (concat (replicate n
                   (EvSleep 0
                    :: (if cycle =? 0 then [] else [EvWrite (Z.of_N fd) "0" true])
                    ++ [EvSleep (CInt.useconds cycle)]))) w1).
Proof.
  intros H Hexp Hopen Hth.
  destruct (pwm_start_opened a s w cycle tid fd error H Hexp Hopen Hth)
    as (w1 & d & Hstart & Hk1 & Hh1 & Hfds1 & Htr1 & Hwd & Hcd).
  exists w1. split; [exact Hstart|].
  set (s1 := started_instance tid cycle (set_f_value (Z.of_N fd) s)) in *.
  assert (H1 : heap w1 !! a = Some s1) by (rewrite Hh1; apply lookup_insert_eq).
  pose proof (pwm_loop_passes a s1 eq_refl n w1 H1) as Hp.
  unfold pass_steps, pass_events in Hp.
  cbn [s1 started_instance on_usec off_usec f_value set_pthread set_off_usec set_on_usec
         set_cycle_usec set_stop set_f_value Z.eqb app] in Hp.
  rewrite bool_decide_eq_true_2 in Hp
    by (rewrite Hfds1; apply elem_of_union_l, elem_of_singleton; reflexivity).
  destruct (cycle =? 0); exact Hp.
Qed.

(** X18, an instance: pin 17, cycle length 20000, two passes. *)
Lemma started_loop_holds_low_witness :
  exists w1,
    pwm_start (Addr 1) 20000 true (Ex.created Ex.kernel_ok) = Ret (TRUE, None) w1
    /\ pwm_loop (2 * 7) (Addr 1) AtWhile w1
       = Ret AtWhile
           (log [EvSleep 0; EvWrite 3 "0" true; EvSleep 20000;
                 EvSleep 0; EvWrite 3 "0" true; EvSleep 20000] w1).
Proof.
  exact (started_loop_holds_low 1 Ex.idle (Ex.created Ex.kernel_ok) 20000 1 3 true 2
           eq_refl eq_refl eq_refl eq_refl).
Defined.

(** ** Levels that are never written *)

Section Levels.

Variable a : positive.

Lemma writes_of_app (c : ascii) (t u : list event) :
  writes_of c (t ++ u) = (writes_of c t + writes_of c u)%nat.
Proof. unfold writes_of. rewrite List.filter_app, length_app. reflexivity. Qed.

Lemma writes_of_le (c : ascii) (t : list event) : (writes_of c t <= writes t)%nat.
Proof.
  unfold writes_of, writes. induction t as [|e t IH]; [reflexivity|].
  cbn [List.filter]. destruct e; cbn [is_write length]; try lia.
  destruct (bool_decide _); cbn [length]; lia.
Qed.

(** With [on_usec] at zero the loop writes no '1', with [off_usec] at zero
    no '0', whatever [pwm_stop] does meanwhile. *)
Lemma step_skips_level (c : ascii) (t : thread) (σ σ' : Sys) (s : PWM) :
  heap (sys_world σ) !! a = Some s ->
  skips_level c s (loop_at σ) ->
  sys_step (Addr a) t σ = Some σ' ->
  exists s',
    heap (sys_world σ') !! a = Some s'
    /\ skips_level c s' (loop_at σ')
    /\ writes_of c (trace (sys_world σ')) = writes_of c (trace (sys_world σ)).
Proof.
  intros Hs Hskip Hstep. destruct t.
  - rewrite (sys_step_loop a σ s Hs) in Hstep. injection Hstep as <-.
    cbn [sys_world loop_at]. exists s.
    split; [destruct (snd _); exact Hs|].
    destruct Hskip as [(-> & Hz & Hpc)|(-> & Hz & Hpc)];
      pose proof (proj2 (Z.eqb_eq _ _) Hz) as Ez;
      (destruct (loop_at σ); try contradiction;
       cbn [pwm_loop_step fst snd call_events]; rewrite ?Ez;
       try destruct (stop s); try destruct (on_usec s =? 0); try destruct (off_usec s =? 0);
       (split; [first [left; repeat split; [exact Hz|discriminate]
                      |right; repeat split; [exact Hz|discriminate]]|]);
       cbn [log trace]; rewrite ?writes_of_app;
       unfold writes_of; cbn [List.filter Z.eqb];
       rewrite ?bool_decide_eq_false_2 by discriminate; cbn [length]; lia).
  - rewrite (sys_step_caller a σ s Hs) in Hstep. injection Hstep as <-.
    destruct (stop_at σ); cbn [sys_world loop_at].
    + exists (set_stop TRUE s). split; [apply lookup_insert_eq|]. split; [exact Hskip|reflexivity].
    + exists s. split; [rewrite heap_after_unexport; exact Hs|]. split; [exact Hskip|].
      destruct (trace_after_unexport (pin s) (sys_world σ)) as (evs & -> & Hev).
      rewrite writes_of_app. pose proof (writes_of_le c evs). lia.
    + exists s. split; [rewrite heap_after_close; exact Hs|]. split; [exact Hskip|].
      destruct (trace_after_close (f_value s) (sys_world σ)) as (evs & -> & Hev).
      rewrite writes_of_app. pose proof (writes_of_le c evs). lia.
    + exists (set_f_value (-1) s). split; [apply lookup_insert_eq|].
      split; [exact Hskip|reflexivity].
    + exists s. split; [exact Hs|]. split; [exact Hskip|reflexivity].
Qed.

Lemma run_skips_level (c : ascii) (sched : list thread) (σ σ' : Sys) (s : PWM) :
  heap (sys_world σ) !! a = Some s ->
  skips_level c s (loop_at σ) ->
  sys_run (Addr a) sched σ = Some σ' ->
  writes_of c (trace (sys_world σ')) = writes_of c (trace (sys_world σ)).
Proof.
  revert σ s. induction sched as [|t sched IH]; intros σ s Hs Hskip Hrun;
    cbn [sys_run] in Hrun.
  - injection Hrun as <-. reflexivity.
  - destruct (sys_step (Addr a) t σ) as [σ1|] eqn:E; [|discriminate Hrun].
    destruct (step_skips_level c t σ σ1 s Hs Hskip E) as (s1 & Hs1 & Hskip1 & Hw).
    rewrite <- Hw. exact (IH σ1 s1 Hs1 Hskip1 Hrun).
Qed.

End Levels.

(** X19.  A zero interval suppresses its level for good: in every
    interleaving of the loop with [pwm_stop], if [on_usec] is zero no '1'
    is ever written to the pin, and if [off_usec] is zero no '0' is. *)
Theorem zero_interval_never_written (a : positive) (s : PWM) (w : World)
    (sched : list thread) (σ : Sys) :
  heap w !! a = Some s ->
  sys_run (Addr a) sched (sys_started w) = Some σ ->
  (on_usec s = 0 -> writes_of "1" (trace (sys_world σ)) = writes_of "1" (trace w))
  /\ (off_usec s = 0 -> writes_of "0" (trace (sys_world σ)) = writes_of "0" (trace w)).
Proof.
  intros H Hrun. split; intros Hz.
  - apply (run_skips_level a "1" sched (sys_started w) σ s H); [|exact Hrun].
    left. repeat split; [exact Hz|discriminate].
  - apply (run_skips_level a "0" sched (sys_started w) σ s H); [|exact Hrun].
    right. repeat split; [exact Hz|discriminate].
Qed.

(** X19, an instance: a pass at zero duty, then [pwm_stop] begins. *)
Lemma zero_interval_never_written_witness :
  sys_run (Addr 1) [Loop; Loop; Loop; Loop; Loop; Loop; Loop; Caller; Loop]
    (sys_started (Ex.running 20000 0 20000))
  = Some (mkSys (mkWorld Ex.kernel_ok {[1%positive := mkPWM 17 1 true 3 20000 0 20000]} 0 {[3]}
                   (Ex.setup_trace ++ [EvSleep 0; EvWrite 3 "0" true; EvSleep 20000]))
            Returned AtUnexport)
  /\ writes_of "1" (Ex.setup_trace ++ [EvSleep 0; EvWrite 3 "0" true; EvSleep 20000])
     = writes_of "1" Ex.setup_trace.
Proof.
  assert (Hrun : sys_run (Addr 1) [Loop; Loop; Loop; Loop; Loop; Loop; Loop; Caller; Loop]
                   (sys_started (Ex.running 20000 0 20000))
                 = Some (mkSys
                           (mkWorld Ex.kernel_ok
                              {[1%positive := mkPWM 17 1 true 3 20000 0 20000]} 0 {[3]}
                              (Ex.setup_trace
                               ++ [EvSleep 0; EvWrite 3 "0" true; EvSleep 20000]))
                           Returned AtUnexport)) by (vm_compute; reflexivity).
  split; [exact Hrun|].
  exact (proj1 (zero_interval_never_written 1 (Ex.instance 20000 0 20000)
                  (Ex.running 20000 0 20000) _ _ eq_refl Hrun) eq_refl).
Defined.

(** ** Stopping under the loop *)

Section StopUnderLoop.

Variable a : positive.
Variable s : PWM.
Variable w : World.

Lemma fds_after_unexport (p : Z) (w0 : World) : fds (after_unexport p w0) = fds w0.
Proof. unfold after_unexport. destruct (k_fopen_w _ _); reflexivity. Qed.

Lemma fds_after_close (fd : Z) (w0 : World) :
  fds (after_close fd w0) = if 0 <=? fd then fds w0 ∖ {[fd]} else fds w0.
Proof. unfold after_close. destruct (0 <=? fd); reflexivity. Qed.

Lemma step_stop_on_track (t : thread) (σ σ' : Sys) :
  stop_on_track a s w σ -> sys_step (Addr a) t σ = Some σ' ->
  stop_on_track a s w σ'
  /\ (stop_steps_left (stop_at σ')
      = stop_steps_left (stop_at σ) - (if is_loop t then 0 else 1))%nat.
Proof.
  intros [Hh Hf] Hstep.
  assert (Hs : heap (sys_world σ) !! a = Some (fst (stop_progress s (fds w) (stop_at σ))))
    by (rewrite Hh; apply lookup_insert_eq).
  destruct t.
  - rewrite (sys_step_loop a σ _ Hs) in Hstep. injection Hstep as <-.
    unfold stop_on_track. cbn [sys_world stop_at is_loop]. rewrite Nat.sub_0_r.
    split; [|reflexivity]. destruct (snd (pwm_loop_step _ _)); split; assumption.
  - rewrite (sys_step_caller a σ _ Hs) in Hstep. injection Hstep as <-.
    unfold stop_on_track in *. cbn [is_loop].
    destruct (stop_at σ); cbn [sys_world stop_at stop_progress fst snd stop_steps_left] in *;
      (split; [|reflexivity]).
    + cbn [poke with_heap heap fds]. rewrite Hh, insert_insert_eq. split; [reflexivity|exact Hf].
    + rewrite heap_after_unexport, fds_after_unexport. split; assumption.
    + rewrite heap_after_close, fds_after_close, Hf. split; [assumption|reflexivity].
    + cbn [poke with_heap heap fds]. rewrite Hh, insert_insert_eq. split; [reflexivity|exact Hf].
    + split; assumption.
Qed.

Lemma run_stop_on_track (sched : list thread) (σ σ' : Sys) :
  stop_on_track a s w σ -> sys_run (Addr a) sched σ = Some σ' ->
  stop_on_track a s w σ'
  /\ (stop_steps_left (stop_at σ') = stop_steps_left (stop_at σ) - caller_steps sched)%nat.
Proof.
  revert σ. induction sched as [|t sched IH]; intros σ Hi Hrun; cbn [sys_run] in Hrun.
  - injection Hrun as <-. split; [exact Hi|]. cbn. lia.
  - destruct (sys_step (Addr a) t σ) as [σ1|] eqn:E; [|discriminate Hrun].
    destruct (step_stop_on_track t σ σ1 Hi E) as [Hi1 Hn1].
    destruct (IH σ1 Hi1 Hrun) as [Hi' Hn'].
    split; [exact Hi'|]. rewrite Hn', Hn1.
    unfold caller_steps. cbn [List.filter]. destruct t; cbn [is_loop negb length]; lia.
Qed.

End StopUnderLoop.

(** X20.  The loop does not get in the way of [pwm_stop]: in every
    interleaving, after four steps of its caller [pwm_stop] is over, and
    when it is over the instance is the initial one with the stop flag up
    and [f_value = -1], every other block is as it was, and the open
    descriptors are the initial ones without the handle. *)
Theorem stop_completes_under_loop (a : positive) (s : PWM) (w : World)
    (sched : list thread) (σ : Sys) :
  heap w !! a = Some s ->
  sys_run (Addr a) sched (sys_started w) = Some σ ->
  ((4 <= caller_steps sched)%nat -> stop_at σ = Stopped)
  /\ (stop_at σ = Stopped ->
      heap (sys_world σ) = <[a := set_f_value (-1) (set_stop TRUE s)]> (heap w)
      /\ fds (sys_world σ) = (if 0 <=? f_value s then fds w ∖ {[f_value s]} else fds w)).
Proof.
  intros H Hrun.
  destruct (run_stop_on_track a s w sched (sys_started w) σ) as [[Hh Hf] Hn];
    [|exact Hrun|].
  { split; [|reflexivity]. cbn [sys_started sys_world stop_at stop_progress fst].
    symmetry. apply insert_id. exact H. }
  split.
  - intros H4. cbn [sys_started stop_at stop_steps_left] in Hn.
    destruct (stop_at σ); cbn [stop_steps_left] in Hn; try lia. reflexivity.
  - intros Hst. rewrite Hst in Hh, Hf. split; assumption.
Qed.

(** X20, an instance: the loop passes its test, [pwm_stop] runs, the loop goes
    on. *)
Lemma stop_completes_under_loop_witness :
  sys_run (Addr 1) Ex.late_schedule (sys_started (Ex.running 20000 10000 10000))
  = Some Ex.late_state
  /\ heap (sys_world Ex.late_state)
     = <[1%positive := set_f_value (-1) (set_stop TRUE (Ex.instance 20000 10000 10000))]>
         (heap (Ex.running 20000 10000 10000))
  /\ fds (sys_world Ex.late_state) = {[3]} ∖ {[3]}.
Proof.
  assert (Hrun : sys_run (Addr 1) Ex.late_schedule (sys_started (Ex.running 20000 10000 10000))
                 = Some Ex.late_state) by (vm_compute; reflexivity).
  split; [exact Hrun|].
  exact (proj2 (stop_completes_under_loop 1 (Ex.instance 20000 10000 10000)
                  (Ex.running 20000 10000 10000) Ex.late_schedule Ex.late_state
                  eq_refl Hrun) eq_refl).
Defined.

(** ** Setting the duty cycle under the loop *)

Section Torn.

Variable a : positive.
Variable duty : Double.double.

Lemma pwm_set_duty_step_run (s : PWM) (pc : duty_pc) (w : World) :
  heap w !! a = Some s ->
  pwm_set_duty_step (Addr a) duty pc w =
  match pc with
  | AtCast =>
      match Double.to_int (Double.mul (Double.of_int (cycle_usec s)) duty) with
      | Some on => Ret (AtDiff on) w
      | None => Crash Undefined
      end
  | AtDiff on =>
      match CInt.sub (cycle_usec s) on with
      | Some off => Ret (AtStoreOn on off) w
      | None => Crash Undefined
      end
  | AtStoreOn on off => Ret (AtStoreOff off) (poke a (set_on_usec on s) w)
  | AtStoreOff off => Ret DutySet (poke a (set_off_usec off s) w)
  | DutySet => Ret DutySet w
  end.
Proof.
  intros H. destruct pc; cbn [pwm_set_duty_step].
  - rewrite bind_unfold. cbn [assert_nonnull]. unfold mret at 1, M_ret at 1.
    rewrite bind_unfold, (load_run a s w H).
    destruct (Double.to_int _); reflexivity.
  - rewrite bind_unfold, (load_run a s w H).
    destruct (CInt.sub _ _); reflexivity.
  - rewrite bind_unfold, (store_run a s _ w H). reflexivity.
  - rewrite bind_unfold, (store_run a s _ w H). reflexivity.
  - reflexivity.
Qed.

(** [pwm_set_duty] is its four statements in sequence. *)
Lemma pwm_set_duty_steps (s : PWM) (w : World) :
  heap w !! a = Some s ->
  pwm_set_duty (Addr a) duty w =
  (pc ← pwm_set_duty_step (Addr a) duty AtCast;
   pc ← pwm_set_duty_step (Addr a) duty pc;
   pc ← pwm_set_duty_step (Addr a) duty pc;
   pwm_set_duty_step (Addr a) duty pc;;
   mret tt) w.
Proof.
  intros H. rewrite (pwm_set_duty_run w a s duty H).
  rewrite bind_unfold, (pwm_set_duty_step_run s AtCast w H).
  destruct (Double.to_int _) as [on|]; [|reflexivity].
  rewrite bind_unfold, (pwm_set_duty_step_run s (AtDiff on) w H).
  destruct (CInt.sub _ _) as [off|]; [|reflexivity].
  rewrite bind_unfold, (pwm_set_duty_step_run s (AtStoreOn on off) w H).
  rewrite bind_unfold.
  erewrite pwm_set_duty_step_run by apply lookup_insert_eq.
  unfold poke, mret, M_ret. cbn [heap with_heap]. rewrite insert_insert_eq. reflexivity.
Qed.

Lemma duet_run_app (sched sched' : list thread) (σ : Duet) :
  duet_run (Addr a) duty (sched ++ sched') σ =
  match duet_run (Addr a) duty sched σ with
  | Some σ' => duet_run (Addr a) duty sched' σ'
  | None => None
  end.
Proof.
  revert σ. induction sched as [|t sched IH]; intros σ; [reflexivity|].
  cbn [app duet_run]. destruct (duet_step _ _ t σ); [apply IH|reflexivity].
Qed.

(** The loop scheduled alone does what [pwm_loop] does. *)
Lemma duet_run_loop (s : PWM) (n : nat) (pc pc' : loop_pc) (d : duty_pc) (w w' : World) :
  heap w !! a = Some s -> stop s = false -> pc <> Returned ->
  pwm_loop n (Addr a) pc w = Ret pc' w' ->
  duet_run (Addr a) duty (replicate n Loop) (mkDuet w pc d) = Some (mkDuet w' pc' d).
Proof.
  intros H Hs. revert pc w H. induction n as [|n IH]; intros pc w H Hpc Hrun.
  - injection Hrun as <- <-. reflexivity.
  - rewrite (pwm_loop_S a s Hs n pc w H Hpc) in Hrun.
    cbn [replicate duet_run duet_step duet_loop duet_world duet_duty].
    rewrite (loop_thread_step_run a s pc w H).
    apply IH; [destruct (snd _); exact H|exact (loop_step_stays s Hs pc Hpc)|exact Hrun].
Qed.

Lemma sleeps_app (t u : list event) : sleeps (t ++ u) = sleeps t ++ sleeps u.
Proof.
  induction t as [|e t IH]; [reflexivity|].
  destruct e; cbn [app sleeps]; rewrite IH; reflexivity.
Qed.

(** A step of the loop sleeps, if at all, for an interval of the instance. *)
Lemma loop_step_sleeps (pc : loop_pc) (s : PWM) (w : World) :
  exists evs,
    trace match snd (pwm_loop_step pc s) with
          | Some c => log (call_events s w c) w
          | None => w
          end = trace w ++ evs
    /\ Forall (fun u => u = CInt.useconds (on_usec s) \/ u = CInt.useconds (off_usec s))
         (sleeps evs).
Proof.
  destruct pc; cbn [pwm_loop_step snd call_events log trace];
    first [ exists []; split; [symmetry; apply app_nil_r|constructor]
          | eexists; split; [reflexivity|]; cbn [sleeps];
            first [constructor; [auto|constructor] | constructor] ].
Qed.

(** One step of either thread: the caller moves on as [duty_progress] says,
    the loop sleeps for an interval it finds in the instance. *)
Lemma duet_step_progress (s s' : PWM) (on off : Z) (t : thread) (σ σ' : Duet) :
  Double.to_int (Double.mul (Double.of_int (cycle_usec s)) duty) = Some on ->
  CInt.sub (cycle_usec s) on = Some off ->
  heap (duet_world σ) !! a = Some s' ->
  duty_progress s on off (duet_duty σ) s' ->
  duet_step (Addr a) duty t σ = Some σ' ->
  exists s'' evs,
    heap (duet_world σ') !! a = Some s''
    /\ duty_progress s on off (duet_duty σ') s''
    /\ trace (duet_world σ') = trace (duet_world σ) ++ evs
    /\ Forall (fun u => In u [CInt.useconds (on_usec s); CInt.useconds on;
                              CInt.useconds (off_usec s); CInt.useconds off])
         (sleeps evs).
Proof.
  intros Hon Hoff Hs' Hp Hstep.
  assert (Hvals : (on_usec s' = on_usec s \/ on_usec s' = on)
                  /\ (off_usec s' = off_usec s \/ off_usec s' = off)
                  /\ cycle_usec s' = cycle_usec s).
  { destruct (duet_duty σ); cbn [duty_progress] in Hp;
      repeat match goal with H : _ /\ _ |- _ => destruct H end; subst s';
      cbn; auto. }
  destruct Hvals as (Hvon & Hvoff & Hcyc).
  destruct t; cbn [duet_step] in Hstep.
  - rewrite (loop_thread_step_run a s' _ _ Hs') in Hstep. injection Hstep as <-.
    cbn [duet_world duet_duty].
    destruct (loop_step_sleeps (duet_loop σ) s' (duet_world σ)) as (evs & Ht & Hf).
    exists s', evs. split; [destruct (snd _); exact Hs'|]. split; [exact Hp|].
    split; [exact Ht|].
    eapply Forall_impl; [exact Hf|]. cbn beta. intros u [-> | ->]; cbn [In];
      [destruct Hvon as [-> | ->]|destruct Hvoff as [-> | ->]]; auto.
  - rewrite (pwm_set_duty_step_run s' _ _ Hs') in Hstep.
    destruct (duet_duty σ) as [|on'|on' off'|off'|]; cbn [duty_progress] in Hp.
    + subst s'. rewrite Hon in Hstep. injection Hstep as <-.
      exists s, []. cbn [duet_world duet_duty duty_progress sleeps].
      rewrite app_nil_r. repeat split; auto.
    + destruct Hp as [-> ->]. rewrite Hoff in Hstep. injection Hstep as <-.
      exists s, []. cbn [duet_world duet_duty duty_progress sleeps].
      rewrite app_nil_r. repeat split; auto.
    + destruct Hp as (-> & -> & ->). injection Hstep as <-.
      exists (set_on_usec on s), []. cbn [duet_world duet_duty duty_progress sleeps].
      cbn [poke with_heap heap trace]. rewrite app_nil_r, lookup_insert_eq. repeat split; auto.
    + destruct Hp as (-> & ->). injection Hstep as <-.
      exists (set_intervals on off s), []. cbn [duet_world duet_duty duty_progress sleeps].
      cbn [poke with_heap heap trace]. rewrite app_nil_r, lookup_insert_eq. repeat split; auto.
    + injection Hstep as <-.
      exists s', []. cbn [duet_world duet_duty duty_progress sleeps].
      rewrite app_nil_r. repeat split; auto.
Qed.

Lemma duet_run_progress (s s' : PWM) (on off : Z) (sched : list thread) (σ σ' : Duet) :
  Double.to_int (Double.mul (Double.of_int (cycle_usec s)) duty) = Some on ->
  CInt.sub (cycle_usec s) on = Some off ->
  heap (duet_world σ) !! a = Some s' ->
  duty_progress s on off (duet_duty σ) s' ->
  duet_run (Addr a) duty sched σ = Some σ' ->
  exists s'' evs,
    heap (duet_world σ') !! a = Some s''
    /\ duty_progress s on off (duet_duty σ') s''
    /\ trace (duet_world σ') = trace (duet_world σ) ++ evs
    /\ Forall (fun u => In u [CInt.useconds (on_usec s); CInt.useconds on;
                              CInt.useconds (off_usec s); CInt.useconds off])
         (sleeps evs).
Proof.
  intros Hon Hoff. revert σ s'.
  induction sched as [|t sched IH]; intros σ s' Hs' Hp Hrun; cbn [duet_run] in Hrun.
  - injection Hrun as <-. exists s', []. rewrite app_nil_r. repeat split; auto.
  - destruct (duet_step (Addr a) duty t σ) as [σ1|] eqn:E; [|discriminate Hrun].
    destruct (duet_step_progress s s' on off t σ σ1 Hon Hoff Hs' Hp E)
      as (s1 & evs1 & Hs1 & Hp1 & Ht1 & Hf1).
    destruct (IH σ1 s1 Hs1 Hp1 Hrun) as (s2 & evs2 & Hs2 & Hp2 & Ht2 & Hf2).
    exists s2, (evs1 ++ evs2). split; [exact Hs2|]. split; [exact Hp2|].
    split; [rewrite Ht2, Ht1, app_assoc; reflexivity|].
    rewrite sleeps_app. apply Forall_app. split; assumption.
Qed.

End Torn.

(** X21.  [pwm_set_duty] stores the two intervals one after the other
    with nothing that keeps the loop out.  For every instance and every
    fraction with a result there is an interleaving (the caller stores
    [on_usec], the loop makes a whole pass, the caller stores [off_usec]) in
    which the pass is made with the new [on_usec] and the old [off_usec],
    and so sleeps for their sum instead of one cycle length. *)
Theorem set_duty_can_tear (a : positive) (s : PWM) (w : World) (duty : Double.double)
    (on off : Z) :
  heap w !! a = Some s -> stop s = false ->
  duty_result w a duty = Some (on, off) ->
  exists σ,
    duet_run (Addr a) duty (torn_schedule (pass_steps (set_on_usec on s)))
      (mkDuet w AtWhile AtCast) = Some σ
    /\ duet_loop σ = AtWhile /\ duet_duty σ = DutySet
    /\ heap (duet_world σ) !! a = Some (set_intervals on off s)
    /\ trace (duet_world σ)
       = trace w ++ pass_events (set_on_usec on s) (bool_decide (f_value s ∈ fds w))
    /\ slept (pass_events (set_on_usec on s) (bool_decide (f_value s ∈ fds w)))
       = CInt.useconds on + CInt.useconds (off_usec s).
Proof.
  intros H Hs Hres. rewrite (duty_result_run w a s duty H) in Hres.
  unfold duty_product in Hres.
  destruct (Double.to_int _) as [on'|] eqn:Hon; [|discriminate Hres].
  destruct (CInt.sub _ _) as [off'|] eqn:Hoff; [|discriminate Hres].
  injection Hres as -> ->.
  set (s1 := set_on_usec on s).
  set (w1 := poke a s1 w).
  assert (H1 : heap w1 !! a = Some s1) by apply lookup_insert_eq.
  pose proof (pwm_loop_pass a s1 Hs 0 w1 H1) as Hpass.
  rewrite Nat.add_0_r in Hpass. cbn [pwm_loop] in Hpass.
  unfold torn_schedule. cbn [app duet_run duet_step duet_world duet_duty duet_loop].
  rewrite (pwm_set_duty_step_run a duty s AtCast w H), Hon.
  cbn [duet_world duet_duty duet_loop].
  rewrite (pwm_set_duty_step_run a duty s _ w H), Hoff.
  cbn [duet_world duet_duty duet_loop].
  rewrite (pwm_set_duty_step_run a duty s _ w H).
  cbn [duet_world duet_duty duet_loop]. fold s1. fold w1.
  rewrite duet_run_app.
  rewrite (duet_run_loop a duty s1 _ AtWhile AtWhile _ w1 _ H1 Hs ltac:(discriminate) Hpass).
  cbn [duet_run duet_step duet_world duet_duty duet_loop].
  erewrite pwm_set_duty_step_run by exact H1.
  eexists. split; [reflexivity|].
  cbn [duet_world duet_duty duet_loop poke with_heap log heap trace fds].
  split; [reflexivity|]. split; [reflexivity|].
  split; [apply lookup_insert_eq|]. split; [reflexivity|].
  rewrite slept_pass. reflexivity.
Qed.

(** X21, an instance: from zero duty to 1.0; the pass in between sleeps two
    cycle lengths. *)
Lemma set_duty_can_tear_witness :
  duty_result (Ex.running 20000 0 20000) 1 Double.one = Some (20000, 0)
  /\ exists σ,
       duet_run (Addr 1) Double.one (torn_schedule 8)
         (mkDuet (Ex.running 20000 0 20000) AtWhile AtCast) = Some σ
       /\ duet_loop σ = AtWhile /\ duet_duty σ = DutySet
       /\ heap (duet_world σ) !! 1%positive = Some (Ex.instance 20000 20000 0)
       /\ trace (duet_world σ)
          = Ex.setup_trace
            ++ [EvWrite 3 "1" true; EvSleep 20000; EvWrite 3 "0" true; EvSleep 20000]
       /\ slept [EvWrite 3 "1" true; EvSleep 20000; EvWrite 3 "0" true; EvSleep 20000]
          = CInt.useconds 20000 + CInt.useconds 20000.
Proof.
  assert (Hres : duty_result (Ex.running 20000 0 20000) 1 Double.one = Some (20000, 0))
    by (vm_compute; reflexivity).
  split; [exact Hres|].
  exact (set_duty_can_tear 1 (Ex.instance 20000 0 20000) (Ex.running 20000 0 20000)
           Double.one 20000 0 eq_refl eq_refl Hres).
Defined.

(** X22.  Whatever the interleaving of the loop with a call of
    [pwm_set_duty], every sleep of the loop is for one of the two old or the
    two new intervals, and once the call is over the instance holds the new
    pair. *)
Theorem set_duty_race_is_bounded (a : positive) (s : PWM) (w : World)
    (duty : Double.double) (on off : Z) (pc : loop_pc) (sched : list thread) (σ : Duet) :
  heap w !! a = Some s ->
  duty_result w a duty = Some (on, off) ->
  duet_run (Addr a) duty sched (mkDuet w pc AtCast) = Some σ ->
  exists evs,
    trace (duet_world σ) = trace w ++ evs
    /\ Forall (fun u => In u [CInt.useconds (on_usec s); CInt.useconds on;
                              CInt.useconds (off_usec s); CInt.useconds off])
         (sleeps evs)
    /\ (duet_duty σ = DutySet -> heap (duet_world σ) !! a = Some (set_intervals on off s)).
Proof.
  intros H Hres Hrun. rewrite (duty_result_run w a s duty H) in Hres.
  unfold duty_product in Hres.
  destruct (Double.to_int _) as [on'|] eqn:Hon; [|discriminate Hres].
  destruct (CInt.sub _ _) as [off'|] eqn:Hoff; [|discriminate Hres].
  injection Hres as -> ->.
  destruct (duet_run_progress a duty s s on off sched (mkDuet w pc AtCast) σ
              Hon Hoff H eq_refl Hrun)
    as (s2 & evs & Hs2 & Hp & Ht & Hf).
  exists evs. split; [exact Ht|]. split; [exact Hf|].
  intros Hd. rewrite Hd in Hp. cbn [duty_progress] in Hp. subst s2. exact Hs2.
Qed.

(** X22, an instance: the same schedule. *)
Lemma set_duty_race_is_bounded_witness :
  duty_result (Ex.running 20000 0 20000) 1 Double.one = Some (20000, 0)
  /\ exists σ,
       duet_run (Addr 1) Double.one (torn_schedule 8)
         (mkDuet (Ex.running 20000 0 20000) AtWhile AtCast) = Some σ
       /\ exists evs,
            trace (duet_world σ) = Ex.setup_trace ++ evs
            /\ Forall (fun u => In u [CInt.useconds 0; CInt.useconds 20000;
                                      CInt.useconds 20000; CInt.useconds 0])
                 (sleeps evs)
            /\ (duet_duty σ = DutySet ->
                heap (duet_world σ) !! 1%positive = Some (Ex.instance 20000 20000 0)).
Proof.
  assert (Hres : duty_result (Ex.running 20000 0 20000) 1 Double.one = Some (20000, 0))
    by (vm_compute; reflexivity).
  split; [exact Hres|].
  destruct (duet_run (Addr 1) Double.one (torn_schedule 8)
              (mkDuet (Ex.running 20000 0 20000) AtWhile AtCast)) as [σ|] eqn:Hrun;
    [|vm_compute in Hrun; discriminate Hrun].
  exists σ. split; [reflexivity|].
  exact (set_duty_race_is_bounded 1 (Ex.instance 20000 0 20000) (Ex.running 20000 0 20000)
           Double.one 20000 0 AtWhile (torn_schedule 8) σ eq_refl Hres Hrun).
Defined.

(** ** What is typed in *)

Section ConsoleInput.

Lemma last_nonempty {A} (x : A) (l : list A) (d d' : A) :
  List.last (x :: l) d = List.last (x :: l) d'.
Proof. revert x. induction l as [|y l IH]; intros x; [reflexivity|exact (IH y)]. Qed.

(** The loop over a prefix of the input that never brings [val] to 0.0 or
    below. *)
Lemma last_in {A} (x : A) (l : list A) (d : A) : In (List.last (x :: l) d) (x :: l).
Proof.
  revert x. induction l as [|y l IH]; intros x; [left; reflexivity|].
  right. exact (IH y).
Qed.

Lemma main_loop_carry (pwm : ptr) (pre : list (option Double.double)) (val : Double.double)
    (rest : list (option Double.double)) (w : World) :
  Double.ltb Double.zero val = true ->
  Forall (fun x => Double.ltb Double.zero x = true) (carry val pre) ->
  main_loop pwm val (pre ++ rest) w
  = (forward pwm (carry val pre);; main_loop pwm (List.last (carry val pre) val) rest) w.
Proof.
  revert val w. induction pre as [|r pre IH]; intros val w Hval Hpre.
  - reflexivity.
  - cbn [app carry] in *. cbv zeta in Hpre. apply Forall_cons in Hpre as [Hx Hpre].
    rewrite main_loop_eq, Hval. cbv zeta.
    set (x := match r with Some v => v | None => val end) in *.
    rewrite Hx. cbn [forward].
    rewrite (bind_assoc (emit EvPrompt)). apply bind_ext. intros _ w1.
    rewrite !(bind_assoc (pwm_set_duty pwm x)). apply bind_ext. intros _ w2.
    rewrite !(bind_assoc (emit (EvSetting x))). apply bind_ext. intros _ w3.
    rewrite (IH x w3 Hx Hpre). 
    destruct (carry x pre) as [|y ys] eqn:E; [reflexivity|].
    change (List.last (x :: y :: ys) val) with (List.last (y :: ys) val).
    rewrite (last_nonempty y ys x val). reflexivity.
Qed.

Lemma main_loop_returns (pwm : ptr) (input : list (option Double.double))
    (val : Double.double) (w w' : World) :
  Double.ltb Double.zero val = true ->
  main_loop pwm val input w = Ret tt w' ->
  Exists (fun r => exists v, r = Some v /\ Double.ltb Double.zero v = false) input.
Proof.
  revert val w. induction input as [|r input IH]; intros val w Hval Hrun;
    rewrite main_loop_eq, Hval in Hrun.
  - discriminate Hrun.
  - cbv zeta in Hrun. destruct r as [v|].
    + destruct (Double.ltb Double.zero v) eqn:Hv.
      * apply Exists_cons_tl.
        rewrite bind_unfold in Hrun. unfold emit at 1, modify at 1 in Hrun.
        cbv beta iota in Hrun. rewrite bind_unfold in Hrun.
        destruct ((pwm_set_duty pwm v;; emit (EvSetting v)) _) as [[] w1|] eqn:E;
          [|discriminate Hrun].
        exact (IH v w1 Hv Hrun).
      * apply Exists_cons_hd. eauto.
    + apply Exists_cons_tl. rewrite Hval in Hrun.
      rewrite bind_unfold in Hrun. unfold emit at 1, modify at 1 in Hrun.
      cbv beta iota in Hrun. rewrite bind_unfold in Hrun.
      destruct ((pwm_set_duty pwm val;; emit (EvSetting val)) _) as [[] w1|] eqn:E;
        [|discriminate Hrun].
      exact (IH val w1 Hval Hrun).
Qed.

End ConsoleInput.

(** X23.  An [fscanf] that stores nothing leaves [val] as it was, so
    [main] sends the previous fraction to [pwm_set_duty] again (1.0, fully
    on, if nothing has been read yet): up to the first value that is not
    above 0.0 the loop forwards [carry 1.0 input], one call per prompt. *)
Theorem console_repeats_last_value (pwm : ptr) (pre rest : list (option Double.double))
    (v : Double.double) (w : World) :
  Forall (fun x => Double.ltb Double.zero x = true) (carry Double.one pre) ->
  Double.ltb Double.zero v = false ->
  main_loop pwm Double.one (pre ++ Some v :: rest) w
  = (forward pwm (carry Double.one pre);; emit EvPrompt) w.
Proof.
  intros Hpre Hv.
  rewrite (main_loop_carry pwm pre Double.one (Some v :: rest) w eq_refl Hpre).
  apply bind_ext. intros _ w1.
  assert (Hlast : Double.ltb Double.zero (List.last (carry Double.one pre) Double.one) = true).
  { destruct (carry Double.one pre) as [|y ys] eqn:E; [reflexivity|].
    rewrite List.Forall_forall in Hpre. apply Hpre, last_in. }
  rewrite main_loop_eq, Hlast. cbv zeta. rewrite Hv.
  rewrite !bind_unfold. unfold emit, modify. rewrite main_loop_eq, Hv. reflexivity.
Qed.

(** X23, an instance: nothing read, then 0.5, then nothing read, then -1. *)
Lemma console_repeats_last_value_witness :
  carry Double.one [None; Some Double.half; None] = [Double.one; Double.half; Double.half]
  /\ main_loop (Addr 1) Double.one
       ([None; Some Double.half; None] ++ Some Ex.minus_one :: [])
       (Ex.running 20000 0 20000)
     = (forward (Addr 1) [Double.one; Double.half; Double.half];; emit EvPrompt)
         (Ex.running 20000 0 20000).
Proof.
  split; [reflexivity|].
  apply (console_repeats_last_value (Addr 1) [None; Some Double.half; None] []
           Ex.minus_one (Ex.running 20000 0 20000)).
  - repeat constructor.
  - reflexivity.
Defined.

(** X24.  When the pin can be claimed, [main] returns only if some
    [fscanf] has stored a value that is not above 0.0; input that ends or
    cannot be read never ends the loop.  The exit status is 0. *)
Theorem main_needs_closing_value (input : list (option Double.double)) (w w' : World)
    (r : Z) :
  k_fopen_w (kernel w) gpio_export = SysOk tt ->
  main input w = Ret r w' ->
  r = 0
  /\ Exists (fun x => exists v, x = Some v /\ Double.ltb Double.zero v = false) input.
Proof.
  intros Hexp Hmain. unfold main in Hmain. rewrite bind_unfold in Hmain.
  rewrite pwm_create_run in Hmain.
  destruct (k_malloc (kernel w)); [|discriminate Hmain].
  set (a := fresh (dom (heap w))) in *.
  rewrite bind_unfold in Hmain.
  erewrite pwm_start_run in Hmain by (cbn [poke heap with_heap]; apply lookup_insert_eq).
  cbn [poke kernel with_heap] in Hmain. rewrite Hexp in Hmain.
  destruct (k_thread (kernel w)) as [tid|e].
  all: cbv beta iota in Hmain; unfold TRUE in Hmain.
  all: rewrite bind_unfold in Hmain.
  all: destruct (pwm_set_duty (Addr a) Double.zero _) as [[] w1|]; [|discriminate Hmain].
  all: rewrite bind_unfold in Hmain.
  all: destruct (main_loop (Addr a) Double.one input w1) as [[] w2|] eqn:Hloop;
    [|discriminate Hmain].
  all: rewrite bind_unfold in Hmain.
  all: destruct (pwm_stop (Addr a) w2) as [[] w3|]; [|discriminate Hmain].
  all: injection Hmain as <- _.
  all: split; [reflexivity|].
  all: exact (main_loop_returns (Addr a) input Double.one w1 w2 eq_refl Hloop).
Qed.

(** X24, an instance: 0.5, then -1. *)
Lemma main_needs_closing_value_witness :
  main [Some Double.half; Some Ex.minus_one] (Ex.boot Ex.kernel_ok) = Ret 0 Ex.finished
  /\ 0 = 0
  /\ Exists (fun x => exists v, x = Some v /\ Double.ltb Double.zero v = false)
       [Some Double.half; Some Ex.minus_one].
Proof.
  assert (Hmain : main [Some Double.half; Some Ex.minus_one] (Ex.boot Ex.kernel_ok)
                  = Ret 0 Ex.finished) by (vm_compute; reflexivity).
  split; [exact Hmain|].
  exact (main_needs_closing_value _ (Ex.boot Ex.kernel_ok) Ex.finished 0 eq_refl Hmain).
Defined.

(** X25.  When the export file cannot be opened, [main] writes
    "Can't start PWM: Can't set up pin: <error text>" and a newline to
    stderr and returns 0, whatever the input: nothing is read, no prompt is
    written, nothing is exported, and the instance it created stays
    allocated. *)
Theorem main_reports_start_failure (input : list (option Double.double)) (w : World)
    (e : Z) :
  k_malloc (kernel w) = true ->
  k_fopen_w (kernel w) gpio_export = SysErr e ->
  main input w =
  Ret 0
    (log [EvStderr ("Can't start PWM: "
                    +:+ ("Can't set up pin: " +:+ k_strerror (kernel w) e) +:+ newline)]
       (with_errno e (poke (fresh (dom (heap w))) (mkPWM PIN 0 false (-1) 0 0 0) w))).
Proof.
  intros Hm Hexp. unfold main. rewrite bind_unfold, pwm_create_run, Hm.
  rewrite bind_unfold.
  erewrite pwm_start_run by (cbn [poke heap with_heap]; apply lookup_insert_eq).
  cbn [poke kernel with_heap]. rewrite Hexp. reflexivity.
Qed.

(** X25, an instance: no control file can be opened (EACCES). *)
Lemma main_reports_start_failure_witness :
  main [Some Double.half] (Ex.boot Ex.kernel_denied) =
  Ret 0 (mkWorld Ex.kernel_denied {[1%positive := Ex.idle]} 13 ∅
           [EvStderr ("Can't start PWM: Can't set up pin: Permission denied" +:+ newline)]).
Proof.
  rewrite (main_reports_start_failure [Some Double.half] (Ex.boot Ex.kernel_denied) 13
             eq_refl eq_refl).
  vm_compute. reflexivity.
Defined.

Section ConsoleFrame.

Lemma same_but_intervals_refl (s : PWM) : same_but_intervals s s.
Proof. repeat split. Qed.

Lemma same_but_intervals_set (s s' : PWM) (on off : Z) :
  same_but_intervals s s' -> same_but_intervals s (set_intervals on off s').
Proof. intros H. exact H. Qed.

(** [pwm_set_duty] changes the intervals of its instance and nothing else. *)
Lemma pwm_set_duty_frame (a : positive) (s : PWM) (duty : Double.double) (w w' : World) :
  heap w !! a = Some s ->
  pwm_set_duty (Addr a) duty w = Ret tt w' ->
  exists s', same_but_intervals s s'
    /\ w' = mkWorld (kernel w) (<[a := s']> (heap w)) (errno w) (fds w) (trace w).
Proof.
  intros H Hrun. rewrite (pwm_set_duty_run w a s duty H) in Hrun.
  destruct (Double.to_int _) as [on|]; [|discriminate Hrun].
  destruct (CInt.sub _ _) as [off|]; [|discriminate Hrun].
  injection Hrun as <-. exists (set_intervals on off s). split; [repeat split|reflexivity].
Qed.

Lemma main_loop_frame (a : positive) (input : list (option Double.double))
    (val : Double.double) (s : PWM) (w w' : World) :
  heap w !! a = Some s ->
  main_loop (Addr a) val input w = Ret tt w' ->
  exists s' evs,
    same_but_intervals s s'
    /\ w' = mkWorld (kernel w) (<[a := s']> (heap w)) (errno w) (fds w) (trace w ++ evs)
    /\ forallb is_console evs = true.
Proof.
  revert val s w. induction input as [|r input IH]; intros val s w H Hrun;
    rewrite main_loop_eq in Hrun; destruct (Double.ltb Double.zero val) eqn:Hval.
  - discriminate Hrun.
  - injection Hrun as <-. exists s, []. split; [apply same_but_intervals_refl|].
    rewrite app_nil_r, insert_id by exact H. destruct w; split; reflexivity.
  - cbv zeta in Hrun. set (x := match r with Some v => v | None => val end) in *.
    rewrite bind_unfold in Hrun. unfold emit at 1, modify at 1 in Hrun.
    cbv beta iota in Hrun. rewrite bind_unfold in Hrun.
    destruct (Double.ltb Double.zero x) eqn:Hx.
    + rewrite bind_unfold in Hrun.
      destruct (pwm_set_duty (Addr a) x (log [EvPrompt] w)) as [[] w1|] eqn:Hd;
        [|discriminate Hrun].
      destruct (pwm_set_duty_frame a s x (log [EvPrompt] w) w1 H Hd) as (s1 & Hs1 & ->).
      unfold emit at 1, modify at 1 in Hrun. cbv beta iota in Hrun.
      apply IH with (s := s1) in Hrun; [|apply lookup_insert_eq].
      destruct Hrun as (s2 & evs & Hs2 & -> & Hevs).
      exists s2, (EvPrompt :: EvSetting x :: evs).
      split; [|split].
      * destruct Hs1 as (? & ? & ? & ? & ?), Hs2 as (? & ? & ? & ? & ?).
        repeat split; congruence.
      * cbn [log kernel heap errno fds trace]. rewrite insert_insert_eq.
        rewrite <- !app_assoc. reflexivity.
      * exact Hevs.
    + unfold mret at 1, M_ret at 1 in Hrun.
      apply IH with (s := s) in Hrun; [|exact H].
      destruct Hrun as (s2 & evs & Hs2 & -> & Hevs).
      exists s2, (EvPrompt :: evs). split; [exact Hs2|]. split; [|exact Hevs].
      cbn [log kernel heap errno fds trace]. rewrite <- !app_assoc. reflexivity.
  - injection Hrun as <-. exists s, []. split; [apply same_but_intervals_refl|].
    rewrite app_nil_r, insert_id by exact H. destruct w; split; reflexivity.
Qed.

Lemma console_events (evs : list event) :
  forallb is_console evs = true ->
  writes evs = 0%nat /\ existsb is_close evs = false.
Proof.
  induction evs as [|e evs IH]; [split; reflexivity|].
  cbn [forallb]. intros H. apply andb_true_iff in H as [He H].
  destruct (IH H) as [Hw Hc]. unfold writes in *.
  destruct e; try discriminate He; cbn [List.filter is_write existsb is_close orb];
    split; assumption.
Qed.

End ConsoleFrame.

(** X26.  When [main] has claimed the pin and returns, it has let go of
    it: the descriptor [pwm_start] opened is closed, once, as the last thing
    [main] does, the open descriptors are those from before, and the
    instance (pin 17, cycle length 20000) has the stop flag up and
    [f_value = -1].  [main] itself never writes to the pin. *)
Theorem main_releases_pin (input : list (option Double.double)) (w w' : World)
    (r : Z) (fd : N) :
  k_fopen_w (kernel w) gpio_export = SysOk tt ->
  k_open_wr (kernel w) (gpio_attr PIN "value") = SysOk fd ->
  Z.of_N fd ∉ fds w ->
  main input w = Ret r w' ->
  fds w' = fds w
  /\ (exists a s', heap w !! a = None /\ heap w' !! a = Some s'
                   /\ pin s' = PIN /\ stop s' = true /\ f_value s' = -1
                   /\ cycle_usec s' = 20000)
  /\ (exists evs, trace w' = trace w ++ evs ++ [EvClose (Z.of_N fd)]
                  /\ existsb is_close evs = false)
  /\ writes (trace w') = writes (trace w).
Proof.
  intros Hexp Hopen Hfd Hmain. unfold main in Hmain.
  rewrite bind_unfold, pwm_create_run in Hmain.
  destruct (k_malloc (kernel w)); [|discriminate Hmain].
  set (a := fresh (dom (heap w))) in *.
  assert (Hfresh : heap w !! a = None) by (apply not_elem_of_dom, is_fresh).
  set (s0 := mkPWM PIN 0 false (-1) 0 0 0) in *.
  set (w0 := poke a s0 w) in *.
  assert (H0 : heap w0 !! a = Some s0) by apply lookup_insert_eq.
  rewrite bind_unfold in Hmain.
  destruct (pwm_start_handle a s0 w0 20000 fd true H0 Hexp Hopen)
    as (w1 & d & Hstart & Hk1 & Hh1 & Hfds1 & Htr1 & Hwd & Hcd).
  rewrite Hstart in Hmain. cbv beta iota in Hmain. unfold TRUE in Hmain.
  set (s1 := started_instance (thread_id w0) 20000 (set_f_value (Z.of_N fd) s0)) in *.
  destruct (thread_events_quiet a w0) as [Hwt Hct].
  assert (H1 : heap w1 !! a = Some s1) by (rewrite Hh1; apply lookup_insert_eq).
  rewrite bind_unfold in Hmain.
  destruct (pwm_set_duty (Addr a) Double.zero w1) as [[] w2|] eqn:Hd; [|discriminate Hmain].
  destruct (pwm_set_duty_frame a s1 Double.zero w1 w2 H1 Hd) as (s2 & Hs2 & ->).
  rewrite bind_unfold in Hmain.
  destruct (main_loop (Addr a) Double.one input _) as [[] w3|] eqn:Hloop;
    [|discriminate Hmain].
  apply main_loop_frame with (s := s2) in Hloop; [|apply lookup_insert_eq].
  destruct Hloop as (s3 & evs & Hs3 & -> & Hevs).
  cbn [kernel heap errno fds trace] in Hmain.
  set (w3 := mkWorld _ _ _ _ _) in Hmain.
  assert (H3 : heap w3 !! a = Some s3) by apply lookup_insert_eq.
  rewrite bind_unfold, (pwm_stop_run a s3 w3 H3) in Hmain. injection Hmain as <- <-.
  destruct Hs2 as (Hp2 & _ & Hst2 & Hf2 & Hc2), Hs3 as (Hp3 & _ & Hst3 & Hf3 & Hc3).
  assert (Hfv : f_value s3 = Z.of_N fd) by (rewrite Hf3, Hf2; reflexivity).
  assert (Hpos : (0 <=? f_value s3) = true) by (apply Z.leb_le; lia).
  destruct (console_events evs Hevs) as [Hwe Hce].
  split; [|split; [|split]].
  - rewrite fds_after_stop, Hpos, Hfv. cbn [w3 fds]. rewrite Hfds1. cbn [w0 poke with_heap fds].
    apply set_eq. intros y.
    rewrite elem_of_difference, elem_of_union, !elem_of_singleton.
    split; [intros [[->|Hy] Hn]; [contradiction|exact Hy]|].
    intros Hy. split; [right; exact Hy|intros ->; contradiction].
  - exists a, (set_f_value (-1) (set_stop TRUE s3)).
    split; [exact Hfresh|]. split; [rewrite heap_after_stop; apply lookup_insert_eq|].
    cbn [pin stop f_value cycle_usec set_f_value set_stop].
    rewrite Hp3, Hp2, Hc3, Hc2. repeat split.
  - rewrite trace_after_stop, Hpos, Hfv. cbn [w3 trace kernel]. rewrite Htr1.
    cbn [w0 poke with_heap trace].
    exists ([EvFile gpio_export (CInt.dec (pin s0))] ++ d
            ++ [EvOpen (gpio_attr (pin s0) "value") (Z.of_N fd)]
            ++ thread_events a w0 ++ [EvDetach (thread_id w0)] ++ evs
            ++ match k_fopen_w (kernel w1) gpio_unexport with
               | SysOk _ => [EvFile gpio_unexport (CInt.dec (pin s3))]
               | SysErr _ => []
               end).
    split; [rewrite <- !app_assoc; reflexivity|].
    rewrite !existsb_app, Hcd, Hce, Hct.
    destruct (k_fopen_w _ gpio_unexport); reflexivity.
  - rewrite trace_after_stop, Hpos. cbn [w3 trace kernel]. rewrite Htr1.
    cbn [w0 poke with_heap trace]. rewrite !writes_app, Hwd, Hwe, Hwt.
    destruct (k_fopen_w _ gpio_unexport); unfold writes; cbn [List.filter is_write length]; lia.
Qed.

(** X26, an instance: 0.5, then -1. *)
Lemma main_releases_pin_witness :
  main [Some Double.half; Some Ex.minus_one] (Ex.boot Ex.kernel_ok) = Ret 0 Ex.finished
  /\ fds Ex.finished = fds (Ex.boot Ex.kernel_ok)
  /\ (exists a s', heap (Ex.boot Ex.kernel_ok) !! a = None /\ heap Ex.finished !! a = Some s'
                   /\ pin s' = PIN /\ stop s' = true /\ f_value s' = -1
                   /\ cycle_usec s' = 20000)
  /\ (exists evs, trace Ex.finished = trace (Ex.boot Ex.kernel_ok) ++ evs ++ [EvClose (Z.of_N 3)]
                  /\ existsb is_close evs = false)
  /\ writes (trace Ex.finished) = writes (trace (Ex.boot Ex.kernel_ok)).
Proof.
  assert (Hmain : main [Some Double.half; Some Ex.minus_one] (Ex.boot Ex.kernel_ok)
                  = Ret 0 Ex.finished) by (vm_compute; reflexivity).
  split; [exact Hmain|].
  apply (main_releases_pin [Some Double.half; Some Ex.minus_one]
           (Ex.boot Ex.kernel_ok) Ex.finished 0 3 eq_refl eq_refl);
    [|exact Hmain].
  unfold Ex.boot. cbn [fds]. apply not_elem_of_empty.
Defined.

(** ** The control files *)

Section Paths.

Lemma length_append (x y : string) :
  String.length (x +:+ y) = (String.length x + String.length y)%nat.
Proof.
  induction x as [|c x IH]; [reflexivity|].
  change (String c x +:+ y) with (String c (x +:+ y)).
  cbn [String.length Nat.add]. congruence.
Qed.

Lemma append_inv_tail (x y t : string) : x +:+ t = y +:+ t -> x = y.
Proof.
  revert y. induction x as [|c x IH]; intros [|d y] H.
  - reflexivity.
  - apply (f_equal String.length) in H. rewrite !length_append in H.
    cbn [String.length] in H. lia.
  - apply (f_equal String.length) in H. rewrite !length_append in H.
    cbn [String.length] in H. lia.
  - change (String c (x +:+ t) = String d (y +:+ t)) in H.
    injection H as -> H. f_equal. exact (IH y H).
Qed.

Lemma length_string_of_uint (u : Decimal.uint) :
  String.length (NilEmpty.string_of_uint u) = Decimal.nb_digits u.
Proof. induction u; cbn; congruence. Qed.

Lemma usize_nb_digits (u : Decimal.uint) :
  Unsigned.usize u = N.of_nat (Decimal.nb_digits u).
Proof. induction u; cbn [Unsigned.usize Decimal.nb_digits]; rewrite ?IHu; lia. Qed.

(** A number with [n] digits, the first of them not 0, is at least
    [10 ^ (n - 1)]. *)
Lemma of_uint_lower (u : Decimal.uint) :
  Decimal.unorm u = u -> u <> Decimal.zero ->
  (10 ^ N.of_nat (Decimal.nb_digits u - 1) <= Pos.of_uint u)%N.
Proof.
  intros Hn Hz. rewrite Unsigned.of_uint_alt.
  destruct u as [|u|u|u|u|u|u|u|u|u|u];
    try (unfold Decimal.rev; cbn [Decimal.revapp]; rewrite Unsigned.of_lu_revapp;
         cbn [Unsigned.of_lu Decimal.nb_digits]; rewrite usize_nb_digits;
         replace (S (Decimal.nb_digits u) - 1)%nat with (Decimal.nb_digits u) by lia;
         nia).
  - discriminate Hn.
  - exfalso. destruct (Decimal.uint_eq_dec u Decimal.Nil) as [->|Hu];
      [apply Hz; reflexivity|].
    pose proof (DecimalFacts.nb_digits_unorm u Hu) as Hle.
    change (Decimal.unorm (Decimal.D0 u)) with (Decimal.unorm u) in Hn.
    rewrite Hn in Hle. cbn in Hle. lia.
Qed.

Lemma to_uint_digits (p : positive) (n : nat) :
  (N.pos p < 10 ^ N.of_nat n)%N -> (Decimal.nb_digits (Pos.to_uint p) <= n)%nat.
Proof.
  intros Hp.
  assert (Hn : Decimal.unorm (Pos.to_uint p) = Pos.to_uint p).
  { rewrite <- (Unsigned.to_of (Pos.to_uint p)), Unsigned.of_to. reflexivity. }
  pose proof (of_uint_lower _ Hn (Unsigned.to_uint_nonzero p)) as Hlo.
  rewrite Unsigned.of_to in Hlo.
  assert (Hlt : (N.of_nat (Decimal.nb_digits (Pos.to_uint p) - 1) < N.of_nat n)%N).
  { apply (N.pow_lt_mono_r_iff 10); [lia|]. eapply N.le_lt_trans; eassumption. }
  lia.
Qed.

(** ["%d"] of an [int] takes at most 11 characters. *)
Lemma length_dec (z : Z) :
  CInt.in_int z = true -> (String.length (CInt.dec z) <= 11)%nat.
Proof.
  intros Hz. apply in_int_iff in Hz. unfold CInt.INT_MIN, CInt.INT_MAX in Hz.
  unfold CInt.dec. destruct z as [|p|p]; cbn [Z.to_int NilZero.string_of_int].
  - cbn. lia.
  - pose proof (to_uint_digits p 10 ltac:(lia)) as Hd.
    pose proof (Unsigned.to_uint_nonnil p) as Hnil.
    unfold NilZero.string_of_uint.
    destruct (Pos.to_uint p) eqn:E; try contradiction;
      rewrite length_string_of_uint; lia.
  - pose proof (to_uint_digits p 10 ltac:(lia)) as Hd.
    pose proof (Unsigned.to_uint_nonnil p) as Hnil.
    unfold NilZero.string_of_uint. cbn [String.length].
    destruct (Pos.to_uint p) eqn:E; try contradiction;
      rewrite length_string_of_uint; lia.
Qed.

Lemma dec_inj (z z' : Z) : CInt.dec z = CInt.dec z' -> z = z'.
Proof.
  unfold CInt.dec. intros H. apply DecimalZ.to_int_inj.
  assert (Hisi : forall z, NilZero.int_of_string (NilZero.string_of_int (Z.to_int z))
                           = Some (Z.to_int z)).
  { intros y. apply NilZero.isi; destruct y as [|p|p]; cbn [Z.to_int];
      try discriminate; intros [= E]; exact (Unsigned.to_uint_nonnil p E). }
  pose proof (Hisi z) as H1. rewrite H, Hisi in H1. congruence.
Qed.

End Paths.

(** X27.  The 50-byte buffers of [pwm_setup_pin] and [pwm_unsetup_pin]
    are large enough for every [int] pin: the number takes at most 11
    characters, the "direction" path at most 41 and the "value" path at most
    37, so [snprintf] never cuts a path short. *)
Theorem paths_fit_buffer (pin : Z) :
  CInt.in_int pin = true ->
  (String.length (CInt.dec pin) <= 11)%nat
  /\ (String.length (gpio_attr pin "direction") <= 41)%nat
  /\ (String.length (gpio_attr pin "value") <= 37)%nat.
Proof.
  intros Hp. pose proof (length_dec pin Hp) as Hd.
  split; [exact Hd|]. unfold gpio_attr. rewrite !length_append. cbn [String.length]. lia.
Qed.

(** X27, an instance: the least [int], eleven characters. *)
Lemma paths_fit_buffer_witness :
  CInt.in_int CInt.INT_MIN = true
  /\ (String.length (CInt.dec CInt.INT_MIN) <= 11)%nat
  /\ (String.length (gpio_attr CInt.INT_MIN "direction") <= 41)%nat
  /\ (String.length (gpio_attr CInt.INT_MIN "value") <= 37)%nat.
Proof. split; [reflexivity|]. apply paths_fit_buffer. reflexivity. Defined.

Section Separator.

Lemma string_of_uint_no_slash (u : Decimal.uint) :
  occurs "/" (NilEmpty.string_of_uint u) = false.
Proof. induction u; cbn [NilEmpty.string_of_uint occurs]; rewrite ?IHu; reflexivity. Qed.

(** A decimal number holds no '/'. *)
Lemma dec_no_slash (z : Z) : occurs "/" (CInt.dec z) = false.
Proof.
  unfold CInt.dec.
  destruct z as [|p|p]; cbn [Z.to_int NilZero.string_of_int]; unfold NilZero.string_of_uint;
    try reflexivity;
    destruct (Pos.to_uint p) eqn:E; cbn [occurs];
    rewrite <- ?E, ?string_of_uint_no_slash; try reflexivity;
    rewrite E; apply (string_of_uint_no_slash (_ _)).
Qed.

(** A text is cut at its first '/' in one way only. *)
Lemma first_slash_unique (x x' t t' : string) :
  occurs "/" x = false -> occurs "/" x' = false ->
  x +:+ String "/" t = x' +:+ String "/" t' -> x = x' /\ t = t'.
Proof.
  revert x'. induction x as [|c x IH]; intros [|c' x'] Hx Hx' H.
  - injection H as ->. split; reflexivity.
  - change (String c' x' +:+ String "/" t') with (String c' (x' +:+ String "/" t')) in H.
    change (EmptyString +:+ String "/" t) with (String "/" t) in H.
    injection H as <- _. cbn [occurs] in Hx'. discriminate Hx'.
  - change (String c x +:+ String "/" t) with (String c (x +:+ String "/" t)) in H.
    change (EmptyString +:+ String "/" t') with (String "/" t') in H.
    injection H as -> _. cbn [occurs] in Hx. discriminate Hx.
  - change (String c x +:+ String "/" t) with (String c (x +:+ String "/" t)) in H.
    change (String c' x' +:+ String "/" t') with (String c' (x' +:+ String "/" t')) in H.
    injection H as -> H. cbn [occurs] in Hx, Hx'.
    apply orb_false_iff in Hx as [_ Hx]. apply orb_false_iff in Hx' as [_ Hx'].
    destruct (IH x' Hx Hx' H) as [-> ->]. split; reflexivity.
Qed.

End Separator.

(** X28.  Instances for different pins never open the same attribute file:
    the path of an attribute ("direction", "value") determines the pin
    number, whatever the attribute.  The export and unexport files are the
    same for every pin; what differs there is the number written. *)
Theorem pins_use_distinct_attributes (pin pin' : Z) (attr attr' : string) :
  pin <> pin' ->
  gpio_attr pin attr <> gpio_attr pin' attr'
  /\ CInt.dec pin <> CInt.dec pin'.
Proof.
  intros Hne. split; intros H; apply Hne.
  - unfold gpio_attr in H. apply String.app_inj in H.
    change ("/" +:+ attr) with (String "/" attr) in H.
    change ("/" +:+ attr') with (String "/" attr') in H.
    apply first_slash_unique in H as [H _]; [|apply dec_no_slash|apply dec_no_slash].
    exact (dec_inj _ _ H).
  - exact (dec_inj _ _ H).
Qed.

(** X28, two instances: the "value" files of pins 17 and 18; the "value"
    file of pin 17 and the "direction" file of pin 117. *)
Lemma pins_use_distinct_attributes_witness :
  (gpio_attr 17 "value" <> gpio_attr 18 "value" /\ CInt.dec 17 <> CInt.dec 18)
  /\ (gpio_attr 17 "value" <> gpio_attr 117 "direction" /\ CInt.dec 17 <> CInt.dec 117).
Proof.
  split.
  - apply (pins_use_distinct_attributes 17 18 "value" "value"). lia.
  - apply (pins_use_distinct_attributes 17 117 "value" "direction"). lia.
Defined.

Section Formats.

Lemma string_of_uint_plain (u : Decimal.uint) :
  has_percent (NilEmpty.string_of_uint u) = false.
Proof. induction u; cbn [NilEmpty.string_of_uint has_percent]; rewrite ?IHu; reflexivity. Qed.

Lemma dec_plain (z : Z) : has_percent (CInt.dec z) = false.
Proof.
  unfold CInt.dec.
  destruct z as [|p|p]; cbn [Z.to_int NilZero.string_of_int]; unfold NilZero.string_of_uint;
    try reflexivity;
    destruct (Pos.to_uint p) eqn:E; cbn [has_percent];
    rewrite <- ?E, ?string_of_uint_plain; try reflexivity;
    rewrite E; apply (string_of_uint_plain (_ _)).
Qed.

End Formats.

(** X29.  [pwm_write_to_file] passes its text to [fprintf] as the format.
    Every text that [pwm_setup_pin] and [pwm_unsetup_pin] write, the pin
    number in decimal and "out", is free of '%', for every pin, so what
    reaches the file is the text itself. *)
Theorem control_writes_are_plain (a : positive) (s : PWM) (w w' : World) (r : Z) :
  heap w !! a = Some s ->
  pwm_setup_pin (Addr a) w = Ret r w' \/ pwm_unsetup_pin (Addr a) w = Ret r w' ->
  exists evs, trace w' = trace w ++ evs /\ plain_writes evs = true.
Proof.
  intros H [Hrun|Hrun].
  - rewrite (pwm_setup_pin_run a s w H) in Hrun.
    destruct (k_fopen_w (kernel w) gpio_export) as [u|e].
    + injection Hrun as _ <-. eexists. split; [apply trace_after_setup_eq|].
      unfold plain_writes. rewrite !forallb_app. cbn [forallb].
      rewrite dec_plain.
      destruct (k_fopen_w _ (gpio_attr _ "direction")); destruct (k_open_wr _ _); reflexivity.
    + injection Hrun as _ <-. exists []. rewrite app_nil_r. split; reflexivity.
  - rewrite (pwm_unsetup_pin_result a s w H) in Hrun. injection Hrun as _ <-.
    cbn [poke with_heap trace].
    exists (match k_fopen_w (kernel w) gpio_unexport with
            | SysOk _ => [EvFile gpio_unexport (CInt.dec (pin s))]
            | SysErr _ => []
            end ++ (if 0 <=? f_value s then [EvClose (f_value s)] else [])).
    split.
    + unfold after_close, after_unexport.
      destruct (0 <=? f_value s); destruct (k_fopen_w (kernel w) gpio_unexport) as [u|e];
        cbn [trace log with_fds with_errno]; rewrite <- ?app_assoc, ?app_nil_r; reflexivity.
    + unfold plain_writes. rewrite forallb_app.
      destruct (k_fopen_w _ _); destruct (0 <=? f_value s); cbn [forallb];
        rewrite ?dec_plain; reflexivity.
Qed.

(** X29, an instance: claiming pin 17. *)
Lemma control_writes_are_plain_witness :
  pwm_setup_pin (Addr 1) (Ex.created Ex.kernel_ok)
  = Ret 0 (after_setup 1 Ex.idle (Ex.created Ex.kernel_ok))
  /\ exists evs,
       trace (after_setup 1 Ex.idle (Ex.created Ex.kernel_ok))
       = trace (Ex.created Ex.kernel_ok) ++ evs
       /\ plain_writes evs = true.
Proof.
  assert (Hrun : pwm_setup_pin (Addr 1) (Ex.created Ex.kernel_ok)
                 = Ret 0 (after_setup 1 Ex.idle (Ex.created Ex.kernel_ok)))
    by (vm_compute; reflexivity).
  split; [exact Hrun|].
  exact (control_writes_are_plain 1 Ex.idle (Ex.created Ex.kernel_ok) _ 0 eq_refl
           (or_introl Hrun)).
Defined.

(** ** The intervals follow the fraction *)

Section Nearest.

(** After [k + 1] shifts the round bit is bit [k] of the significand and
    the sticky bit tells whether a lower bit was set. *)
Lemma shr_iter_rs (k : nat) (m : Z) :
  0 <= m ->
  shr_r (Nat.iter (S k) shr_1 (Build_shr_record m false false)) = Z.odd (m / 2 ^ Z.of_nat k)
  /\ shr_s (Nat.iter (S k) shr_1 (Build_shr_record m false false))
     = negb (m mod 2 ^ Z.of_nat k =? 0).
Proof.
  intros Hm. induction k as [|k [IHr IHs]].
  - cbn [Nat.iter nat_rect]. rewrite shr_1_r, shr_1_s by exact Hm.
    cbn [shr_m shr_r shr_s Z.of_nat]. change (2 ^ 0) with 1.
    rewrite Z.div_1_r, Z.mod_1_r. split; reflexivity.
  - set (r := Nat.iter (S k) shr_1 (Build_shr_record m false false)) in *.
    change (Nat.iter (S (S k)) shr_1 (Build_shr_record m false false)) with (shr_1 r).
    assert (Hk : 0 < 2 ^ Z.of_nat k) by (apply Z.pow_pos_nonneg; lia).
    assert (Hr : shr_m r = m / 2 ^ Z.of_nat (S k)).
    { subst r. apply (shr_iter_m (S k) (Build_shr_record m false false)). exact Hm. }
    rewrite shr_1_r, shr_1_s, Hr, IHr, IHs.
    + split; [reflexivity|].
      rewrite (Nat2Z.inj_succ k), Z.pow_succ_r by lia.
      rewrite (Z.mul_comm 2), Z.rem_mul_r by lia.
      rewrite Zmod_odd.
      pose proof (Z.mod_pos_bound m (2 ^ Z.of_nat k) Hk) as Hb.
      destruct (Z.odd (m / 2 ^ Z.of_nat k)); cbn [orb].
      * destruct (Z.eqb_spec (m mod 2 ^ Z.of_nat k + 2 ^ Z.of_nat k * 1) 0); [lia|reflexivity].
      * rewrite Z.mul_0_r, Z.add_0_r. reflexivity.
    + rewrite Hr. apply Z.div_pos; [lia|]. apply Z.pow_pos_nonneg; lia.
Qed.

(** Shifting, then rounding on the round and sticky bits, is
    [nearest_even]. *)
Lemma shr_nearest (m e n : Z) :
  0 <= m ->
  exists r, shr (Build_shr_record m false false) e n = (r, e + Z.max n 0)
    /\ shr_m r = m / 2 ^ Z.max n 0
    /\ round_nearest_even (shr_m r) (loc_of_shr_record r) = nearest_even m (Z.max n 0).
Proof.
  intros Hm. unfold nearest_even. destruct n as [|n|n]; cbn [shr].
  - exists (Build_shr_record m false false). rewrite Z.add_0_r. cbn [shr_m].
    change (2 ^ Z.max 0 0) with 1. rewrite Z.div_1_r, Z.mod_1_r. auto.
  - exists (SpecFloat.iter_pos shr_1 n (Build_shr_record m false false)).
    rewrite Z.max_l by lia. split; [reflexivity|].
    rewrite iter_pos_nat.
    assert (Hq : shr_m (Nat.iter (Pos.to_nat n) shr_1 (Build_shr_record m false false))
                 = m / 2 ^ Zpos n).
    { rewrite <- (positive_nat_Z n).
      apply (shr_iter_m _ (Build_shr_record m false false)). exact Hm. }
    split; [exact Hq|].
    destruct (Pos2Nat.is_succ n) as [k Hk].
    assert (HK : Zpos n = Z.succ (Z.of_nat k)).
    { rewrite <- (positive_nat_Z n), Hk. apply Nat2Z.inj_succ. }
    rewrite Hk in *.
    destruct (shr_iter_rs k m Hm) as [Hr Hs].
    set (r := Nat.iter (S k) shr_1 (Build_shr_record m false false)) in *.
    assert (Hp : 0 < 2 ^ Z.of_nat k) by (apply Z.pow_pos_nonneg; lia).
    pose proof (Z.mod_pos_bound m (2 ^ Z.of_nat k) Hp) as Hb.
    assert (Hrem : m mod 2 ^ Zpos n
                   = m mod 2 ^ Z.of_nat k + 2 ^ Z.of_nat k * (if shr_r r then 1 else 0)).
    { rewrite HK, Z.pow_succ_r, (Z.mul_comm 2), Z.rem_mul_r by lia.
      rewrite Zmod_odd, Hr. reflexivity. }
    assert (Hpow : 2 ^ Zpos n = 2 * 2 ^ Z.of_nat k) by (rewrite HK, Z.pow_succ_r; lia).
    cbv zeta. rewrite Hrem, <- Hq, Hpow.
    destruct r as [mr rr sr]. cbn [shr_r shr_s shr_m] in *. subst rr sr.
    unfold loc_of_shr_record, round_nearest_even.
    change IntDef.Z.even with Z.even.
    rewrite (Zeven.Zeven_odd_bool mr).
    destruct (Z.odd (m / 2 ^ Z.of_nat k));
      destruct (Z.eqb_spec (m mod 2 ^ Z.of_nat k) 0) as [E|E]; cbn [negb].
    + rewrite E. destruct (Z.ltb_spec (2 * 2 ^ Z.of_nat k) (2 * (0 + 2 ^ Z.of_nat k * 1))); [lia|].
      destruct (Z.eqb_spec (2 * (0 + 2 ^ Z.of_nat k * 1)) (2 * 2 ^ Z.of_nat k)); [|lia].
      cbn [andb]. destruct (Z.odd mr); reflexivity.
    + destruct (Z.ltb_spec (2 * 2 ^ Z.of_nat k)
                  (2 * (m mod 2 ^ Z.of_nat k + 2 ^ Z.of_nat k * 1))); [reflexivity|lia].
    + rewrite E. destruct (Z.ltb_spec (2 * 2 ^ Z.of_nat k) (2 * (0 + 2 ^ Z.of_nat k * 0))); [lia|].
      destruct (Z.eqb_spec (2 * (0 + 2 ^ Z.of_nat k * 0)) (2 * 2 ^ Z.of_nat k)); [lia|].
      reflexivity.
    + destruct (Z.ltb_spec (2 * 2 ^ Z.of_nat k)
                  (2 * (m mod 2 ^ Z.of_nat k + 2 ^ Z.of_nat k * 0))); [lia|].
      destruct (Z.eqb_spec (2 * (m mod 2 ^ Z.of_nat k + 2 ^ Z.of_nat k * 0))
                  (2 * 2 ^ Z.of_nat k)); [lia|].
      reflexivity.
  - exists (Build_shr_record m false false). rewrite Z.max_r by lia.
    rewrite Z.add_0_r. cbn [shr_m]. change (2 ^ 0) with 1.
    rewrite Z.div_1_r, Z.mod_1_r. auto.
Qed.

Lemma nearest_even_bounds (p k : Z) : p / 2 ^ k <= nearest_even p k <= p / 2 ^ k + 1.
Proof.
  unfold nearest_even.
  destruct (2 ^ k <? 2 * (p mod 2 ^ k)); [lia|].
  destruct ((2 * (p mod 2 ^ k) =? 2 ^ k) && Z.odd (p / 2 ^ k)); lia.
Qed.

(** The rounding of [binary_round_aux], in closed form. *)
Lemma binary_round_aux_nearest (s : bool) (p : positive) (e : Z) :
  binary_round_aux Double.prec Double.emax s (Zpos p) e loc_Exact
  = rounded s (nearest_even (Zpos p) (round_exp p e - e)) (round_exp p e)
  /\ 0 <= nearest_even (Zpos p) (round_exp p e - e) <= 2 ^ 53.
Proof.
  unfold round_exp.
  set (e1 := Z.max e (Z.max (Zpos (digits2_pos p) + e - 53) (-1074))).
  set (k := e1 - e).
  pose proof (digits2_bounds p) as [Hlo Hhi].
  set (d := Zpos (digits2_pos p)) in *.
  assert (Hd : 0 < d) by (subst d; lia).
  unfold binary_round_aux, shr_fexp. rewrite fexp_binary64.
  cbn [Zdigits2 shr_record_of_loc]. fold d.
  destruct (shr_nearest (Zpos p) e (Z.max (d + e - 53) (-1074) - e)) as (r & -> & Hm & Hne);
    [lia|].
  replace (Z.max (Z.max (d + e - 53) (-1074) - e) 0) with k in * by (subst k e1; lia).
  replace (e + k) with e1 by (subst k; lia).
  assert (Hk : 0 <= k) by (subst k e1; lia).
  assert (Hpk : 0 < 2 ^ k) by (apply Z.pow_pos_nonneg; lia).
  assert (Hm1 : 0 <= shr_m r < 2 ^ 53).
  { rewrite Hm. split; [apply Z.div_pos; lia|].
    apply Z.div_lt_upper_bound; [lia|].
    rewrite <- Z.pow_add_r by lia.
    eapply Z.lt_le_trans; [exact Hhi|]. apply Z.pow_le_mono_r; subst k e1; lia. }
  rewrite Hne. set (m := nearest_even (Zpos p) k).
  pose proof (nearest_even_bounds (Zpos p) k) as Hrne. fold m in Hrne.
  rewrite <- Hm in Hrne.
  split; [|lia].
  rewrite fexp_binary64.
  assert (He1 : -1074 <= e1) by (subst e1; lia).
  destruct (Z.eq_dec m (2 ^ 53)) as [E|NE].
  - rewrite E. change (Zdigits2 (2 ^ 53)) with 54.
    replace (Z.max (54 + e1 - 53) (-1074) - e1) with 1 by lia.
    reflexivity.
  - assert (Hn : Z.max (Zdigits2 m + e1 - 53) (-1074) - e1 <= 0).
    { destruct m as [|q|q]; cbn [Zdigits2]; [lia| |lia].
      assert (Zpos (digits2_pos q) <= 53) by (apply digits2_le; lia). lia. }
    assert (Hshr : shr (Build_shr_record m false false) e1
                     (Z.max (Zdigits2 m + e1 - 53) (-1074) - e1)
                   = (Build_shr_record m false false, e1)).
    { destruct (Z.max (Zdigits2 m + e1 - 53) (-1074) - e1); try reflexivity. lia. }
    rewrite Hshr. cbn [shr_m]. unfold rounded.
    destruct m as [|q|q]; try reflexivity.
    destruct (Z.eqb_spec (Zpos q) (2 ^ 53)); [contradiction|]. reflexivity.
Qed.

End Nearest.

Section Monotone.

Lemma nearest_even_0 (p : Z) : nearest_even p 0 = p.
Proof.
  unfold nearest_even. change (2 ^ 0) with 1. rewrite Z.div_1_r, Z.mod_1_r. reflexivity.
Qed.

(** When [nearest_even] moves up. *)
Lemma nearest_even_up (p k : Z) :
  nearest_even p k = p / 2 ^ k + 1
  <-> 2 ^ k < 2 * (p mod 2 ^ k)
      \/ (2 * (p mod 2 ^ k) = 2 ^ k /\ Z.odd (p / 2 ^ k) = true).
Proof.
  unfold nearest_even.
  destruct (Z.ltb_spec (2 ^ k) (2 * (p mod 2 ^ k))) as [L|L].
  - split; [left; exact L|reflexivity].
  - destruct (Z.eqb_spec (2 * (p mod 2 ^ k)) (2 ^ k)) as [E|E]; cbn [andb].
    + destruct (Z.odd (p / 2 ^ k)).
      * split; [right; auto|reflexivity].
      * split; [lia|]. intros [?|[_ ?]]; [lia|discriminate].
    + split; [lia|]. intros [?|[? _]]; [lia|contradiction].
Qed.

(** A value below the integer [a] that rounds to at least [a]: it lies in
    the last unit below [a], has a full significand and was moved up. *)
Lemma round_up_inv (q : positive) (e a : Z) :
  0 < a < 2 ^ 53 ->
  Zpos q * 2 ^ Z.max (e - 0) 0 < a * 2 ^ Z.max (0 - e) 0 ->
  a <= Z.shiftl (nearest_even (Zpos q) (round_exp q e - e)) (round_exp q e) ->
  -1074 <= round_exp q e <= 0 /\ 0 < round_exp q e - e
  /\ Zpos q / 2 ^ (round_exp q e - e) = a * 2 ^ (- round_exp q e) - 1
  /\ nearest_even (Zpos q) (round_exp q e - e) = a * 2 ^ (- round_exp q e)
  /\ 2 ^ 52 < a * 2 ^ (- round_exp q e) <= 2 ^ 53.
Proof.
  unfold round_exp.
  set (E := Z.max e (Z.max (Zpos (digits2_pos q) + e - 53) (-1074))).
  set (k := E - e).
  intros Ha Hx Hr.
  pose proof (digits2_bounds q) as [Hlo Hhi].
  set (d := Zpos (digits2_pos q)) in *.
  assert (Hd : 0 < d) by (subst d; lia).
  pose proof (nearest_even_bounds (Zpos q) k) as Hb.
  assert (Hk : 0 <= k) by (subst k E; lia).
  assert (Hpk : 0 < 2 ^ k) by (apply pow2_pos; lia).
  assert (Hq0 : 0 <= Zpos q / 2 ^ k) by (apply Z.div_pos; lia).
  assert (HE : E <= 0).
  { destruct (Z.le_gt_cases e 0) as [He|He].
    - rewrite Z.max_r, Z.max_l, Z.mul_1_r in Hx by lia.
      assert (d <= 53 - e).
      { apply digits2_le; [lia|]. rewrite (pow2_split (53 - e) 53) by lia.
        replace (53 - e - 53) with (0 - e) by lia.
        pose proof (pow2_pos (0 - e) ltac:(lia)). nia. }
      subst E. lia.
    - exfalso. rewrite Z.max_l, Z.max_r, Z.mul_1_r, Z.sub_0_r in Hx by lia.
      pose proof (pow2_pos e ltac:(lia)) as Hpe.
      assert (d <= 53).
      { apply digits2_le; [lia|]. nia. }
      assert (EE : E = e) by (subst E; lia).
      assert (K0 : k = 0) by (subst k; lia).
      rewrite K0, nearest_even_0, EE, Z.shiftl_mul_pow2 in Hr by lia. lia. }
  assert (He : e <= 0) by (subst E; lia).
  rewrite Z.max_r, Z.max_l, Z.mul_1_r in Hx by lia.
  pose proof (pow2_pos (- E) ltac:(lia)) as HpE.
  rewrite Z.shiftl_div_pow2 in Hr by lia.
  assert (HA : a * 2 ^ (- E) <= nearest_even (Zpos q) k).
  { pose proof (Z.mul_div_le (nearest_even (Zpos q) k) (2 ^ (- E)) HpE). nia. }
  assert (Hsplit : 2 ^ (0 - e) = 2 ^ (- E) * 2 ^ k).
  { rewrite <- Z.pow_add_r by lia. f_equal. subst k. lia. }
  rewrite Hsplit in Hx.
  assert (Hlt : Zpos q / 2 ^ k < a * 2 ^ (- E)).
  { apply Z.div_lt_upper_bound; [lia|]. lia. }
  assert (Hup : nearest_even (Zpos q) k = Zpos q / 2 ^ k + 1) by lia.
  assert (Hk0 : 0 < k).
  { destruct (Z.eq_dec k 0) as [K0|K0]; [|lia].
    rewrite K0, nearest_even_0 in Hup. change (2 ^ 0) with 1 in Hup.
    rewrite Z.div_1_r in Hup. lia. }
  assert (Hsm : Zpos q / 2 ^ k < 2 ^ 53).
  { apply Z.div_lt_upper_bound; [lia|]. rewrite <- Z.pow_add_r by lia.
    eapply Z.lt_le_trans; [exact Hhi|]. apply Z.pow_le_mono_r; subst k E; lia. }
  split; [subst E; lia|]. split; [exact Hk0|]. split; [lia|]. split; [lia|].
  split; [|lia].
  destruct (Z.eq_dec E (-1074)) as [E74|E74].
  - exfalso.
    rewrite E74 in HA. change (- -1074) with 1074 in HA.
    assert (2 ^ 54 <= 2 ^ 1074) by (apply Z.pow_le_mono_r; lia).
    change (2 ^ 54) with (2 * 2 ^ 53) in *. nia.
  - assert (EE : E = d + e - 53) by (subst k E; lia).
    assert (2 ^ 52 <= Zpos q / 2 ^ k); [|lia].
    apply Z.div_le_lower_bound; [lia|].
    rewrite <- Z.pow_add_r by lia.
    replace (k + 52) with (d - 1) by (subst k; lia). exact Hlo.
Qed.

(** Rounding keeps the order around an integer: if a value rounds to at
    least the integer [a], so does every larger value below [a]. *)
Lemma round_up_mono (q1 q2 : positive) (e1 e2 a : Z) :
  0 < a < 2 ^ 53 ->
  Zpos q1 * 2 ^ Z.max (e1 - e2) 0 <= Zpos q2 * 2 ^ Z.max (e2 - e1) 0 ->
  Zpos q2 * 2 ^ Z.max (e2 - 0) 0 < a * 2 ^ Z.max (0 - e2) 0 ->
  a <= Z.shiftl (nearest_even (Zpos q1) (round_exp q1 e1 - e1)) (round_exp q1 e1) ->
  a <= Z.shiftl (nearest_even (Zpos q2) (round_exp q2 e2 - e2)) (round_exp q2 e2).
Proof.
  intros Ha H12 H2 Hr.
  pose proof (scaled_le_lt_trans _ _ _ _ _ H12 H2) as H1.
  destruct (round_up_inv q1 e1 a Ha H1 Hr) as (HE & Hk & Hq & Hn & H52 & HA53).
  clear Hr H1.
  remember (round_exp q1 e1) as E1 eqn:HE1. clear HE1.
  remember (E1 - e1) as k1 eqn:Hk1.
  remember (a * 2 ^ (- E1)) as A eqn:HA.
  assert (Hpk1 : 0 < 2 ^ k1) by (apply pow2_pos; lia).
  pose proof (pow2_pos (- E1) ltac:(lia)) as HpE.
  pose proof (Z.div_mod (Zpos q1) (2 ^ k1) ltac:(lia)) as Hdm1.
  pose proof (Z.mod_pos_bound (Zpos q1) (2 ^ k1) Hpk1) as Hmod1.
  assert (Hup1 : nearest_even (Zpos q1) k1 = Zpos q1 / 2 ^ k1 + 1)
    by (rewrite Hn, Hq; ring).
  apply nearest_even_up in Hup1.
  remember (Zpos q1 mod 2 ^ k1) as r1 eqn:Hr1def. clear Hr1def.
  rewrite Hq in Hdm1, Hup1. clear Hq Hn.
  assert (Hr1 : 0 < r1) by (clear - Hup1 Hpk1; lia).
  destruct (Z.le_gt_cases e2 E1) as [He2|He2].
  - remember (E1 - e2) as k2 eqn:Hk2def.
    assert (Hk2 : 0 <= k2) by lia.
    assert (Hpk2 : 0 < 2 ^ k2) by (apply pow2_pos; lia).
    (* both values over the scale of the rounded significand *)
    assert (Hc : Zpos q1 * 2 ^ k2 <= Zpos q2 * 2 ^ k1).
    { apply (scaled_le _ _ e1 e2 (e1 + e2 - E1)) in H12; [|lia|lia].
      replace (e1 - (e1 + e2 - E1)) with k2 in H12 by lia.
      replace (e2 - (e1 + e2 - E1)) with k1 in H12 by lia.
      exact H12. }
    assert (Hu : Zpos q2 < A * 2 ^ k2).
    { rewrite Z.max_r, Z.max_l, Z.mul_1_r in H2 by lia.
      rewrite (pow2_split (0 - e2) (- E1)) in H2 by lia.
      replace (0 - e2 - - E1) with k2 in H2 by lia.
      rewrite HA. clear - H2. lia. }
    clear H12 H2.
    pose proof (Z.div_mod (Zpos q2) (2 ^ k2) ltac:(lia)) as Hdm2.
    pose proof (Z.mod_pos_bound (Zpos q2) (2 ^ k2) Hpk2) as Hmod2.
    remember (Zpos q2 mod 2 ^ k2) as r2 eqn:Hr2def.
    remember (Zpos q2 / 2 ^ k2) as Q2 eqn:HQ2def.
    assert (HQ2 : Q2 = A - 1).
    { assert (Q2 < A) by (rewrite HQ2def; apply Z.div_lt_upper_bound; lia).
      assert (A - 1 < Q2 + 1); [|lia].
      clear - Hc Hdm1 Hdm2 Hmod1 Hmod2 Hr1 Hpk1 Hpk2.
      rewrite Hdm1, Hdm2 in Hc.
      assert (Hp : 0 < 2 ^ k1 * 2 ^ k2) by lia. nia. }
    assert (Hrr : r1 * 2 ^ k2 <= r2 * 2 ^ k1).
    { clear - Hc Hdm1 Hdm2 HQ2. rewrite Hdm1, Hdm2, HQ2 in Hc. lia. }
    assert (Hd2 : Zpos (digits2_pos q2) = 53 + k2).
    { apply digits2_unique.
      replace (53 + k2 - 1) with (52 + k2) by lia.
      rewrite !Z.pow_add_r by lia.
      clear - Hdm2 Hmod2 HQ2 H52 HA53 Hpk2. rewrite Hdm2, HQ2.
      change (2 ^ 53) with (2 * 2 ^ 52) in *. nia. }
    assert (EE : round_exp q2 e2 = E1) by (unfold round_exp; rewrite Hd2; lia).
    rewrite EE, <- Hk2def.
    assert (Hup2 : nearest_even (Zpos q2) k2 = Q2 + 1).
    { rewrite HQ2def. apply nearest_even_up. rewrite <- Hr2def, <- HQ2def, HQ2.
      clear - Hup1 Hrr Hpk1 Hpk2 Hmod1 Hmod2.
      destruct Hup1 as [L|[L O]]; [left; nia|].
      destruct (Z.eq_dec (2 * r2) (2 ^ k2)) as [T|T]; [right; auto|left; nia]. }
    rewrite Hup2, HQ2, Z.shiftl_div_pow2 by lia.
    replace (A - 1 + 1) with A by lia.
    rewrite HA, Z.div_mul by lia. lia.
  - exfalso.
    (* the larger value is a multiple of the unit: it cannot lie above the
       smaller one and below [a] *)
    pose proof (pow2_pos (e2 - E1) ltac:(lia)) as Hpj.
    assert (Hj1 : Zpos q1 <= Zpos q2 * 2 ^ (e2 - E1) * 2 ^ k1).
    { apply (scaled_le _ _ e1 e2 e1) in H12; [|lia|lia].
      rewrite Z.sub_diag, Z.mul_1_r in H12.
      rewrite (pow2_split (e2 - e1) (e2 - E1)) in H12 by lia.
      replace (e2 - e1 - (e2 - E1)) with k1 in H12 by lia.
      clear - H12. lia. }
    assert (Hj2 : Zpos q2 * 2 ^ (e2 - E1) < A).
    { apply (scaled_lt _ _ e2 0 E1) in H2; [|lia|lia].
      rewrite Z.sub_0_l in H2. rewrite HA. exact H2. }
    clear - Hj1 Hj2 Hdm1 Hr1 Hpk1. nia.
Qed.

End Monotone.

Section MonotoneDuty.

(** Of two positive products the larger has the larger integral part. *)
Lemma trunc_round_mono (q1 q2 : positive) (e1 e2 t1 t2 : Z) :
  Zpos q1 * 2 ^ Z.max (e1 - e2) 0 <= Zpos q2 * 2 ^ Z.max (e2 - e1) 0 ->
  Double.trunc (binary_round_aux Double.prec Double.emax false (Zpos q1) e1 loc_Exact)
  = Some t1 ->
  Double.trunc (binary_round_aux Double.prec Double.emax false (Zpos q2) e2 loc_Exact)
  = Some t2 ->
  t1 < 2 ^ 53 ->
  t1 <= t2.
Proof.
  intros H12 Ht1 Ht2 Hb.
  destruct (trunc_round_sign _ _ _ _ Ht2) as (u2 & -> & Hu2). cbn [cond_Zopp] in *.
  destruct (Z.le_gt_cases t1 0) as [|Hpos]; [lia|].
  destruct (Z.le_gt_cases (t1 * 2 ^ Z.max (- e2) 0) (Zpos q2 * 2 ^ Z.max e2 0)) as [Hge|Hlt].
  - destruct (trunc_round_ge false q2 e2 t1 u2 ltac:(lia) Hge Ht2) as (t' & E & Ht').
    cbn [cond_Zopp] in E. lia.
  - destruct (binary_round_aux_nearest false q1 e1) as [R1 B1]. rewrite R1 in Ht1.
    destruct (binary_round_aux_nearest false q2 e2) as [R2 B2]. rewrite R2 in Ht2.
    destruct (trunc_rounded false _ (round_exp q1 e1) B1) as [_ T1].
    destruct (trunc_rounded false _ (round_exp q2 e2) B2) as [_ T2].
    apply T1 in Ht1. apply T2 in Ht2. cbn [cond_Zopp] in Ht1, Ht2.
    rewrite Ht2. apply (round_up_mono q1 q2 e1 e2 t1); [lia|exact H12| |lia].
    rewrite Z.sub_0_r, Z.sub_0_l. exact Hlt.
Qed.

(** The order of two valid positive values, over a common scale. *)
Lemma leb_scaled (m1 m2 : positive) (e1 e2 : Z) :
  bounded Double.prec Double.emax m1 e1 = true ->
  bounded Double.prec Double.emax m2 e2 = true ->
  Double.leb (S754_finite false m1 e1) (S754_finite false m2 e2) = true ->
  Zpos m1 * 2 ^ Z.max (e1 - e2) 0 <= Zpos m2 * 2 ^ Z.max (e2 - e1) 0.
Proof.
  intros B1 B2 Hle.
  apply bounded_inv in B1 as (He1 & Hm1 & _).
  apply bounded_inv in B2 as (He2 & _ & Hm2).
  apply SFleb_finite_pos in Hle as [L|[E Hc]].
  - rewrite Z.max_r, Z.max_l, Z.mul_1_r by lia.
    assert (2 ^ 1 <= 2 ^ (e2 - e1)) by (apply Z.pow_le_mono_r; lia).
    change (2 ^ 1) with 2 in *. change (2 ^ 53) with (2 * 2 ^ 52) in Hm1.
    specialize (Hm2 ltac:(lia)). nia.
  - subst e2. rewrite !Z.sub_diag. change (2 ^ Z.max 0 0) with 1. lia.
Qed.

(** [cycle * fraction] grows with the fraction, on [int] results. *)
Lemma mul_trunc_mono (c t1 t2 : Z) (f1 f2 : Double.double) :
  0 <= c < 2 ^ 31 ->
  Double.is_double f1 -> Double.is_double f2 ->
  Double.leb Double.zero f1 = true -> Double.leb f1 f2 = true ->
  Double.trunc (Double.mul (Double.of_int c) f1) = Some t1 ->
  Double.trunc (Double.mul (Double.of_int c) f2) = Some t2 ->
  t1 < 2 ^ 53 ->
  t1 <= t2.
Proof.
  intros Hc V1 V2 H0 H12 Ht1 Ht2 Hb.
  destruct (Z.eq_dec c 0) as [->|Hne].
  { destruct f1 as [s1|s1| |s1 m1 e1]; destruct f2 as [s2|s2| |s2 m2 e2];
      cbn in Ht1, Ht2; try discriminate; injection Ht1 as <-; injection Ht2 as <-; lia. }
  destruct (of_int_finite c Hne) as (mx & sh & Hsh & Hmx & E); [lia|].
  rewrite E in Ht1, Ht2. clear E.
  replace (c <? 0) with false in * by (symmetry; apply Z.ltb_ge; lia).
  destruct f1 as [s1|s1| |s1 m1 e1]; [|discriminate Ht1|discriminate H0|].
  - (* the smaller fraction is a zero *)
    cbn in Ht1. injection Ht1 as <-.
    destruct f2 as [s2|s2| |s2 m2 e2]; [|discriminate Ht2|discriminate Ht2|].
    + cbn in Ht2. injection Ht2 as <-. lia.
    + destruct s2; [destruct s1; discriminate H12|].
      rewrite mul_finite in Ht2.
      apply trunc_round_sign in Ht2 as (u & -> & Hu). cbn. lia.
  - destruct s1; [discriminate H0|].
    destruct f2 as [s2|s2| |s2 m2 e2];
      [discriminate H12|discriminate Ht2|discriminate Ht2|].
    destruct s2; [discriminate H12|].
    rewrite mul_finite in Ht1, Ht2. cbn [xorb] in Ht1, Ht2.
    apply (trunc_round_mono (mx * m1) (mx * m2) (- sh + e1) (- sh + e2)); auto.
    pose proof (leb_scaled m1 m2 e1 e2 V1 V2 H12) as Hle.
    replace (- sh + e1 - (- sh + e2)) with (e1 - e2) by lia.
    replace (- sh + e2 - (- sh + e1)) with (e2 - e1) by lia.
    rewrite !Pos2Z.inj_mul. nia.
Qed.

End MonotoneDuty.

(** X30.  [pwm_set_duty] follows the fraction: for a cycle length that is a
    nonnegative [int] and two fractions [0.0 <= f1 <= f2] that both have a
    result ([f2] may be above 1.0), the larger fraction gives the larger
    (or the same) [on_usec] and the smaller (or the same) [off_usec].  The
    rounding of the product and the cast to [int] never turn the order
    round. *)
Theorem set_duty_is_monotone (w : World) (a : positive) (s : PWM)
    (f1 f2 : Double.double) (on1 off1 on2 off2 : Z) :
  heap w !! a = Some s ->
  0 <= cycle_usec s <= CInt.INT_MAX ->
  Double.is_double f1 -> Double.is_double f2 ->
  Double.leb Double.zero f1 = true -> Double.leb f1 f2 = true ->
  duty_result w a f1 = Some (on1, off1) ->
  duty_result w a f2 = Some (on2, off2) ->
  on1 <= on2 /\ off2 <= off1.
Proof.
  intros H Hc V1 V2 H0 H12 R1 R2. unfold CInt.INT_MAX in Hc.
  rewrite (duty_result_run w a s _ H) in R1. rewrite (duty_result_run w a s _ H) in R2.
  unfold duty_product in R1, R2.
  destruct (Double.to_int (Double.mul _ f1)) as [t1|] eqn:T1; [|discriminate R1].
  destruct (Double.to_int (Double.mul _ f2)) as [t2|] eqn:T2; [|discriminate R2].
  unfold CInt.sub in R1, R2.
  destruct (CInt.in_int (cycle_usec s - t1)); [|discriminate R1].
  destruct (CInt.in_int (cycle_usec s - t2)); [|discriminate R2].
  injection R1 as <- <-. injection R2 as <- <-.
  apply to_int_some in T1 as [T1 I1]. apply to_int_some in T2 as [T2 _].
  apply in_int_iff in I1. unfold CInt.INT_MIN, CInt.INT_MAX in I1.
  assert (t1 <= t2); [|lia].
  apply (mul_trunc_mono (cycle_usec s) t1 t2 f1 f2); auto; lia.
Qed.

(** X30, an instance: cycle length 2000, fractions 0.025 and 0.5. *)
Lemma set_duty_is_monotone_witness :
  duty_result (Ex.running 2000 0 2000) 1 Ex.servo_min = Some (50, 1950)
  /\ duty_result (Ex.running 2000 0 2000) 1 Double.half = Some (1000, 1000)
  /\ 50 <= 1000 /\ 1000 <= 1950.
Proof.
  assert (H1 : duty_result (Ex.running 2000 0 2000) 1 Ex.servo_min = Some (50, 1950))
    by (vm_compute; reflexivity).
  assert (H2 : duty_result (Ex.running 2000 0 2000) 1 Double.half = Some (1000, 1000))
    by (vm_compute; reflexivity).
  split; [exact H1|]. split; [exact H2|].
  refine (set_duty_is_monotone (Ex.running 2000 0 2000) 1 (Ex.instance 2000 0 2000)
            Ex.servo_min Double.half 50 1950 1000 1000 eq_refl _ eq_refl eq_refl
            eq_refl eq_refl H1 H2).
  cbn. unfold CInt.INT_MAX. lia.
Defined.
